(** * Mentat execution substrate: runner, retry policy, recovery parser,
      checkpoint merge

    A shallow embedding of the TypeScript sources

    - [src/utils/concurrency.ts] and [src/generate-lessons.ts]:
      [mapWithConcurrency], the exported runner and the local one;
    - [src/generate-lessons.ts]: [isRateLimitError], [withRetry],
      [generateLesson], [sanitizeJsonBackslashes], [repairTruncatedJson],
      [parseJsonResponse], [isFallbackLesson] and the resume branch of [main];
    - [src/utils/json.ts]: [parseJsonFromModelText] and the readers
      [asObject], [asString], [asStringArray], [asObjectArray];
    - [src/agents/runtime/agentRuntime.ts]: [AgentRuntime.runJson];
    - [src/config/runtimeConfig.ts]: [loadRuntimeConfig] and its readers;
    - [src/utils/text.ts]: [chunkArray], [slugify], [createId];

    followed by the properties of the specification that concern them and
    by further properties of the code.

    Asynchronous code is modelled by explicit state: the runner as a pool of
    suspended workers that an event loop resumes in any order, the retry loop
    with the trace of its invocations and sleeps, the external completion
    service as the sequence of its outcomes.  Exceptions are an error monad.
    [JSON.parse] and the string built-ins are modelled from the language
    definition.

    Definitions come first, properties second: those of the specification
    (C1 to C10), then those read off the code. *)

From Stdlib Require Import ZArith NArith QArith Qround Lia List String Ascii Bool
  DecimalString Lqa.
From stdpp Require Import gmap list.
Close Scope Q_scope.
#[local] Set Warnings "-register-all".
Import ListNotations.

(** ** JavaScript strings

    A JavaScript string is a sequence of UTF-16 code units.  A code unit is
    modelled as a binary natural number, a string as the list of its code
    units. *)

Definition char := N.
Definition jsstring := list char.

(** ASCII literals of the sources are written as Rocq strings. *)
Definition js (s : string) : jsstring :=
  List.map N_of_ascii (list_ascii_of_string s).

Definition QUOTE : char := 34%N.      (* the double quote *)
Definition BACKSLASH : char := 92%N.  (* the backslash *)
Definition SLASH : char := 47%N.

Definition char_eqb (a b : char) : bool := N.eqb a b.

(** ** Escape sanitization ([sanitizeJsonBackslashes], generate-lessons.ts)

    [validEscapes] is the set of characters that may follow a backslash in
    JSON: the quote, the backslash, the slash and the letters b f n r t u. *)

Definition validEscapes : list char :=
  [QUOTE; BACKSLASH; SLASH; 98; 102; 110; 114; 116; 117]%N.

Definition validEscapes_has (c : char) : bool :=
  existsb (char_eqb c) validEscapes.

(** The source walks the characters with an index [i].  At a backslash that
    has a successor it either copies both characters and advances by two, or
    pushes two backslashes and advances by one; any other character (a lone
    last backslash included) is copied.  The recursion below is that loop,
    the remaining input being the characters from [i] on.

    The source iterates by code point ([[...raw]]); a surrogate half is
    neither a backslash nor an escape letter, so iterating by code unit
    yields the same string. *)
Fixpoint sanitizeJsonBackslashes (raw : jsstring) : jsstring :=
  match raw with
  | [] => []
  | c :: rest =>
      if char_eqb c BACKSLASH then
        match rest with
        | [] => [c]
        | next :: rest' =>
            if validEscapes_has next
            then c :: next :: sanitizeJsonBackslashes rest'
            else BACKSLASH :: BACKSLASH :: sanitizeJsonBackslashes rest
        end
      else c :: sanitizeJsonBackslashes rest
  end.

(** ** Characters of the JSON grammar and of [String.prototype.trim] *)

Definition is_json_ws (c : char) : bool :=
  (char_eqb c 32 || char_eqb c 9 || char_eqb c 10 || char_eqb c 13)%N.

(** White space and line terminators of ECMAScript: the characters removed by
    [trim] and matched by the regular-expression class [\s]. *)
Definition is_js_space (c : char) : bool :=
  ((9 <=? c) && (c <=? 13) || char_eqb c 32 || char_eqb c 160
   || char_eqb c 5760 || (8192 <=? c) && (c <=? 8202) || char_eqb c 8232
   || char_eqb c 8233 || char_eqb c 8239 || char_eqb c 8287
   || char_eqb c 12288 || char_eqb c 65279)%N.

Definition is_digit (c : char) : bool := ((48 <=? c) && (c <=? 57))%N.

Definition hex_value (c : char) : option N :=
  if is_digit c then Some (c - 48)%N
  else if ((97 <=? c) && (c <=? 102))%N then Some (c - 87)%N
  else if ((65 <=? c) && (c <=? 70))%N then Some (c - 55)%N
  else None.

Definition hex4 (a b c d : char) : option char :=
  match hex_value a, hex_value b, hex_value c, hex_value d with
  | Some x, Some y, Some z, Some w => Some (((x * 16 + y) * 16 + z) * 16 + w)%N
  | _, _, _, _ => None
  end.

(** The character denoted by a one-letter escape. *)
Definition simple_escape (e : char) : option char :=
  if char_eqb e QUOTE then Some QUOTE
  else if char_eqb e BACKSLASH then Some BACKSLASH
  else if char_eqb e SLASH then Some SLASH
  else if char_eqb e 98%N then Some 8%N
  else if char_eqb e 102%N then Some 12%N
  else if char_eqb e 110%N then Some 10%N
  else if char_eqb e 114%N then Some 13%N
  else if char_eqb e 116%N then Some 9%N
  else None.

Fixpoint skip_ws (s : jsstring) : jsstring :=
  match s with
  | c :: r => if is_json_ws c then skip_ws r else s
  | [] => []
  end.

(** ** JSON values

    A number keeps its lexeme (the double it denotes is a function of it); an
    object keeps its members in source order. *)
Inductive json : Type :=
| JNull
| JBool (b : bool)
| JNumber (lexeme : jsstring)
| JString (s : jsstring)
| JArray (elements : list json)
| JObject (members : list (jsstring * json)).

Definition prepend {A B} (pre : list A) (r : option (list A * B)) : option (list A * B) :=
  match r with
  | Some (l, rest) => Some (pre ++ l, rest)
  | None => None
  end.

(** ** The JSON grammar (ECMA-404), as [JSON.parse] reads it

    [JSON.parse] is a built-in of the language; it is modelled from the JSON
    grammar.  The flag [lenient] is [false] for [JSON.parse].  With [true] the
    reader additionally accepts, inside a string, a backslash followed by a
    character that is no JSON escape (and no control character, which JSON
    allows nowhere in a string), and reads it as the two characters backslash
    and that character: this is the text the sanitizer is meant to rescue,
    and the value it is meant to denote. *)

(** Characters of a string after the opening quote, up to the closing one. *)
Fixpoint parse_string_body (lenient : bool) (s : jsstring)
  : option (jsstring * jsstring) :=
  match s with
  | [] => None
  | c :: r =>
      if char_eqb c QUOTE then Some ([], r)
      else if char_eqb c BACKSLASH then
        match r with
        | [] => None
        | e :: r' =>
            match simple_escape e with
            | Some x => prepend [x] (parse_string_body lenient r')
            | None =>
                if char_eqb e 117%N then
                  match r' with
                  | h1 :: h2 :: h3 :: h4 :: r'' =>
                      match hex4 h1 h2 h3 h4 with
                      | Some u => prepend [u] (parse_string_body lenient r'')
                      | None => None
                      end
                  | _ => None
                  end
                else if lenient && negb (e <? 32)%N
                then prepend [BACKSLASH; e] (parse_string_body lenient r')
                else None
            end
        end
      else if (c <? 32)%N then None
      else prepend [c] (parse_string_body lenient r)
  end.

Fixpoint span_digits (s : jsstring) : jsstring * jsstring :=
  match s with
  | c :: r =>
      if is_digit c then let '(d, r') := span_digits r in (c :: d, r')
      else ([], s)
  | [] => ([], [])
  end.

(** int: a single zero, or a non-zero digit followed by digits. *)
Definition lex_int (s : jsstring) : option (jsstring * jsstring) :=
  match s with
  | c :: r =>
      if char_eqb c 48%N then Some ([c], r)
      else if is_digit c then let '(d, r') := span_digits r in Some (c :: d, r')
      else None
  | [] => None
  end.

(** frac: nothing, or a point followed by at least one digit. *)
Definition lex_frac (s : jsstring) : option (jsstring * jsstring) :=
  match s with
  | c :: r =>
      if char_eqb c 46%N then
        match span_digits r with
        | ([], _) => None
        | (d, r') => Some (c :: d, r')
        end
      else Some ([], s)
  | [] => Some ([], [])
  end.

(** exp: nothing, or e/E, an optional sign and at least one digit. *)
Definition lex_exp (s : jsstring) : option (jsstring * jsstring) :=
  match s with
  | c :: r =>
      if char_eqb c 101%N || char_eqb c 69%N then
        let '(sign, r1) :=
          match r with
          | x :: r1 => if char_eqb x 43%N || char_eqb x 45%N then ([x], r1) else ([], r)
          | [] => ([], r)
          end in
        match span_digits r1 with
        | ([], _) => None
        | (d, r') => Some (c :: sign ++ d, r')
        end
      else Some ([], s)
  | [] => Some ([], [])
  end.

Definition lex_number (s : jsstring) : option (jsstring * jsstring) :=
  let '(sign, s1) :=
    match s with
    | c :: r => if char_eqb c 45%N then ([c], r) else ([], s)
    | [] => ([], s)
    end in
  match lex_int s1 with
  | None => None
  | Some (i, s2) =>
      match lex_frac s2 with
      | None => None
      | Some (f, s3) =>
          match lex_exp s3 with
          | None => None
          | Some (e, s4) => Some (sign ++ i ++ f ++ e, s4)
          end
      end
  end.

(** [strip_prefix p s] is the rest of [s] after its prefix [p]. *)
Fixpoint strip_prefix (p s : jsstring) : option jsstring :=
  match p, s with
  | [], _ => Some s
  | a :: p', b :: s' => if char_eqb a b then strip_prefix p' s' else None
  | _ :: _, [] => None
  end.

Definition LBRACE : char := 123%N.
Definition RBRACE : char := 125%N.
Definition LBRACKET : char := 91%N.
Definition RBRACKET : char := 93%N.
Definition COMMA : char := 44%N.
Definition COLON : char := 58%N.

(** Values, array elements and object members.  The three readers call one
    another; each is written over the readers it calls, and the recursion is
    tied below. *)
Definition reader (A : Type) : Type := jsstring -> option (A * jsstring).

Definition value_body (lenient : bool)
    (members : reader (list (jsstring * json))) (elements : reader (list json))
  : reader json := fun s =>
  match skip_ws s with
  | [] => None
  | c :: r =>
      if char_eqb c LBRACE then
        match skip_ws r with
        | c2 :: r2 =>
            if char_eqb c2 RBRACE then Some (JObject [], r2)
            else match members r with
                 | Some (ms, r') => Some (JObject ms, r')
                 | None => None
                 end
        | [] => None
        end
      else if char_eqb c LBRACKET then
        match skip_ws r with
        | c2 :: r2 =>
            if char_eqb c2 RBRACKET then Some (JArray [], r2)
            else match elements r with
                 | Some (vs, r') => Some (JArray vs, r')
                 | None => None
                 end
        | [] => None
        end
      else if char_eqb c QUOTE then
        match parse_string_body lenient r with
        | Some (str, r') => Some (JString str, r')
        | None => None
        end
      else if char_eqb c 116%N then
        match strip_prefix (js "rue") r with
        | Some r' => Some (JBool true, r')
        | None => None
        end
      else if char_eqb c 102%N then
        match strip_prefix (js "alse") r with
        | Some r' => Some (JBool false, r')
        | None => None
        end
      else if char_eqb c 110%N then
        match strip_prefix (js "ull") r with
        | Some r' => Some (JNull, r')
        | None => None
        end
      else
        match lex_number (c :: r) with
        | Some (lexeme, r') => Some (JNumber lexeme, r')
        | None => None
        end
  end.

(** One value, then a comma and further elements, or the closing bracket. *)
Definition elements_body (value : reader json) (elements : reader (list json))
  : reader (list json) := fun s =>
  match value s with
  | None => None
  | Some (v, r) =>
      match skip_ws r with
      | c :: r' =>
          if char_eqb c COMMA then
            match elements r' with
            | Some (vs, r'') => Some (v :: vs, r'')
            | None => None
            end
          else if char_eqb c RBRACKET then Some ([v], r')
          else None
      | [] => None
      end
  end.

(** A string, a colon and a value, then a comma and further members, or the
    closing brace. *)
Definition members_body (lenient : bool)
    (value : reader json) (members : reader (list (jsstring * json)))
  : reader (list (jsstring * json)) := fun s =>
  match skip_ws s with
  | c :: r =>
      if char_eqb c QUOTE then
        match parse_string_body lenient r with
        | None => None
        | Some (key, r1) =>
            match skip_ws r1 with
            | c1 :: r2 =>
                if char_eqb c1 COLON then
                  match value r2 with
                  | None => None
                  | Some (v, r3) =>
                      match skip_ws r3 with
                      | c3 :: r4 =>
                          if char_eqb c3 COMMA then
                            match members r4 with
                            | Some (ms, r5) => Some ((key, v) :: ms, r5)
                            | None => None
                            end
                          else if char_eqb c3 RBRACE then Some ([(key, v)], r4)
                          else None
                      | [] => None
                      end
                  end
                else None
            | [] => None
            end
        end
      else None
  | [] => None
  end.

(** [fuel] bounds the depth of the recursion; [JSON_parse] below supplies
    enough of it. *)
Fixpoint parse_value (lenient : bool) (fuel : nat) (s : jsstring) {struct fuel}
  : option (json * jsstring) :=
  match fuel with
  | O => None
  | S fuel' =>
      value_body lenient (fun t => parse_members lenient fuel' t)
                         (fun t => parse_elements lenient fuel' t) s
  end
with parse_elements (lenient : bool) (fuel : nat) (s : jsstring) {struct fuel}
  : option (list json * jsstring) :=
  match fuel with
  | O => None
  | S fuel' =>
      elements_body (fun t => parse_value lenient fuel' t)
                    (fun t => parse_elements lenient fuel' t) s
  end
with parse_members (lenient : bool) (fuel : nat) (s : jsstring) {struct fuel}
  : option (list (jsstring * json) * jsstring) :=
  match fuel with
  | O => None
  | S fuel' =>
      members_body lenient (fun t => parse_value lenient fuel' t)
                           (fun t => parse_members lenient fuel' t) s
  end.

(** A whole text: one value, surrounded by white space only. *)
Definition parse_text (lenient : bool) (fuel : nat) (text : jsstring) : option json :=
  match parse_value lenient fuel text with
  | Some (v, r) => match skip_ws r with [] => Some v | _ :: _ => None end
  | None => None
  end.

(** Of two nested calls of the readers at least one consumes a character, so
    twice the length of the text bounds the depth ([JSON_parse_complete]
    below: more fuel accepts nothing more). *)
Definition parse_fuel (text : jsstring) : nat := 2 * List.length text + 2.

Definition JSON_parse (text : jsstring) : option json :=
  parse_text false (parse_fuel text) text.

(** The reading of a text with stray backslashes that C7 speaks of. *)
Definition parse_lenient (text : jsstring) : option json :=
  parse_text true (parse_fuel text) text.

(** [jsq] writes a literal in which each apostrophe stands for a double
    quote. *)
Definition jsq (s : string) : jsstring :=
  List.map (fun c => if char_eqb c 39%N then QUOTE else c) (js s).

(** ** Exceptions

    A thrown value is an [Error] carrying its message, or some other value.
    A computation completes normally with a value or abruptly with a thrown
    value. *)
Inductive thrown : Type :=
| ErrorObj (message : jsstring)
| NonError.

Inductive completion (A : Type) : Type :=
| Normal (a : A)
| Throw (e : thrown).
Arguments Normal {A} a.
Arguments Throw {A} e.

Definition bind {A B} (c : completion A) (k : A -> completion B) : completion B :=
  match c with
  | Normal a => k a
  | Throw e => Throw e
  end.

(** [try c catch (e) handler] *)
Definition try_catch {A} (c : completion A) (handler : thrown -> completion A)
  : completion A :=
  match c with
  | Normal a => Normal a
  | Throw e => handler e
  end.

Notation "'let*' x ':=' c 'in' k" := (bind c (fun x => k))
  (at level 10, x name, c at level 100, k at level 200).

(** Built-ins whose result is fixed by the engine or by the Unicode tables
    rather than by the sources: [String.prototype.toLowerCase], and the
    messages of the errors that the engine itself raises. *)
Inductive builtin_error : Type :=
| JsonSyntaxError (text : jsstring)      (* JSON.parse(text) *)
| PropertyOfNull (name : jsstring)       (* null.name *)
| NotAFunction (name : jsstring).        (* value.name(...) where value.name is no function *)

Record Engine : Type := {
  toLowerCase : jsstring -> jsstring;
  builtinMessage : builtin_error -> jsstring
}.

Definition syntaxErrorMessage (E : Engine) (text : jsstring) : jsstring :=
  builtinMessage E (JsonSyntaxError text).

(** [JSON.parse] as a computation. *)
Definition JSON_parse_c (E : Engine) (text : jsstring) : completion json :=
  match JSON_parse text with
  | Some v => Normal v
  | None => Throw (ErrorObj (syntaxErrorMessage E text))
  end.

(** ** String built-ins *)

Fixpoint drop_while (f : char -> bool) (s : jsstring) : jsstring :=
  match s with
  | c :: r => if f c then drop_while f r else s
  | [] => []
  end.

Fixpoint take_while (f : char -> bool) (s : jsstring) : jsstring :=
  match s with
  | c :: r => if f c then c :: take_while f r else []
  | [] => []
  end.

(** [String.prototype.trim] *)
Definition trim (s : jsstring) : jsstring :=
  rev (drop_while is_js_space (rev (drop_while is_js_space s))).

(** [s.indexOf(c)] for a one-character [c]; [None] stands for -1. *)
Fixpoint indexOf (c : char) (s : jsstring) : option nat :=
  match s with
  | [] => None
  | x :: r => if char_eqb x c then Some O else option_map S (indexOf c r)
  end.

(** [s.lastIndexOf(c)] *)
Fixpoint lastIndexOf (c : char) (s : jsstring) : option nat :=
  match s with
  | [] => None
  | x :: r =>
      match lastIndexOf c r with
      | Some i => Some (S i)
      | None => if char_eqb x c then Some O else None
      end
  end.

(** [s.slice(a, b)] for [0 <= a]. *)
Definition slice (s : jsstring) (a b : nat) : jsstring :=
  firstn (b - a) (skipn a s).

Definition is_empty (s : jsstring) : bool :=
  match s with [] => true | _ :: _ => false end.

(** ** The fence pattern

    The regular expression is: three backticks, optionally the word json,
    white space as long as possible, then as few characters as possible
    (the captured group) up to three backticks.  No character of the word or
    of the white space is a backtick, so giving back some of them never
    uncovers a closing fence, and an attempt that fails at the first opening
    fence fails at every later one: the match starts at the first occurrence
    of three backticks and the group ends at the next occurrence after the
    word and the white space. *)
Definition BACKTICK : char := 96%N.
Definition FENCE : jsstring := [BACKTICK; BACKTICK; BACKTICK].

(** The text before and after the first occurrence of the fence. *)
Fixpoint split_at_fence (s : jsstring) : option (jsstring * jsstring) :=
  match strip_prefix FENCE s with
  | Some after => Some ([], after)
  | None =>
      match s with
      | [] => None
      | c :: r =>
          match split_at_fence r with
          | Some (before, after) => Some (c :: before, after)
          | None => None
          end
      end
  end.

(** The word json; with the flag [i] each letter in either case. *)
Definition letter_matches (ignoreCase : bool) (lower x : char) : bool :=
  char_eqb x lower || (ignoreCase && char_eqb x (lower - 32)%N).

Definition strip_json_word (ignoreCase : bool) (s : jsstring) : jsstring :=
  match s with
  | a :: b :: c :: d :: r =>
      if letter_matches ignoreCase 106%N a && letter_matches ignoreCase 115%N b
         && letter_matches ignoreCase 111%N c && letter_matches ignoreCase 110%N d
      then r else s
  | _ => s
  end.

(** Group 1 of the first match, when the pattern matches. *)
Definition match_fence (ignoreCase : bool) (text : jsstring) : option jsstring :=
  match split_at_fence text with
  | None => None
  | Some (_, after) =>
      match split_at_fence (drop_while is_js_space (strip_json_word ignoreCase after)) with
      | Some (group, _) => Some group
      | None => None
      end
  end.

(** ** [parseJsonFromModelText] (utils/json.ts) *)

Definition extractFencedJson (text : jsstring) : option jsstring :=
  option_map trim (match_fence true text).

Definition extractDelimitedJson (text : jsstring) (start end_ : char)
  : option jsstring :=
  match indexOf start text, lastIndexOf end_ text with
  | Some startIndex, Some endIndex =>
      if (endIndex <=? startIndex)%nat then None
      else Some (trim (slice text startIndex (endIndex + 1)))
  | _, _ => None
  end.

(** A string or null used as a condition: null and the empty string fail. *)
Definition truthy (o : option jsstring) : option jsstring :=
  match o with
  | Some s => if is_empty s then None else Some s
  | None => None
  end.

Definition parseJsonFromModelText (E : Engine) (raw : jsstring) : completion json :=
  let trimmed := trim raw in
  if is_empty trimmed then
    Throw (ErrorObj (js "Model returned an empty response."))
  else
    let fenced_value :=
      match truthy (extractFencedJson trimmed) with
      | Some fenced => JSON_parse fenced      (* try { return ... } catch {} *)
      | None => None
      end in
    match fenced_value with
    | Some v => Normal v
    | None =>
        match JSON_parse trimmed with
        | Some v => Normal v
        | None =>
            match truthy (extractDelimitedJson trimmed LBRACE RBRACE) with
            | Some objectCandidate => JSON_parse_c E objectCandidate
            | None =>
                match truthy (extractDelimitedJson trimmed LBRACKET RBRACKET) with
                | Some arrayCandidate => JSON_parse_c E arrayCandidate
                | None =>
                    Throw (ErrorObj (js "Model response did not contain valid JSON."))
                end
            end
        end
    end.

(** ** Truncation repair ([repairTruncatedJson], generate-lessons.ts) *)

(** The backslashes immediately before index [i]. *)
Definition backslashes_before (s : jsstring) (i : nat) : nat :=
  List.length (take_while (fun c => char_eqb c BACKSLASH) (rev (firstn i s))).

(** Step 1: at most [attempts] times, find the last quote; drop it when it is
    escaped and look again, otherwise keep the text up to and including it. *)
Fixpoint trim_to_last_quote (attempts : nat) (s : jsstring) : jsstring :=
  match attempts with
  | O => s
  | S attempts' =>
      match lastIndexOf QUOTE s with
      | None => s
      | Some lastQuote =>
          if Nat.odd (backslashes_before s lastQuote)
          then trim_to_last_quote attempts' (slice s 0 lastQuote)
          else slice s 0 (lastQuote + 1)
      end
  end.

(** Step 2: [s.replace(/,\s*$/, "")]. *)
Definition strip_trailing_comma (s : jsstring) : jsstring :=
  match drop_while is_js_space (rev s) with
  | c :: r => if char_eqb c COMMA then rev r else s
  | [] => s
  end.

(** Step 3: the scan that counts the open braces and brackets outside of
    strings. *)
Record scan_state : Type := {
  openBraces : Z;
  openBrackets : Z;
  inString : bool;
  escaped : bool
}.

Definition scan_start : scan_state :=
  {| openBraces := 0; openBrackets := 0; inString := false; escaped := false |}.

Definition scan_char (st : scan_state) (ch : char) : scan_state :=
  if escaped st then
    {| openBraces := openBraces st; openBrackets := openBrackets st;
       inString := inString st; escaped := false |}
  else if char_eqb ch BACKSLASH then
    {| openBraces := openBraces st; openBrackets := openBrackets st;
       inString := inString st; escaped := true |}
  else if char_eqb ch QUOTE then
    {| openBraces := openBraces st; openBrackets := openBrackets st;
       inString := negb (inString st); escaped := false |}
  else if negb (inString st) then
    if char_eqb ch LBRACE then
      {| openBraces := openBraces st + 1; openBrackets := openBrackets st;
         inString := false; escaped := false |}
    else if char_eqb ch RBRACE then
      {| openBraces := openBraces st - 1; openBrackets := openBrackets st;
         inString := false; escaped := false |}
    else if char_eqb ch LBRACKET then
      {| openBraces := openBraces st; openBrackets := openBrackets st + 1;
         inString := false; escaped := false |}
    else if char_eqb ch RBRACKET then
      {| openBraces := openBraces st; openBrackets := openBrackets st - 1;
         inString := false; escaped := false |}
    else st
  else st.

Definition scan (s : jsstring) : scan_state := fold_left scan_char s scan_start.

Definition repairTruncatedJson (raw : jsstring) : jsstring :=
  let s := trim_to_last_quote 20 raw in
  let s := strip_trailing_comma s in
  let st := scan s in
  s ++ repeat RBRACKET (Z.to_nat (openBrackets st))
    ++ repeat RBRACE (Z.to_nat (openBraces st)).

(** The braces and brackets left open outside of strings (C8). *)
Definition unclosed (s : jsstring) : Z :=
  openBraces (scan s) + openBrackets (scan s).

(** ** [parseJsonResponse] (generate-lessons.ts) *)

(** Lines 522-541: direct parse, then sanitize, then repair. *)
Definition parse_with_recovery (E : Engine) (jsonStr : jsstring) : completion json :=
  match JSON_parse jsonStr with
  | Some v => Normal v
  | None =>
      let sanitized := sanitizeJsonBackslashes jsonStr in
      match JSON_parse sanitized with
      | Some v => Normal v
      | None =>
          let repaired := repairTruncatedJson sanitized in
          match JSON_parse repaired with
          | Some v => Normal v
          | None =>
              Throw (ErrorObj (js "Could not parse JSON from response: "
                               ++ syntaxErrorMessage E repaired))
          end
      end
  end.

(** Lines 505-519: the payload is the fenced block when there is one, else
    the text from the first opening brace to the last closing brace when
    they are in that order, else the whole text. *)
Definition extract_payload (raw : jsstring) : jsstring :=
  match match_fence false raw with
  | Some group => trim group
  | None =>
      match indexOf LBRACE raw, lastIndexOf RBRACE raw with
      | Some braceStart, Some braceEnd =>
          if (braceStart <? braceEnd)%nat
          then slice raw braceStart (braceEnd + 1)
          else raw
      | _, _ => raw
      end
  end.

Definition parseJsonResponse (E : Engine) (raw : jsstring) : completion json :=
  parse_with_recovery E (extract_payload raw).

(** An engine for running the definitions on examples: ASCII letters are
    lowered, and the message of a syntax error is a fixed text. *)
Definition ascii_lower (c : char) : char :=
  if ((65 <=? c) && (c <=? 90))%N then (c + 32)%N else c.

Definition exampleEngine : Engine :=
  {| toLowerCase := List.map ascii_lower;
     builtinMessage := fun b =>
       match b with
       | JsonSyntaxError _ => js "Unexpected token"
       | PropertyOfNull name => js "Cannot read properties of null: " ++ name
       | NotAFunction name => name ++ js " is not a function"
       end |}.

(** ** JavaScript numbers

    A number is a finite value, NaN or an infinity.  Only comparisons, the
    minimum and the floor are used on the numbers modelled here; they are
    exact on doubles, and a finite double is a rational. *)
Inductive jsnumber : Type :=
| Num (q : Q)
| NaN
| PosInf
| NegInf.

Definition Number_isFinite (x : jsnumber) : bool :=
  match x with Num _ => true | _ => false end.

(** [a <= b] *)
Definition num_le (a b : jsnumber) : bool :=
  match a, b with
  | NaN, _ | _, NaN => false
  | Num p, Num q => Qle_bool p q
  | NegInf, _ | _, PosInf => true
  | _, _ => false
  end.

(** [a < b] *)
Definition num_lt (a b : jsnumber) : bool :=
  match a, b with
  | NaN, _ | _, NaN => false
  | Num p, Num q => negb (Qle_bool q p)
  | NegInf, NegInf | PosInf, PosInf => false
  | NegInf, _ | _, PosInf => true
  | _, _ => false
  end.

Definition Math_min (a b : jsnumber) : jsnumber :=
  match a, b with
  | NaN, _ | _, NaN => NaN
  | _, _ => if num_le a b then a else b
  end.

Definition Math_floor (a : jsnumber) : jsnumber :=
  match a with
  | Num q => Num (inject_Z (Qfloor q))
  | _ => a
  end.

Definition of_nat (n : nat) : jsnumber := Num (inject_Z (Z.of_nat n)).

(** The length that [Array.from({ length: x }, ...)] reads off [x]: NaN and
    anything not above zero give 0, a fraction is cut off, and the result is
    capped at 2^53 - 1. *)
Definition ToLength (x : jsnumber) : N :=
  match x with
  | NaN | NegInf => 0%N
  | PosInf => (2 ^ 53 - 1)%N
  | Num q => N.min (Z.to_N (Qfloor q)) (2 ^ 53 - 1)%N
  end.

(** ** The concurrency-bounded runner ([mapWithConcurrency])

    Execution is cooperative: a worker runs until its next [await], and the
    event loop then resumes some worker whose awaited promise has settled.
    A worker is suspended in the pacing sleep taken before unit [idx], or on
    the handler's promise for unit [idx], or has returned. *)
Inductive worker : Type :=
| Sleeping (idx : nat)
| Awaiting (idx : nat)
| Returned.

(** The variables shared by the workers: [cursor] and [results] (an array
    with holes), the workers themselves, and, for observation, the indices
    on which the handler has been invoked so far. *)
Record pool (R : Type) : Type := {
  cursor : nat;
  results : list (option R);
  workers : list worker;
  invoked : list nat
}.
Arguments cursor {R} p.
Arguments results {R} p.
Arguments workers {R} p.
Arguments invoked {R} p.

Section Runner.
Context {T R : Type}.
Variable pacing : bool.   (* the runner of generate-lessons.ts sleeps before every unit but the first *)
Variable items : list T.
Variable mapper : T -> nat -> R.

(** From the head of the [while] loop to the next [await]: claim the next
    index if there is one and sleep, or invoke the handler; return if
    there is none. *)
Definition claim (p : pool R) : pool R * worker :=
  if (cursor p <? List.length items)%nat then
    let idx := cursor p in
    if pacing && (0 <? idx)%nat then
      ({| cursor := S idx; results := results p; workers := workers p;
          invoked := invoked p |}, Sleeping idx)
    else
      ({| cursor := S idx; results := results p; workers := workers p;
          invoked := invoked p ++ [idx] |}, Awaiting idx)
  else (p, Returned).

Definition set_worker (w : nat) (st : worker) (p : pool R) : pool R :=
  {| cursor := cursor p; results := results p;
     workers := <[w := st]> (workers p); invoked := invoked p |}.

(** Worker [w] is resumed.  After the sleep it invokes the handler; after
    the handler's promise it stores the result and goes round the loop. *)
Definition resume (w : nat) (p : pool R) : pool R :=
  match workers p !! w with
  | Some (Sleeping idx) =>
      set_worker w (Awaiting idx)
        {| cursor := cursor p; results := results p; workers := workers p;
           invoked := invoked p ++ [idx] |}
  | Some (Awaiting idx) =>
      match items !! idx with
      | Some item =>
          let '(p', st) :=
            claim {| cursor := cursor p;
                     results := <[idx := Some (mapper item idx)]> (results p);
                     workers := workers p; invoked := invoked p |} in
          set_worker w st p'
      | None => p   (* not reached: a claimed index is below items.length *)
      end
  | Some Returned | None => p
  end.

(** [Array.from({ length }, async () => ...)] calls the worker function
    [n] times in a row; each call runs to its first [await]. *)
Definition spawn_one (p : pool R) : pool R :=
  let '(p', st) := claim p in
  {| cursor := cursor p'; results := results p';
     workers := workers p' ++ [st]; invoked := invoked p' |}.

Definition spawn (n : nat) (p : pool R) : pool R := Nat.iter n spawn_one p.

Definition is_pending (st : worker) : bool :=
  match st with Returned => false | _ => true end.

(** The workers that have not returned, by position. *)
Definition pending (p : pool R) : list nat :=
  List.filter (fun w => match workers p !! w with
                        | Some st => is_pending st
                        | None => false
                        end)
              (seq 0 (List.length (workers p))).

(** The event loop.  At turn [t] it resumes one of the [k] pending workers,
    number [sched t mod k]: any order of completion is some [sched].  It
    stops when every worker has returned, or after [fuel] turns. *)
Fixpoint event_loop (sched : nat -> nat) (fuel t : nat) (p : pool R) : pool R :=
  match fuel with
  | O => p
  | S fuel' =>
      match pending p with
      | [] => p
      | w0 :: ws =>
          let w := nth (sched t mod List.length (w0 :: ws)) (w0 :: ws) w0 in
          event_loop sched fuel' (S t) (resume w p)
      end
  end.

Definition start : pool R :=
  {| cursor := 0; results := repeat None (List.length items);
     workers := []; invoked := [] |}.
End Runner.

(** What a call of the runner shows: how its promise settled ([None]: still
    pending after [fuel] turns of the event loop), the indices on which the
    handler was invoked, and the number of workers spawned. *)
Record run (R : Type) : Type := {
  settled : option (completion (list (option R)));
  handler_calls : list nat;
  spawned : nat
}.
Arguments settled {R} r.
Arguments handler_calls {R} r.
Arguments spawned {R} r.

Definition await_all {R} (p : pool R) : run R :=
  {| settled := match pending p with
                | [] => Some (Normal (results p))   (* Promise.all resolved *)
                | _ :: _ => None
                end;
     handler_calls := invoked p;
     spawned := List.length (workers p) |}.

(** utils/concurrency.ts *)
Definition mapWithConcurrency {T R} (sched : nat -> nat) (fuel : nat)
    (items : list T) (concurrency : jsnumber) (mapper : T -> nat -> R) : run R :=
  if negb (Number_isFinite concurrency) || num_le concurrency (Num 0) then
    {| settled := Some (Throw (ErrorObj (js "Concurrency must be a positive number.")));
       handler_calls := []; spawned := 0 |}
  else if (List.length items =? 0)%nat then
    {| settled := Some (Normal []); handler_calls := []; spawned := 0 |}
  else
    let workerCount := Math_min (Math_floor concurrency) (of_nat (List.length items)) in
    await_all (event_loop false items mapper sched fuel 0
            (spawn false items (N.to_nat (ToLength workerCount)) (start items))).

(** generate-lessons.ts: no guard, no floor, a pacing sleep. *)
Definition mapWithConcurrency_lessons {T R} (sched : nat -> nat) (fuel : nat)
    (items : list T) (concurrency : jsnumber) (mapper : T -> nat -> R) : run R :=
  let workerCount := Math_min concurrency (of_nat (List.length items)) in
  await_all (event_loop true items mapper sched fuel 0
          (spawn true items (N.to_nat (ToLength workerCount)) (start items))).

(** ** The retry policy ([isRateLimitError], [withRetry], generate-lessons.ts) *)

(** [hay.includes(needle)] *)
Fixpoint includes (needle hay : jsstring) : bool :=
  match strip_prefix needle hay with
  | Some _ => true
  | None =>
      match hay with
      | [] => false
      | _ :: r => includes needle r
      end
  end.

Definition isRateLimitError (E : Engine) (err : thrown) : bool :=
  match err with
  | NonError => false
  | ErrorObj message =>
      let msg := toLowerCase E message in
      includes (js "rate limit") msg
      || includes (js "429") msg
      || includes (js "too many requests") msg
      || includes (js "free credits temporarily") msg
      || includes (js "resource exhausted") msg
      || includes (js "quota") msg
  end.

(** What a call of [withRetry] does besides returning: it invokes the
    operation and it sleeps. *)
Inductive retry_event : Type :=
| Invoke
| Sleep (delayMs : Q).

Record retry_run (A : Type) : Type := {
  result : completion A;
  events : list retry_event
}.
Arguments result {A} r.
Arguments events {A} r.

Section WithRetry.
Context {A : Type}.
Variable E : Engine.
(** [fn i] is how the invocation number [i] (from 0) of the operation
    completes, [random i] the value of call number [i] of [Math.random]. *)
Variable fn : nat -> completion A.
Variable random : nat -> Q.
(** [MAX_RETRIES] is read by [parseInt]: an integer, or NaN, which fails
    both comparisons of the loop as a negative integer does. *)
Variable maxRetries : Z.
Variable baseMs : Q.

Definition backoff (attempt : nat) : Q :=
  (baseMs * inject_Z (2 ^ Z.of_nat attempt) + random attempt * 1000)%Q.

(** The [for] loop from [attempt] on; [remaining] counts the values of
    [attempt] up to [maxRetries] that are left.  Each round invokes the
    operation once, so the invocation number is [attempt]. *)
Fixpoint retry_from (remaining attempt : nat) (lastErr : thrown)
    (done : list retry_event) : retry_run A :=
  match remaining with
  | O => {| result := Throw lastErr; events := done |}
  | S remaining' =>
      match fn attempt with
      | Normal v => {| result := Normal v; events := done ++ [Invoke] |}
      | Throw err =>
          if (Z.of_nat attempt <? maxRetries)%Z && isRateLimitError E err
          then retry_from remaining' (S attempt) err
                 (done ++ [Invoke; Sleep (backoff attempt)])
          else {| result := Throw err; events := done ++ [Invoke] |}
      end
  end.

(** [lastErr] starts out undefined, which is no [Error]. *)
Definition withRetry (label : jsstring) : retry_run A :=
  retry_from (Z.to_nat (maxRetries + 1)) 0 NonError [].
End WithRetry.

Definition invocations (evs : list retry_event) : nat :=
  List.length (List.filter (fun e => match e with Invoke => true | Sleep _ => false end) evs).

(** ** Values of type [any]

    What [JSON.parse] returned is read with property accesses, [||] and
    [Array.isArray].  An absent property is undefined: [None]. *)

Fixpoint string_eqb (a b : jsstring) : bool :=
  match a, b with
  | [], [] => true
  | x :: a', y :: b' => char_eqb x y && string_eqb a' b'
  | _, _ => false
  end.

Definition digits_value (ds : jsstring) : Z :=
  fold_left (fun acc c => (acc * 10 + Z.of_N (c - 48))%Z) ds 0%Z.

(** The digits of a number lexeme and its decimal exponent: the number is
    plus or minus [digits * 10 ^ exponent]. *)
Definition lexeme_parts (lexeme : jsstring) : Z * Z :=
  let unsigned :=
    match lexeme with
    | c :: r => if char_eqb c 45%N then r else lexeme
    | [] => lexeme
    end in
  let '(int, r1) := span_digits unsigned in
  let '(frac, r2) :=
    match r1 with
    | c :: r => if char_eqb c 46%N then span_digits r else ([], r1)
    | [] => ([], r1)
    end in
  let exponent :=
    match r2 with
    | _ :: x :: r =>
        if char_eqb x 45%N then (- digits_value r)%Z
        else if char_eqb x 43%N then digits_value r
        else digits_value (x :: r)
    | _ => 0%Z
    end in
  (digits_value (int ++ frac), (exponent - Z.of_nat (List.length frac))%Z).

(** The double denoted by a lexeme is zero when the decimal is zero or
    rounds to zero, that is, is at most 2^-1075 in magnitude. *)
Definition number_is_zero (lexeme : jsstring) : bool :=
  let '(digits, exponent) := lexeme_parts lexeme in
  if (0 <=? exponent)%Z then (digits =? 0)%Z
  else (digits * 2 ^ 1075 <=? 10 ^ (- exponent))%Z.

(** Truthiness *)
Definition truthy_value (v : json) : bool :=
  match v with
  | JNull => false
  | JBool b => b
  | JNumber lexeme => negb (number_is_zero lexeme)
  | JString s => negb (is_empty s)
  | JArray _ | JObject _ => true
  end.

(** [a || b], where [a] may be undefined *)
Definition or_else (a : option json) (b : json) : json :=
  match a with
  | Some v => if truthy_value v then v else b
  | None => b
  end.

(** The member that [JSON.parse] keeps for a key: the last one. *)
Fixpoint lookup_member (name : jsstring) (members : list (jsstring * json))
  : option json :=
  match members with
  | [] => None
  | (k, v) :: rest =>
      match lookup_member name rest with
      | Some v' => Some v'
      | None => if string_eqb k name then Some v else None
      end
  end.

(** [v.name], for the property names that the sources read: none of them is
    a property of a prototype, so only an object has them. *)
Definition get_field (E : Engine) (v : json) (name : jsstring)
  : completion (option json) :=
  match v with
  | JNull => Throw (ErrorObj (builtinMessage E (PropertyOfNull name)))
  | JObject members => Normal (lookup_member name members)
  | _ => Normal None
  end.

(** [Array.isArray(x) ? x : other] *)
Definition array_or {B} (x : option json) (array : list json -> B) (other : B) : B :=
  match x with
  | Some (JArray l) => array l
  | _ => other
  end.

Fixpoint mapM {A B} (f : A -> completion B) (l : list A) : completion (list B) :=
  match l with
  | [] => Normal []
  | a :: l' =>
      let* b := f a in
      let* bs := mapM f l' in
      Normal (b :: bs)
  end.

(** [v.map(f)]: only an array has a function [map]. *)
Definition call_map {B} (E : Engine) (v : json) (f : json -> completion B)
  : completion (list B) :=
  match v with
  | JArray l => mapM f l
  | _ => Throw (ErrorObj (builtinMessage E (NotAFunction (js "map"))))
  end.

(** ** More string built-ins *)

(** [s.split(sep)] for a non-empty separator: [skip] characters of a
    separator just found are still to be passed over, [piece] is the piece
    being read, reversed. *)
Fixpoint split_from (sep s : jsstring) (skip : nat) (piece : jsstring)
  : list jsstring :=
  match s with
  | [] => [rev piece]
  | c :: r =>
      match skip with
      | S skip' => split_from sep r skip' piece
      | O =>
          match strip_prefix sep s with
          | Some _ => rev piece :: split_from sep r (List.length sep - 1) []
          | None => split_from sep r 0 (c :: piece)
          end
      end
  end.

Definition split (sep s : jsstring) : list jsstring := split_from sep s 0 [].

(** [parts.join(sep)] *)
Fixpoint join (sep : jsstring) (parts : list jsstring) : jsstring :=
  match parts with
  | [] => []
  | [p] => p
  | p :: rest => p ++ sep ++ join sep rest
  end.

Definition startsWith (s p : jsstring) : bool :=
  match strip_prefix p s with Some _ => true | None => false end.

(** ** Lesson generation ([generateLesson], generate-lessons.ts) *)

Record Subsection : Type := {
  number : option jsstring;
  title : jsstring;
  keyConcepts : list jsstring;
  memorizeables : list jsstring
}.

(** [assessmentTargets] is never read and is left out. *)
Record ChapterBreakdown : Type := {
  chapterNumber : option jsstring;
  chapterTitle : jsstring;
  summary : jsstring;
  subsections : list Subsection
}.

(** The content of a lesson comes out of the parsed response untyped. *)
Record PracticeQuestion : Type := {
  pq_type : json;
  pq_question : json;
  pq_choices : option (list json);
  pq_answer : json;
  pq_explanation : json
}.

Record MemorizableDrill : Type := {
  md_prompt : json;
  md_answer : json;
  md_category : json
}.

Record GeneratedLesson : Type := {
  sectionNumber : option jsstring;
  sectionTitle : jsstring;
  lessonChapterNumber : option jsstring;
  lessonChapterTitle : jsstring;
  overview : json;
  instructionalText : json;
  workedExamples : list json;
  keyTakeaways : list json;
  practiceQuestions : list PracticeQuestion;
  memorizeableDrills : list MemorizableDrill
}.

(** The object built from the parsed response (lines 288-313). *)
Definition buildLesson (E : Engine) (chapter : ChapterBreakdown)
    (subsection : Subsection) (parsed : json) : completion GeneratedLesson :=
  let* overview_ := get_field E parsed (js "overview") in
  let* instructionalText_ := get_field E parsed (js "instructionalText") in
  let* workedExamples_ := get_field E parsed (js "workedExamples") in
  let* keyTakeaways_ := get_field E parsed (js "keyTakeaways") in
  let* questions := get_field E parsed (js "practiceQuestions") in
  let* practiceQuestions_ :=
    call_map E (or_else questions (JArray [])) (fun q =>
      let* type_ := get_field E q (js "type") in
      let* question_ := get_field E q (js "question") in
      let* choices_ := get_field E q (js "choices") in
      let* answer_ := get_field E q (js "answer") in
      let* explanation_ := get_field E q (js "explanation") in
      Normal {| pq_type := or_else type_ (JString (js "short_answer"));
                pq_question := or_else question_ (JString []);
                pq_choices := array_or choices_ Some None;
                pq_answer := or_else answer_ (JString []);
                pq_explanation := or_else explanation_ (JString []) |}) in
  let* drills := get_field E parsed (js "memorizeableDrills") in
  let* memorizeableDrills_ :=
    call_map E (or_else drills (JArray [])) (fun d =>
      let* prompt_ := get_field E d (js "prompt") in
      let* answer_ := get_field E d (js "answer") in
      let* category_ := get_field E d (js "category") in
      Normal {| md_prompt := or_else prompt_ (JString []);
                md_answer := or_else answer_ (JString []);
                md_category := or_else category_ (JString (js "fact")) |}) in
  Normal {| sectionNumber := number subsection;
            sectionTitle := title subsection;
            lessonChapterNumber := chapterNumber chapter;
            lessonChapterTitle := chapterTitle chapter;
            overview := or_else overview_ (JString []);
            instructionalText := or_else instructionalText_ (JString []);
            workedExamples := array_or workedExamples_ (fun l => l) [];
            keyTakeaways := array_or keyTakeaways_ (fun l => l) [];
            practiceQuestions := practiceQuestions_;
            memorizeableDrills := memorizeableDrills_ |}.

(** The minimal fallback lesson of the [catch] block (lines 321-342): a
    function of the chapter and the subsection alone. *)
Definition fallbackDrill (E : Engine) (m : jsstring) : MemorizableDrill :=
  let parts := split (js ": ") m in
  let catPart := hd [] parts in
  let rest := tl parts in
  let cat := toLowerCase E catPart in
  {| md_prompt := JString (js "What is the " ++ cat ++ js ": "
                           ++ firstn 50 (join (js ": ") rest) ++ js "...?");
     md_answer := JString (join (js ": ") rest);
     md_category :=
       JString (if existsb (string_eqb cat) [js "formula"; js "definition"; js "fact"]
                then cat else js "fact") |}.

Definition fallbackLesson (E : Engine) (chapter : ChapterBreakdown)
    (subsection : Subsection) : GeneratedLesson :=
  {| sectionNumber := number subsection;
     sectionTitle := title subsection;
     lessonChapterNumber := chapterNumber chapter;
     lessonChapterTitle := chapterTitle chapter;
     overview := JString (js "Section on " ++ title subsection ++ js ".");
     instructionalText :=
       JString (js "This section covers: "
                ++ join (js "; ") (keyConcepts subsection) ++ js ".");
     workedExamples := [];
     keyTakeaways := List.map JString (firstn 3 (keyConcepts subsection));
     practiceQuestions := [];
     memorizeableDrills := List.map (fallbackDrill E) (memorizeables subsection) |}.

(** A string or null in a template or as a condition. *)
Definition to_string (o : option jsstring) : jsstring :=
  match o with Some s => s | None => js "null" end.

Definition decimal (n : nat) : jsstring :=
  js (NilEmpty.string_of_uint (Nat.to_uint n)).

(** The label of the unit in the log lines. *)
Definition lessonLabel (chapter : ChapterBreakdown) (subsection : Subsection)
    (subsectionIndex : nat) : jsstring :=
  let sectionLabel :=
    match truthy (number subsection) with
    | Some n => [167%N] ++ n
    | None => js "#" ++ decimal (subsectionIndex + 1)
    end in
  js "Ch " ++ to_string (chapterNumber chapter) ++ js " " ++ sectionLabel
    ++ js ": " ++ title subsection.

Definition INITIAL_BACKOFF_MS : Q := 5000.

(** [service i] is how call number [i] of [generateText] for this unit
    completes: with the text of the response, or abruptly.  The prompt and
    the log lines are built from strings alone and are left out.  The whole
    body is inside [try]; the [catch] block returns the fallback lesson. *)
Definition generateLesson (E : Engine) (MAX_RETRIES : Z)
    (service : nat -> completion jsstring) (random : nat -> Q)
    (chapter : ChapterBreakdown) (subsection : Subsection)
    (subsectionIndex totalSubsections : nat) : completion GeneratedLesson :=
  let label := lessonLabel chapter subsection subsectionIndex in
  try_catch
    (let* text := result (withRetry E service random MAX_RETRIES INITIAL_BACKOFF_MS label) in
     let* parsed := parseJsonResponse E (trim text) in
     buildLesson E chapter subsection parsed)
    (fun err => Normal (fallbackLesson E chapter subsection)).

(** ** The agent runtime ([AgentRuntime.runJson], agentRuntime.ts) *)

Inductive AgentMode : Type := live | mock.

(** Of the configuration, [runJson] itself reads the mode, the model name and
    the retry count; the other fields go to the service call and to logging.
    [loadRuntimeConfig] accepts only a finite retry count, and no caller sets
    the retry count of a request to anything else: a rational. *)
Record RuntimeConfig : Type := {
  mode : AgentMode;
  gatewayModel : jsstring;
  retryCount : Q
}.

Record JsonAgentRequest (T : Type) : Type := {
  stage : jsstring;
  agentName : jsstring;
  parse : json -> completion T;
  fallback : unit -> completion T;
  requestRetryCount : option Q
}.
Arguments stage {T} j.
Arguments agentName {T} j.
Arguments parse {T} j.
Arguments fallback {T} j.
Arguments requestRetryCount {T} j.

(** The trace without the fields read off the clock (traceId, startedAt,
    completedAt, durationMs). *)
Record AgentRunTrace : Type := {
  trace_stage : jsstring;
  trace_agentName : jsstring;
  trace_mode : AgentMode;
  trace_model : jsstring;
  attemptCount : Q;
  inputTokens : nat;
  outputTokens : nat;
  fallbackUsed : bool;
  errorMessage : option jsstring
}.

Record AgentRunResult (T : Type) : Type := {
  data : T;
  trace : AgentRunTrace;
  rawText : jsstring
}.
Arguments data {T} a.
Arguments trace {T} a.
Arguments rawText {T} a.

(** What [generateText] resolves to. *)
Record GenerateTextResult : Type := {
  text : jsstring;
  usageInputTokens : option nat;
  usageOutputTokens : option nat
}.

Definition formatError (value : thrown) : jsstring :=
  match value with
  | ErrorObj message => message
  | NonError => js "Unknown runtime error."
  end.

Definition Math_max_Q (a b : Q) : Q := if Qle_bool a b then b else a.

Section RunJson.
Context {T : Type}.
Variable E : Engine.
Variable config : RuntimeConfig.
Variable request : JsonAgentRequest T.
(** [service attempt] is how the call of [generateText] made in attempt
    number [attempt] (from 1) completes. *)
Variable service : nat -> completion GenerateTextResult.

Definition buildTrace (mode_ : AgentMode) (model : jsstring) (attemptCount_ : Q)
    (inputTokens_ outputTokens_ : nat) (fallbackUsed_ : bool)
    (errorMessage_ : option jsstring) : AgentRunTrace :=
  {| trace_stage := stage request; trace_agentName := agentName request;
     trace_mode := mode_; trace_model := model; attemptCount := attemptCount_;
     inputTokens := inputTokens_; outputTokens := outputTokens_;
     fallbackUsed := fallbackUsed_; errorMessage := errorMessage_ |}.

Definition maxAttempts : Q :=
  Math_max_Q 1 (match requestRetryCount request with
                | Some n => n
                | None => retryCount config
                end + 1)%Q.

(** The body of [try] in one attempt. *)
Definition attempt_once (attempt : nat) : completion (AgentRunResult T) :=
  let* result_ := service attempt in
  let rawText_ := trim (text result_) in
  let inputTokens_ := default 0 (usageInputTokens result_) in
  let outputTokens_ := default 0 (usageOutputTokens result_) in
  let* value := parseJsonFromModelText E rawText_ in
  let* parsed := parse request value in
  Normal {| data := parsed;
            trace := buildTrace live (gatewayModel config)
                       (inject_Z (Z.of_nat attempt)) inputTokens_ outputTokens_
                       false None;
            rawText := rawText_ |}.

(** After the loop: the fallback of the request, and a trace that says so. *)
Definition fall_back (lastError : thrown) : completion (AgentRunResult T) :=
  let* fallbackData := fallback request tt in
  Normal {| data := fallbackData;
            trace := buildTrace live (gatewayModel config) maxAttempts 0 0 true
                       (Some (formatError lastError));
            rawText := [] |}.

(** The [for] loop from [attempt] on; [remaining] counts the attempts up to
    [maxAttempts] that are left.  A failed attempt is followed by a delay,
    which changes nothing that is returned. *)
Fixpoint attempts_from (remaining attempt : nat) (lastError : thrown)
  : completion (AgentRunResult T) :=
  match remaining with
  | O => fall_back lastError
  | S remaining' =>
      match attempt_once attempt with
      | Normal r => Normal r
      | Throw error => attempts_from remaining' (S attempt) error
      end
  end.

Definition runJson : completion (AgentRunResult T) :=
  match mode config with
  | mock =>
      let* data_ := fallback request tt in
      Normal {| data := data_;
                trace := buildTrace mock (js "mock-runtime") 1 0 0 true None;
                rawText := [] |}
  | live => attempts_from (Z.to_nat (Qfloor maxAttempts)) 1 NonError
  end.
End RunJson.

(** ** Resume and merge ([main], generate-lessons.ts, lines 655-727) *)

(** [n || t]: the number unless it is null or empty, else the title. *)
Definition key_or (n : option jsstring) (t : jsstring) : jsstring :=
  match truthy n with
  | Some k => k
  | None => t
  end.

Definition lessonKey (l : GeneratedLesson) : jsstring :=
  key_or (sectionNumber l) (sectionTitle l).

Definition subsectionKey (sub : Subsection) : jsstring :=
  key_or (number sub) (title sub).

(** [lesson.instructionalText.startsWith("This section covers:")]: only a
    string has the method. *)
Definition isFallbackLesson (E : Engine) (lesson : GeneratedLesson)
  : completion bool :=
  match instructionalText lesson with
  | JString s => Normal (startsWith s (js "This section covers:"))
  | JNull => Throw (ErrorObj (builtinMessage E (PropertyOfNull (js "startsWith"))))
  | _ => Throw (ErrorObj (builtinMessage E (NotAFunction (js "startsWith"))))
  end.

Fixpoint filterM {A} (f : A -> completion bool) (l : list A) : completion (list A) :=
  match l with
  | [] => Normal []
  | a :: l' =>
      let* keep_a := f a in
      let* rest := filterM f l' in
      Normal (if keep_a then a :: rest else rest)
  end.

(** A chapter of the checkpoint, without [generatedAt] and [model]. *)
Record ChapterLessons : Type := {
  cl_chapterNumber : option jsstring;
  cl_chapterTitle : jsstring;
  cl_summary : jsstring;
  lessons : list GeneratedLesson
}.

Definition failedLessons (E : Engine) (existingChapter : ChapterLessons)
  : completion (list GeneratedLesson) :=
  filterM (isFallbackLesson E) (lessons existingChapter).

Definition failedSectionIds (failed : list GeneratedLesson) : gset jsstring :=
  list_to_set (List.map lessonKey failed).

Definition subsToRetry (chapter : ChapterBreakdown) (failed : list GeneratedLesson)
  : list Subsection :=
  List.filter (fun sub => bool_decide (subsectionKey sub ∈ failedSectionIds failed))
              (subsections chapter).

(** What [main] does with a chapter that has subsections. *)
Inductive resume_plan : Type :=
| Skip
| RetryOnly (subs : list Subsection)
| RunAll.

Definition classify (E : Engine) (chapter : ChapterBreakdown)
    (existingChapter : option ChapterLessons) : completion resume_plan :=
  match existingChapter with
  | None => Normal RunAll
  | Some existing =>
      let* failed := failedLessons E existing in
      if (List.length failed =? 0)%nat then Normal Skip
      else Normal (RetryOnly (subsToRetry chapter failed))
  end.

Definition retriedMap (retriedLessons : list GeneratedLesson)
  : gmap jsstring GeneratedLesson :=
  fold_left (fun m rl => <[lessonKey rl := rl]> m) retriedLessons ∅.

Definition mergedLessons (existingChapter : ChapterLessons)
    (retriedLessons : list GeneratedLesson) : list GeneratedLesson :=
  List.map (fun existing =>
              match retriedMap retriedLessons !! lessonKey existing with
              | Some rl => rl
              | None => existing
              end)
           (lessons existingChapter).

(** ** The lesson handler on a subsection as it is stored

    [Subsection] above is the declared type.  At run time a subsection is
    what [JSON.parse] made of course-structure.json (generate-lessons.ts,
    line 620), and extract-subsections.ts, which writes that file, keeps for
    [memorizeables] whatever array the model returned (line 351): no entry is
    checked.  The number, the title and the key concepts are only ever
    converted to text (template literals, [join]), which no JSON value makes
    throw; they stay at their declared types.  The entries of
    [memorizeables] are used as strings: the [catch] block of
    [generateLesson] calls [m.split] on each of them (lines 331-333). *)
Record StoredSubsection : Type := {
  ss_number : option jsstring;
  ss_title : jsstring;
  ss_keyConcepts : list jsstring;
  ss_memorizeables : list json
}.

(** A subsection of the declared type, as it is stored. *)
Definition stored (sub : Subsection) : StoredSubsection :=
  {| ss_number := number sub; ss_title := title sub;
     ss_keyConcepts := keyConcepts sub;
     ss_memorizeables := List.map JString (memorizeables sub) |}.

(** What the code that does not read the memorizeables sees of a stored
    subsection: [lessonLabel] and [buildLesson] read the number and the
    title only. *)
Definition declared_part (ss : StoredSubsection) : Subsection :=
  {| number := ss_number ss; title := ss_title ss;
     keyConcepts := ss_keyConcepts ss; memorizeables := [] |}.

(** The callback of [subsection.memorizeables.map] in the [catch] block:
    [m.split(": ")] is a method call on [m].  Only a string has the method;
    on null the property access throws, on any other value the call does. *)
Definition storedFallbackDrill (E : Engine) (m : json) : completion MemorizableDrill :=
  match m with
  | JString s => Normal (fallbackDrill E s)
  | JNull => Throw (ErrorObj (builtinMessage E (PropertyOfNull (js "split"))))
  | _ => Throw (ErrorObj (builtinMessage E (NotAFunction (js "split"))))
  end.

(** The object of the [catch] block (lines 321-342): its last property is
    the only one whose evaluation can throw. *)
Definition storedFallbackLesson (E : Engine) (chapter : ChapterBreakdown)
    (ss : StoredSubsection) : completion GeneratedLesson :=
  let* drills := mapM (storedFallbackDrill E) (ss_memorizeables ss) in
  Normal {| sectionNumber := ss_number ss;
            sectionTitle := ss_title ss;
            lessonChapterNumber := chapterNumber chapter;
            lessonChapterTitle := chapterTitle chapter;
            overview := JString (js "Section on " ++ ss_title ss ++ js ".");
            instructionalText :=
              JString (js "This section covers: "
                       ++ join (js "; ") (ss_keyConcepts ss) ++ js ".");
            workedExamples := [];
            keyTakeaways := List.map JString (firstn 3 (ss_keyConcepts ss));
            practiceQuestions := [];
            memorizeableDrills := drills |}.

(** [generateLesson] on a stored subsection: the body of [try] is that of
    [generateLesson] above; the [catch] block is not inside any [try], and
    what it throws is thrown to the caller. *)
Definition generateLesson_stored (E : Engine) (MAX_RETRIES : Z)
    (service : nat -> completion jsstring) (random : nat -> Q)
    (chapter : ChapterBreakdown) (ss : StoredSubsection)
    (subsectionIndex totalSubsections : nat) : completion GeneratedLesson :=
  let subsection := declared_part ss in
  let label := lessonLabel chapter subsection subsectionIndex in
  try_catch
    (let* text := result (withRetry E service random MAX_RETRIES INITIAL_BACKOFF_MS label) in
     let* parsed := parseJsonResponse E (trim text) in
     buildLesson E chapter subsection parsed)
    (fun err => storedFallbackLesson E chapter ss).

(** ** The checkpoint as it is loaded ([loadExistingLessons],
    generate-lessons.ts, lines 552-570)

    [data] is the list of the chapters of lessons.json, or [None] when the
    file is absent or cannot be parsed.  A chapter is kept under its key
    only when it has a lesson; of two chapters with one key the later one
    stays. *)
Definition storedChapterKey (ch : ChapterLessons) : jsstring :=
  key_or (cl_chapterNumber ch) (cl_chapterTitle ch).

Definition loadExistingLessons (data : option (list ChapterLessons))
  : gmap jsstring ChapterLessons :=
  match data with
  | None => ∅
  | Some chapters =>
      fold_left (fun existing ch =>
                   if (0 <? List.length (lessons ch))%nat
                   then <[storedChapterKey ch := ch]> existing
                   else existing)
                chapters ∅
  end.

(** [chapter.chapterNumber || chapter.chapterTitle] *)
Definition chapterKey (chapter : ChapterBreakdown) : jsstring :=
  key_or (chapterNumber chapter) (chapterTitle chapter).

(** What [main] does with a chapter that has subsections, given the
    checkpoint: [existingLessons.get(key)] decides. *)
Definition planFor (E : Engine) (data : option (list ChapterLessons))
    (chapter : ChapterBreakdown) : completion resume_plan :=
  classify E chapter (loadExistingLessons data !! chapterKey chapter).

(** ** The runtime configuration ([loadRuntimeConfig], config/runtimeConfig.ts)

    [process.env] is a finite map from names to strings.  [Number(raw)],
    the conversion of a string to a number, is a built-in that the sources
    only call: it is a parameter, [toNumber]. *)

Definition Env := gmap jsstring jsstring.

(** [process.env[name]?.trim()] *)
Definition env_trim (env : Env) (name : jsstring) : option jsstring :=
  option_map trim (env !! name).

Definition readString (env : Env) (name fallback : jsstring) : jsstring :=
  match truthy (env_trim env name) with
  | Some value => value
  | None => fallback
  end.

(** A bound in the message of an error: every bound in the sources is an
    integer that is not negative. *)
Definition decimalZ (z : Z) : jsstring := decimal (Z.to_nat z).

Definition readNumber (toNumber : jsstring -> jsnumber) (env : Env)
    (name : jsstring) (fallback : jsnumber) (min : Z) : completion jsnumber :=
  match truthy (env_trim env name) with
  | None => Normal fallback
  | Some raw =>
      let parsed := toNumber raw in
      if negb (Number_isFinite parsed) || num_lt parsed (Num (inject_Z min)) then
        Throw (ErrorObj (name ++ js " must be a number greater than or equal to "
                         ++ decimalZ min ++ js ". Received: " ++ raw))
      else Normal parsed
  end.

Definition readBoolean (E : Engine) (env : Env) (name : jsstring) (fallback : bool)
  : completion bool :=
  match truthy (option_map (toLowerCase E) (env_trim env name)) with
  | None => Normal fallback
  | Some raw =>
      if existsb (string_eqb raw) [js "1"; js "true"; js "yes"; js "on"] then
        Normal true
      else if existsb (string_eqb raw) [js "0"; js "false"; js "no"; js "off"] then
        Normal false
      else
        Throw (ErrorObj (name ++ js " must be a boolean (true/false). Received: " ++ raw))
  end.

Definition resolveMode (E : Engine) (env : Env) (apiKey : option jsstring)
  : AgentMode :=
  let raw := toLowerCase E (readString env (js "MENTAT_AGENT_MODE") (js "auto")) in
  if string_eqb raw (js "live") then live
  else if string_eqb raw (js "mock") then mock
  else match truthy apiKey with
       | Some _ => live
       | None => mock
       end.

Definition DEFAULT_MODEL : jsstring := js "anthropic/claude-sonnet-4".

(** The whole configuration; [RuntimeConfig] above is the part of it that
    [runJson] reads. *)
Record LoadedConfig : Type := {
  cfg_mode : AgentMode;
  cfg_gatewayApiKey : option jsstring;
  cfg_gatewayModel : jsstring;
  cfg_maxOutputTokens : jsnumber;
  cfg_temperature : jsnumber;
  cfg_retryCount : jsnumber;
  cfg_requestTimeoutMs : jsnumber;
  cfg_lessonAgentConcurrency : jsnumber;
  cfg_verboseAgentLogs : bool
}.

Definition API_KEY_REQUIRED : jsstring :=
  js "AI_GATEWAY_API_KEY is required for live agent mode. Set MENTAT_AGENT_MODE=mock to run without API calls.".

Definition loadRuntimeConfig (E : Engine) (toNumber : jsstring -> jsnumber)
    (env : Env) : completion LoadedConfig :=
  let gatewayApiKey := env_trim env (js "AI_GATEWAY_API_KEY") in
  let mode_ := resolveMode E env gatewayApiKey in
  if match mode_ with live => is_empty (default [] gatewayApiKey) | mock => false end
  then Throw (ErrorObj API_KEY_REQUIRED)
  else
    let gatewayModel_ := readString env (js "AI_GATEWAY_MODEL") DEFAULT_MODEL in
    let* maxOutputTokens_ :=
      readNumber toNumber env (js "MENTAT_MAX_OUTPUT_TOKENS") (Num 4096) 256 in
    let* temperature_ :=
      readNumber toNumber env (js "MENTAT_TEMPERATURE") (Num (2 # 10)) 0 in
    let* retryCount_ :=
      readNumber toNumber env (js "MENTAT_RETRY_COUNT") (Num 2) 0 in
    let* requestTimeoutMs_ :=
      readNumber toNumber env (js "MENTAT_REQUEST_TIMEOUT_MS") (Num 90000) 1000 in
    let* lessonAgentConcurrency_ :=
      readNumber toNumber env (js "MENTAT_LESSON_CONCURRENCY") (Num 4) 1 in
    let* verboseAgentLogs_ :=
      readBoolean E env (js "MENTAT_VERBOSE_AGENT_LOGS") true in
    Normal {| cfg_mode := mode_;
              cfg_gatewayApiKey := gatewayApiKey;
              cfg_gatewayModel := gatewayModel_;
              cfg_maxOutputTokens := maxOutputTokens_;
              cfg_temperature := temperature_;
              cfg_retryCount := retryCount_;
              cfg_requestTimeoutMs := requestTimeoutMs_;
              cfg_lessonAgentConcurrency := lessonAgentConcurrency_;
              cfg_verboseAgentLogs := verboseAgentLogs_ |}.

(** ** Reading a parsed value ([asObject], [asString], [asStringArray],
    [asObjectArray], utils/json.ts)

    The argument has type [unknown]: a value that [JSON.parse] returned, a
    property of one, or undefined when the property is absent ([None]). *)

Definition asObject (value : option json) : completion (list (jsstring * json)) :=
  match value with
  | Some (JObject members) => Normal members
  | _ => Throw (ErrorObj (js "Expected a JSON object."))
  end.

Definition asString (value : option json) (fallback : jsstring) : jsstring :=
  match value with
  | Some (JString s) => trim s
  | _ => fallback
  end.

Definition asStringArray (value : option json) : list jsstring :=
  match value with
  | Some (JArray items) =>
      List.filter (fun item => negb (is_empty item))
        (List.map (fun item => match item with
                               | JString s => trim s
                               | _ => []
                               end) items)
  | _ => []
  end.

Definition asObjectArray (value : option json) : list json :=
  match value with
  | Some (JArray items) =>
      List.filter (fun item => match item with
                               | JObject _ => true
                               | _ => false
                               end) items
  | _ => []
  end.

(** ** Text utilities ([chunkArray], [slugify], [createId], utils/text.ts) *)

(** The [for] loop of [chunkArray] on the items from [index] on; every
    round takes [size >= 1] of them, so [fuel] rounds are enough when [fuel]
    is their number. *)
Fixpoint chunks_from {A} (fuel size : nat) (rest : list A) : list (list A) :=
  match fuel with
  | O => []
  | S fuel' =>
      match rest with
      | [] => []
      | _ :: _ => firstn size rest :: chunks_from fuel' size (skipn size rest)
      end
  end.

(** [size] is an integer, as it is at every call (3 and 8). *)
Definition chunkArray {A} (items : list A) (size : Z) : completion (list (list A)) :=
  if (size <=? 0)%Z then Throw (ErrorObj (js "Chunk size must be positive."))
  else Normal (chunks_from (List.length items) (Z.to_nat size) items).

Definition HYPHEN : char := 45%N.

Definition is_hyphen (c : char) : bool := char_eqb c HYPHEN.

(** The class [a-z0-9]. *)
Definition is_slug_char (c : char) : bool :=
  ((97 <=? c) && (c <=? 122))%N || ((48 <=? c) && (c <=? 57))%N.

(** [s.replace(/[^a-z0-9]+/g, "-")]: every longest run of other characters
    becomes one hyphen; [in_run] says that such a run is being read. *)
Fixpoint replace_runs (in_run : bool) (s : jsstring) : jsstring :=
  match s with
  | [] => []
  | c :: r =>
      if is_slug_char c then c :: replace_runs false r
      else if in_run then replace_runs true r
      else HYPHEN :: replace_runs true r
  end.

(** [s.replace(/^-+|-+$/g, "")]: the hyphens at the start and those at the
    end are removed. *)
Definition strip_hyphens (s : jsstring) : jsstring :=
  rev (drop_while is_hyphen (rev (drop_while is_hyphen s))).

(** [s.replace(/--+/g, "-")]: a run of two or more hyphens becomes one. *)
Fixpoint collapse_hyphens (s : jsstring) : jsstring :=
  match s with
  | a :: r =>
      match r with
      | b :: _ =>
          if is_hyphen a && is_hyphen b then collapse_hyphens r
          else a :: collapse_hyphens r
      | [] => [a]
      end
  | [] => []
  end.

Definition slugify (E : Engine) (value : jsstring) : jsstring :=
  collapse_hyphens (strip_hyphens (replace_runs false (toLowerCase E value))).

Definition createId (E : Engine) (prefix seed : jsstring) : jsstring :=
  let slug := slugify E seed in
  prefix ++ js "-" ++ (if is_empty slug then js "item" else slug).

(** ** Notions used in the statements and proofs *)

(** A reader [q] follows a reader [p] through the sanitizer when, wherever [p]
    reads a value off a text, [q] reads the same value off the sanitized
    text, leaving the sanitized rest. *)
Definition follows {A} (p q : reader A) : Prop :=
  forall s x r, p s = Some (x, r) ->
    q (sanitizeJsonBackslashes s) = Some (x, sanitizeJsonBackslashes r).

Definition keep {A} (x : A * jsstring) : A * jsstring :=
  (fst x, sanitizeJsonBackslashes (snd x)).

(** Inclusion of readers. *)
Definition within {A} (p q : reader A) : Prop :=
  forall s x, p s = Some x -> q s = Some x.

(** Unit [i] is done when its slot holds the handler's result for it; it is
    held when some worker is suspended on it. *)
Definition slot_done {T R} (items : list T) (mapper : T -> nat -> R)
    (res : list (option R)) (i : nat) : Prop :=
  exists x, items !! i = Some x /\ res !! i = Some (Some (mapper x i)).

Definition holds (st : worker) (i : nat) : Prop :=
  st = Sleeping i \/ st = Awaiting i.

Definition slot_held (ws : list worker) (i : nat) : Prop :=
  exists w st, ws !! w = Some st /\ holds st i.

(** The invariant of the pool: every claimed unit is done or held, only
    claimed units are held, and a worker has returned only once every unit
    was claimed. *)
Record pool_invariant {T R} (items : list T) (mapper : T -> nat -> R)
    (p : pool R) : Prop := {
  inv_cursor : cursor p <= List.length items;
  inv_results : List.length (results p) = List.length items;
  inv_units : forall i, i < cursor p ->
              slot_done items mapper (results p) i \/ slot_held (workers p) i;
  inv_held : forall w st i, workers p !! w = Some st -> holds st i -> i < cursor p;
  inv_returned : forall w, workers p !! w = Some Returned ->
                           cursor p = List.length items
}.

(** The turns of the event loop still to come: two for a unit not yet
    claimed or slept on, one for a unit awaited. *)
Definition weight (st : worker) : nat :=
  match st with Sleeping _ => 2 | Awaiting _ => 1 | Returned => 0 end.

Definition turns_left {T R} (items : list T) (p : pool R) : nat :=
  2 * (List.length items - cursor p) + list_sum (List.map weight (workers p)).

(** The events of [k] failed rounds of [withRetry] from round [from] on: an
    invocation and a sleep each. *)
Definition failed_rounds (random : nat -> Q) (baseMs : Q) (from k : nat)
  : list retry_event :=
  flat_map (fun a => [Invoke; Sleep (backoff random baseMs a)]) (seq from k).

(** A result of [runJson] is primary when some attempt produced it, and a
    fallback when it is the value of the request's fallback. *)
Definition primary {T} (E : Engine) (request : JsonAgentRequest T)
    (service : nat -> completion GenerateTextResult) (r : AgentRunResult T) : Prop :=
  fallbackUsed (trace r) = false
  /\ exists attempt gen value,
       service attempt = Normal gen
       /\ parseJsonFromModelText E (trim (text gen)) = Normal value
       /\ parse request value = Normal (data r).


(** A reader never returns more text than it was given. *)
Definition nonexpanding {A} (p : reader A) : Prop :=
  forall s x r, p s = Some (x, r) -> List.length r <= List.length s.

(** Inclusion of readers on the texts of length at most [n]. *)
Definition within_upto {A} (n : nat) (p q : reader A) : Prop :=
  forall s x, List.length s <= n -> p s = Some x -> q s = Some x.

(** ** Further notions used in the statements *)


(** A stored lesson is flagged when [isFallbackLesson] returns true on it. *)
Definition flagged (E : Engine) (l : GeneratedLesson) : bool :=
  match isFallbackLesson E l with
  | Normal b => b
  | Throw _ => false
  end.





(** The units on which a worker of the pool is in its pacing sleep, and the
    number of units whose handler is running. *)
Definition sleeping_of (st : worker) : list nat :=
  match st with
  | Sleeping i => [i]
  | _ => []
  end.

Definition sleeping (ws : list worker) : list nat := flat_map sleeping_of ws.

(** Every unit claimed so far has had its handler invoked once, or a worker
    sleeps before invoking it. *)
Definition calls_invariant {R} (p : pool R) : Prop :=
  Permutation (invoked p ++ sleeping (workers p)) (seq 0 (cursor p)).

(** Without the pacing sleep the handlers are invoked in the order of the
    indices. *)
Definition ordered_calls {R} (p : pool R) : Prop :=
  invoked p = seq 0 (cursor p) /\ sleeping (workers p) = [].

(** A text is well escaped when every backslash in it is followed by a
    character of [validEscapes], the two forming a pair, or is its last
    character.  [pending] says that the previous character was a backslash
    that opens a pair. *)
Fixpoint well_escaped_from (pending : bool) (s : jsstring) : bool :=
  match s with
  | [] => true
  | c :: r =>
      if pending then validEscapes_has c && well_escaped_from false r
      else well_escaped_from (char_eqb c BACKSLASH) r
  end.

Definition well_escaped (s : jsstring) : bool := well_escaped_from false s.

Definition is_plain (c : char) : bool := negb (char_eqb c BACKSLASH).

(** The text that [repairTruncatedJson] keeps after its steps 1 and 2,
    before it appends the closers. *)
Definition kept_text (raw : jsstring) : jsstring :=
  strip_trailing_comma (trim_to_last_quote 20 raw).

(** [c] is a contiguous piece of [s]. *)
Definition piece_of (c s : jsstring) : Prop :=
  exists before after, s = before ++ c ++ after.

(** No two hyphens in a row. *)
Fixpoint no_double (s : jsstring) : bool :=
  match s with
  | a :: r =>
      match r with
      | b :: _ => negb (is_hyphen a && is_hyphen b) && no_double r
      | [] => true
      end
  | [] => true
  end.

(** A reader is neutral when the text it consumes is well escaped as far as
    it goes: what it leaves is well escaped exactly when the whole is. *)
Definition neutral {A} (p : reader A) : Prop :=
  forall s x r, p s = Some (x, r) -> well_escaped s = well_escaped r.

(** ** Data for running the definitions on examples *)

Definition exampleSubsection (n t : string) : Subsection :=
  {| number := Some (js n); title := js t;
     keyConcepts := [js "stress"; js "strain"];
     memorizeables := [js "Formula: sigma = F / A"] |}.

Definition exampleChapter : ChapterBreakdown :=
  {| chapterNumber := Some (js "3"); chapterTitle := js "Load and Stress";
     summary := js "Stress analysis.";
     subsections := [exampleSubsection "3-1" "Equilibrium";
                     exampleSubsection "3-2" "Shear Force";
                     exampleSubsection "3-3" "Singularity Functions"] |}.

(** A service that is rate limited on every call, and one that answers. *)
Definition rateLimited {A} (i : nat) : completion A :=
  Throw (ErrorObj (js "HTTP 429: Too Many Requests")).

Definition answering (i : nat) : completion jsstring :=
  Normal (jsq "{'overview':'Why it matters','instructionalText':'Use \sigma = F/A'}").

Definition exampleConfig : RuntimeConfig :=
  {| mode := live; gatewayModel := js "model"; retryCount := 2 |}.

Definition exampleRequest : JsonAgentRequest nat :=
  {| stage := js "lesson_generation"; agentName := js "lesson-agent";
     parse := fun _ => Normal 1; fallback := fun _ => Normal 0;
     requestRetryCount := None |}.

(** Fails twice with a rate-limit error, then succeeds. *)
Definition flaky (i : nat) : completion nat :=
  if (i <? 2)%nat then Throw (ErrorObj (js "HTTP 429: Too Many Requests"))
  else Normal 7.

(** A lesson as stored in the checkpoint. *)
Definition storedLesson (n t body : string) : GeneratedLesson :=
  {| sectionNumber := Some (js n); sectionTitle := js t;
     lessonChapterNumber := Some (js "3"); lessonChapterTitle := js "Load and Stress";
     overview := JString (js "Overview"); instructionalText := JString (js body);
     workedExamples := []; keyTakeaways := [];
     practiceQuestions := []; memorizeableDrills := [] |}.

Definition exampleExisting : ChapterLessons :=
  {| cl_chapterNumber := Some (js "3"); cl_chapterTitle := js "Load and Stress";
     cl_summary := js "Stress analysis.";
     lessons := [storedLesson "3-1" "Equilibrium" "Forces balance.";
                 storedLesson "3-2" "Shear Force" "This section covers: stress; strain.";
                 storedLesson "3-3" "Singularity Functions" "Macaulay brackets."] |}.

(** The lesson that a new run generates for subsection 3-2. *)
Definition regenerated : GeneratedLesson :=
  match generateLesson exampleEngine 6 answering (fun _ => 0%Q) exampleChapter
          (exampleSubsection "3-2" "Shear Force") 0 1 with
  | Normal l => l
  | Throw _ => fallbackLesson exampleEngine exampleChapter
                 (exampleSubsection "3-2" "Shear Force")
  end.

(** A service whose first two calls fail and whose third call answers. *)
Definition recovering (i : nat) : completion GenerateTextResult :=
  if (i <? 3)%nat then Throw NonError
  else Normal {| text := jsq "{'a':1}"; usageInputTokens := None;
                 usageOutputTokens := Some 5 |}.

(** A conversion for the examples: the decimal digits of a natural number,
    anything else is NaN. *)
Definition exampleNumber (s : jsstring) : jsnumber :=
  if negb (is_empty s) && forallb is_digit s
  then Num (inject_Z (digits_value s)) else NaN.

Definition exampleEnv : Env :=
  <[js "MENTAT_LESSON_CONCURRENCY" := js " 8 "]>
    (<[js "MENTAT_RETRY_COUNT" := js "3"]>
       (<[js "MENTAT_AGENT_MODE" := js "Mock"]> ∅)).

(** * Properties *)

(** *** Unfolding equations *)

Lemma sanitize_plain c rest :
  char_eqb c BACKSLASH = false ->
  sanitizeJsonBackslashes (c :: rest) = c :: sanitizeJsonBackslashes rest.
Proof. intros H. simpl. now rewrite H. Qed.

Lemma sanitize_valid next rest :
  validEscapes_has next = true ->
  sanitizeJsonBackslashes (BACKSLASH :: next :: rest)
  = BACKSLASH :: next :: sanitizeJsonBackslashes rest.
Proof.
  intros H.
  change (sanitizeJsonBackslashes (BACKSLASH :: next :: rest))
    with (if validEscapes_has next
          then BACKSLASH :: next :: sanitizeJsonBackslashes rest
          else BACKSLASH :: BACKSLASH :: sanitizeJsonBackslashes (next :: rest)).
  now rewrite H.
Qed.

Lemma sanitize_invalid next rest :
  validEscapes_has next = false ->
  sanitizeJsonBackslashes (BACKSLASH :: next :: rest)
  = BACKSLASH :: BACKSLASH :: sanitizeJsonBackslashes (next :: rest).
Proof.
  intros H.
  change (sanitizeJsonBackslashes (BACKSLASH :: next :: rest))
    with (if validEscapes_has next
          then BACKSLASH :: next :: sanitizeJsonBackslashes rest
          else BACKSLASH :: BACKSLASH :: sanitizeJsonBackslashes (next :: rest)).
  now rewrite H.
Qed.

Lemma invalid_not_backslash c :
  validEscapes_has c = false -> char_eqb c BACKSLASH = false.
Proof.
  unfold validEscapes_has, validEscapes. cbn [existsb]. intros H.
  apply orb_false_iff in H as [_ H]. apply orb_false_iff in H as [H _]. exact H.
Qed.

Lemma char_eqb_eq a b : char_eqb a b = true <-> a = b.
Proof. apply N.eqb_eq. Qed.

(** Idempotence, by induction on the length of the input. *)
Lemma sanitize_idem_len n : forall s,
  (List.length s <= n)%nat ->
  sanitizeJsonBackslashes (sanitizeJsonBackslashes s) = sanitizeJsonBackslashes s.
Proof.
  induction n as [|n IH]; intros s Hlen.
  - destruct s; [reflexivity | simpl in Hlen; lia].
  - destruct s as [|c rest]; [reflexivity|].
    simpl in Hlen.
    destruct (char_eqb c BACKSLASH) eqn:Hc.
    + apply char_eqb_eq in Hc. subst c.
      destruct rest as [|next rest']; [reflexivity|].
      destruct (validEscapes_has next) eqn:Hv.
      * rewrite (sanitize_valid _ _ Hv). rewrite (sanitize_valid _ _ Hv).
        f_equal. f_equal. apply IH. simpl in Hlen. lia.
      * rewrite (sanitize_invalid _ _ Hv).
        rewrite sanitize_valid by reflexivity.
        f_equal. f_equal. apply IH. lia.
    + rewrite (sanitize_plain _ _ Hc). rewrite (sanitize_plain _ _ Hc).
      f_equal. apply IH. lia.
Qed.

(** C10. Escape sanitization is idempotent: sanitizing an already sanitized
    text changes nothing. *)
Theorem sanitizeJsonBackslashes_idempotent (s : jsstring) :
  sanitizeJsonBackslashes (sanitizeJsonBackslashes s) = sanitizeJsonBackslashes s.
Proof. apply (sanitize_idem_len (List.length s)). lia. Qed.

Example JSON_parse_ex1 :
  JSON_parse (jsq "{'a': [1, -2.5e3, true, null], 'b\n': 'Ax'} ")
  = Some (JObject [(js "a", JArray [JNumber (js "1"); JNumber (js "-2.5e3"); JBool true; JNull]);
                   (js "b" ++ [10%N], JString (js "Ax"))]).
Proof. vm_compute. reflexivity. Qed.

Example JSON_parse_ex2 : JSON_parse (jsq "{'a':'\sigma'}") = None.
Proof. vm_compute. reflexivity. Qed.

Example JSON_parse_ex3 :
  JSON_parse (sanitizeJsonBackslashes (jsq "{'a':'\sigma'}"))
  = Some (JObject [(js "a", JString (js "\sigma"))]).
Proof. vm_compute. reflexivity. Qed.

Example JSON_parse_ex4 : JSON_parse (jsq "[1,]") = None /\ JSON_parse (jsq "01") = None
   /\ JSON_parse (jsq "[]") = Some (JArray []) /\ JSON_parse (jsq " {} ") = Some (JObject [])
   /\ JSON_parse (jsq "1.") = None /\ JSON_parse (jsq "") = None /\ JSON_parse (jsq "{'a':1,}") = None
   /\ JSON_parse (jsq "[[[[1]]],{'x':{'y':[{}]}}]") <> None.
Proof. vm_compute. repeat split; discriminate. Qed.

(** ** The sanitizer and the JSON grammar *)

(** Facts about single characters: a character equal to a known one is
    replaced by it, and the fact is computed. *)
Lemma eqb_not_backslash c k :
  char_eqb c k = true -> char_eqb k BACKSLASH = false ->
  char_eqb c BACKSLASH = false.
Proof. intros H Hk. apply char_eqb_eq in H. now subst. Qed.

Ltac not_backslash :=
  match goal with
  | H : char_eqb ?c _ = true |- char_eqb ?c BACKSLASH = false =>
      exact (eqb_not_backslash _ _ H eq_refl)
  | H : (char_eqb ?c _ || char_eqb ?c _)%bool = true |- char_eqb ?c BACKSLASH = false =>
      apply orb_true_iff in H as [H|H]; exact (eqb_not_backslash _ _ H eq_refl)
  end.

(** [refute_backslash H]: the character is a backslash, which [H] excludes. *)
Ltac refute_backslash H :=
  match goal with
  | |- char_eqb ?c BACKSLASH = false =>
      let Hb := fresh "Hb" in
      destruct (char_eqb c BACKSLASH) eqn:Hb; [|reflexivity];
      apply char_eqb_eq in Hb; subst c; vm_compute in H; discriminate H
  end.

Lemma sanitize_head c r :
  exists t, sanitizeJsonBackslashes (c :: r) = c :: t.
Proof.
  simpl. destruct (char_eqb c BACKSLASH) eqn:Hc; [|eauto].
  apply char_eqb_eq in Hc; subst.
  destruct r as [|n r']; [eauto|]. destruct (validEscapes_has n); eauto.
Qed.

Lemma sanitize_length s :
  (List.length s <= List.length (sanitizeJsonBackslashes s))%nat.
Proof.
  remember (List.length s) as n eqn:Hn.
  revert s Hn. induction n as [n IH] using lt_wf_ind. intros s ->.
  destruct s as [|c r]; [simpl; lia|].
  destruct (char_eqb c BACKSLASH) eqn:Hc.
  - apply char_eqb_eq in Hc; subst. destruct r as [|e r']; [simpl; lia|].
    destruct (validEscapes_has e) eqn:He.
    + rewrite sanitize_valid by exact He. simpl.
      specialize (IH (List.length r') ltac:(simpl; lia) r' eq_refl). lia.
    + rewrite sanitize_invalid by exact He. simpl.
      specialize (IH (List.length (e :: r')) ltac:(simpl; lia) (e :: r') eq_refl).
      simpl in IH. lia.
  - rewrite sanitize_plain by exact Hc. simpl.
    specialize (IH (List.length r) ltac:(simpl; lia) r eq_refl). lia.
Qed.

Lemma ws_not_backslash c : is_json_ws c = true -> char_eqb c BACKSLASH = false.
Proof. intros H. refute_backslash H. Qed.

Lemma digit_not_backslash c : is_digit c = true -> char_eqb c BACKSLASH = false.
Proof. intros H. refute_backslash H. Qed.

Lemma hex_not_backslash c x : hex_value c = Some x -> char_eqb c BACKSLASH = false.
Proof. intros H. refute_backslash H. Qed.

Lemma simple_escape_valid e x : simple_escape e = Some x -> validEscapes_has e = true.
Proof.
  unfold simple_escape, validEscapes_has, validEscapes. cbn [existsb].
  repeat match goal with
         | |- context [if char_eqb e ?k then _ else _] =>
             destruct (char_eqb e k) eqn:?; [intros _; now rewrite ?orb_true_r|]
         end.
  discriminate.
Qed.

Lemma no_escape_invalid e :
  simple_escape e = None -> char_eqb e 117%N = false -> validEscapes_has e = false.
Proof.
  unfold simple_escape, validEscapes_has, validEscapes. cbn [existsb].
  repeat match goal with
         | |- context [if char_eqb e ?k then _ else _] =>
             destruct (char_eqb e k) eqn:?; [discriminate|]
         end.
  intros _ ->. reflexivity.
Qed.

Lemma no_escape_not_quote e : simple_escape e = None -> char_eqb e QUOTE = false.
Proof.
  unfold simple_escape. destruct (char_eqb e QUOTE); [discriminate | reflexivity].
Qed.

Lemma skip_ws_cons c r :
  skip_ws (c :: r) = if is_json_ws c then skip_ws r else c :: r.
Proof. reflexivity. Qed.

Lemma skip_ws_sanitize s :
  skip_ws (sanitizeJsonBackslashes s) = sanitizeJsonBackslashes (skip_ws s).
Proof.
  induction s as [|c r IH]; [reflexivity|].
  rewrite skip_ws_cons. destruct (is_json_ws c) eqn:Hw.
  - rewrite sanitize_plain by (now apply ws_not_backslash).
    rewrite skip_ws_cons, Hw. exact IH.
  - destruct (sanitize_head c r) as [t Ht]. rewrite Ht, skip_ws_cons, Hw.
    reflexivity.
Qed.

Lemma prepend_Some {A B} (pre l : list A) (rest : B) r :
  r = Some (l, rest) -> prepend pre r = Some (pre ++ l, rest).
Proof. intros ->. reflexivity. Qed.

Lemma prepend_inv {A B} (pre : list A) (r : option (list A * B)) x rest :
  prepend pre r = Some (x, rest) -> exists l, r = Some (l, rest) /\ x = pre ++ l.
Proof.
  destruct r as [[l rest']|]; simpl; [|discriminate].
  intros H. injection H as <- <-. eauto.
Qed.

Lemma string_body_follows_len n : forall s str rest,
  (List.length s <= n)%nat ->
  parse_string_body true s = Some (str, rest) ->
  parse_string_body false (sanitizeJsonBackslashes s)
  = Some (str, sanitizeJsonBackslashes rest).
Proof.
  induction n as [|n IH]; intros s str rest Hlen H.
  { destruct s; [discriminate | simpl in Hlen; lia]. }
  destruct s as [|c r]; [discriminate|]. simpl in Hlen.
  cbn [parse_string_body] in H.
  destruct (char_eqb c QUOTE) eqn:Hq.
  { injection H as <- <-.
    rewrite sanitize_plain by not_backslash.
    cbn [parse_string_body]. now rewrite Hq. }
  destruct (char_eqb c BACKSLASH) eqn:Hb.
  - apply char_eqb_eq in Hb; subst c.
    destruct r as [|e r']; [discriminate|]. simpl in Hlen.
    destruct (simple_escape e) as [x|] eqn:He.
    { apply prepend_inv in H as (l & H & ->).
      rewrite sanitize_valid by (eapply simple_escape_valid; eauto).
      cbn [parse_string_body]. change (char_eqb BACKSLASH QUOTE) with false.
      change (char_eqb BACKSLASH BACKSLASH) with true. cbn iota.
      rewrite He. apply prepend_Some. apply IH; [lia | exact H]. }
    destruct (char_eqb e 117%N) eqn:Hu.
    { destruct r' as [|h1 [|h2 [|h3 [|h4 r'']]]]; try discriminate.
      destruct (hex4 h1 h2 h3 h4) as [u|] eqn:Hh; [|discriminate].
      apply prepend_inv in H as (l & H & ->).
      apply char_eqb_eq in Hu; subst e.
      rewrite sanitize_valid by reflexivity.
      pose proof Hh as Hh'. unfold hex4 in Hh'.
      destruct (hex_value h1) eqn:H1; [|discriminate].
      destruct (hex_value h2) eqn:H2; [|discriminate].
      destruct (hex_value h3) eqn:H3; [|discriminate].
      destruct (hex_value h4) eqn:H4; [|discriminate].
      rewrite !sanitize_plain by (eapply hex_not_backslash; eauto).
      cbn [parse_string_body]. change (char_eqb BACKSLASH QUOTE) with false.
      change (char_eqb BACKSLASH BACKSLASH) with true. cbn iota.
      rewrite He. change (char_eqb 117%N 117%N) with true. cbn iota.
      rewrite Hh.
      apply prepend_Some. apply IH; [simpl in Hlen; lia | exact H]. }
    destruct (e <? 32)%N eqn:Hctl; [discriminate|]. cbn [andb negb] in H.
    apply prepend_inv in H as (l & H & ->).
    pose proof (no_escape_invalid _ He Hu) as Hinv.
    rewrite sanitize_invalid by exact Hinv.
    rewrite sanitize_plain by (now apply invalid_not_backslash).
    cbn [parse_string_body]. change (char_eqb BACKSLASH QUOTE) with false.
    change (char_eqb BACKSLASH BACKSLASH) with true. cbn iota.
    change (simple_escape BACKSLASH) with (Some BACKSLASH). cbn iota.
    rewrite (no_escape_not_quote _ He).
    rewrite (invalid_not_backslash _ Hinv), Hctl.
    rewrite (IH r' l rest ltac:(lia) H). reflexivity.
  - destruct (c <? 32)%N eqn:Hctl; [discriminate|].
    apply prepend_inv in H as (l & H & ->).
    rewrite sanitize_plain by exact Hb.
    cbn [parse_string_body]. rewrite Hq, Hb, Hctl.
    apply prepend_Some. apply IH; [lia | exact H].
Qed.

Lemma string_body_follows :
  follows (parse_string_body true) (parse_string_body false).
Proof.
  intros s str rest H. eapply string_body_follows_len; [reflexivity | exact H].
Qed.

(** The lexers of numbers and literals never look at a backslash. *)
Lemma span_digits_sanitize s :
  span_digits (sanitizeJsonBackslashes s) = keep (span_digits s).
Proof.
  induction s as [|c r IH]; [reflexivity|].
  cbn [span_digits]. destruct (is_digit c) eqn:Hd.
  - rewrite sanitize_plain by (now apply digit_not_backslash).
    cbn [span_digits]. rewrite Hd, IH. now destruct (span_digits r).
  - destruct (sanitize_head c r) as [t Ht]. rewrite Ht.
    cbn [span_digits]. rewrite Hd, <- Ht. reflexivity.
Qed.

Lemma lex_int_sanitize s :
  lex_int (sanitizeJsonBackslashes s) = option_map keep (lex_int s).
Proof.
  destruct s as [|c r]; [reflexivity|].
  destruct (char_eqb c BACKSLASH) eqn:Hb.
  - apply char_eqb_eq in Hb; subst. destruct (sanitize_head BACKSLASH r) as [t ->].
    reflexivity.
  - rewrite sanitize_plain by exact Hb. unfold lex_int.
    destruct (char_eqb c 48%N); [reflexivity|].
    destruct (is_digit c); [|reflexivity].
    rewrite span_digits_sanitize. now destruct (span_digits r).
Qed.

Lemma lex_frac_sanitize s :
  lex_frac (sanitizeJsonBackslashes s) = option_map keep (lex_frac s).
Proof.
  destruct s as [|c r]; [reflexivity|].
  destruct (char_eqb c BACKSLASH) eqn:Hb.
  - apply char_eqb_eq in Hb; subst. destruct (sanitize_head BACKSLASH r) as [t Ht].
    unfold lex_frac. rewrite Ht. change (char_eqb BACKSLASH 46%N) with false.
    cbn iota. unfold keep. cbn [option_map fst snd]. now rewrite Ht.
  - rewrite sanitize_plain by exact Hb. unfold lex_frac.
    destruct (char_eqb c 46%N).
    + rewrite span_digits_sanitize. destruct (span_digits r) as [[|d ds] r']; reflexivity.
    + unfold keep. cbn [option_map fst snd]. now rewrite sanitize_plain by exact Hb.
Qed.

Lemma lex_exp_sanitize s :
  lex_exp (sanitizeJsonBackslashes s) = option_map keep (lex_exp s).
Proof.
  destruct s as [|c r]; [reflexivity|].
  destruct (char_eqb c BACKSLASH) eqn:Hb.
  - apply char_eqb_eq in Hb; subst. destruct (sanitize_head BACKSLASH r) as [t Ht].
    unfold lex_exp. rewrite Ht.
    change (char_eqb BACKSLASH 101%N || char_eqb BACKSLASH 69%N) with false.
    cbn iota. unfold keep. cbn [option_map fst snd]. now rewrite Ht.
  - rewrite sanitize_plain by exact Hb. unfold lex_exp.
    destruct (char_eqb c 101%N || char_eqb c 69%N).
    + destruct r as [|x r1].
      * reflexivity.
      * destruct (char_eqb x 43%N || char_eqb x 45%N) eqn:Hs.
        -- rewrite sanitize_plain by (clear Hb; not_backslash).
           rewrite Hs, span_digits_sanitize.
           destruct (span_digits r1) as [[|d ds] r']; reflexivity.
        -- destruct (sanitize_head x r1) as [t Ht]. rewrite Ht, Hs, <- Ht.
           rewrite span_digits_sanitize.
           destruct (span_digits (x :: r1)) as [[|d ds] r']; reflexivity.
    + unfold keep. cbn [option_map fst snd]. now rewrite sanitize_plain by exact Hb.
Qed.

Lemma lex_number_sanitize s :
  lex_number (sanitizeJsonBackslashes s) = option_map keep (lex_number s).
Proof.
  unfold lex_number.
  assert (Hsign :
    (let '(sign, s1) :=
       match sanitizeJsonBackslashes s with
       | c :: r => if char_eqb c 45%N then ([c], r) else ([], sanitizeJsonBackslashes s)
       | [] => ([], sanitizeJsonBackslashes s)
       end in (sign, s1))
    = keep (match s with
            | c :: r => if char_eqb c 45%N then ([c], r) else ([], s)
            | [] => ([], s)
            end)).
  { destruct s as [|c r]; [reflexivity|].
    destruct (char_eqb c 45%N) eqn:Hm.
    - rewrite sanitize_plain by not_backslash. now rewrite Hm.
    - destruct (sanitize_head c r) as [t Ht]. rewrite Ht, Hm. now rewrite <- Ht. }
  destruct (match s with
            | c :: r => if char_eqb c 45%N then ([c], r) else ([], s)
            | [] => ([], s)
            end) as [sign s1] eqn:E1.
  destruct (match sanitizeJsonBackslashes s with
            | c :: r => if char_eqb c 45%N then ([c], r) else ([], sanitizeJsonBackslashes s)
            | [] => ([], sanitizeJsonBackslashes s)
            end) as [sign' s1'] eqn:E2.
  unfold keep in Hsign. cbn in Hsign. injection Hsign as -> ->.
  rewrite lex_int_sanitize. destruct (lex_int s1) as [[i s2]|]; [|reflexivity].
  cbn. rewrite lex_frac_sanitize. destruct (lex_frac s2) as [[f s3]|]; [|reflexivity].
  cbn. rewrite lex_exp_sanitize. destruct (lex_exp s3) as [[e s4]|]; reflexivity.
Qed.

Lemma strip_prefix_sanitize p : forall s,
  forallb (fun c => negb (char_eqb c BACKSLASH)) p = true ->
  strip_prefix p (sanitizeJsonBackslashes s)
  = option_map sanitizeJsonBackslashes (strip_prefix p s).
Proof.
  induction p as [|a p IH]; intros s Hp.
  - destruct s; reflexivity.
  - cbn [forallb] in Hp. apply andb_true_iff in Hp as [Ha Hp].
    apply negb_true_iff in Ha.
    destruct s as [|b r]; [reflexivity|].
    cbn [strip_prefix]. destruct (char_eqb a b) eqn:Hab.
    + apply char_eqb_eq in Hab; subst b.
      rewrite sanitize_plain by exact Ha. cbn [strip_prefix].
      rewrite (proj2 (char_eqb_eq a a) eq_refl). now apply IH.
    + destruct (sanitize_head b r) as [t ->]. cbn [strip_prefix]. now rewrite Hab.
Qed.

Lemma lex_number_backslash r : lex_number (BACKSLASH :: r) = None.
Proof. reflexivity. Qed.

Ltac backslash_tests H :=
  repeat match type of H with
         | context [char_eqb BACKSLASH ?k] =>
             change (char_eqb BACKSLASH k) with false in H
         end;
  cbn iota in H.

Lemma value_body_follows ml el ms es :
  follows ml ms -> follows el es ->
  follows (value_body true ml el) (value_body false ms es).
Proof.
  intros Hm He s v rest H. unfold value_body in *.
  rewrite skip_ws_sanitize.
  destruct (skip_ws s) as [|c r]; [discriminate|].
  destruct (char_eqb c BACKSLASH) eqn:Hb.
  { apply char_eqb_eq in Hb; subst c. backslash_tests H.
    rewrite lex_number_backslash in H. discriminate. }
  rewrite sanitize_plain by exact Hb.
  destruct (char_eqb c LBRACE) eqn:T1.
  { rewrite skip_ws_sanitize. destruct (skip_ws r) as [|c2 r2]; [discriminate|].
    destruct (char_eqb c2 RBRACE) eqn:T2.
    - injection H as <- <-. rewrite sanitize_plain by not_backslash.
      now rewrite T2.
    - destruct (sanitize_head c2 r2) as [t ->]. rewrite T2.
      destruct (ml r) as [[mems r']|] eqn:Hmem; [|discriminate].
      injection H as <- <-. now rewrite (Hm _ _ _ Hmem). }
  destruct (char_eqb c LBRACKET) eqn:T2.
  { rewrite skip_ws_sanitize. destruct (skip_ws r) as [|c2 r2]; [discriminate|].
    destruct (char_eqb c2 RBRACKET) eqn:T3.
    - injection H as <- <-. rewrite sanitize_plain by not_backslash.
      now rewrite T3.
    - destruct (sanitize_head c2 r2) as [t ->]. rewrite T3.
      destruct (el r) as [[vs r']|] eqn:Hel; [|discriminate].
      injection H as <- <-. now rewrite (He _ _ _ Hel). }
  destruct (char_eqb c QUOTE) eqn:T3.
  { destruct (parse_string_body true r) as [[str r']|] eqn:Hs; [|discriminate].
    injection H as <- <-. now rewrite (string_body_follows _ _ _ Hs). }
  destruct (char_eqb c 116%N) eqn:T4.
  { rewrite strip_prefix_sanitize by reflexivity.
    destruct (strip_prefix (js "rue") r); [|discriminate].
    injection H as <- <-. reflexivity. }
  destruct (char_eqb c 102%N) eqn:T5.
  { rewrite strip_prefix_sanitize by reflexivity.
    destruct (strip_prefix (js "alse") r); [|discriminate].
    injection H as <- <-. reflexivity. }
  destruct (char_eqb c 110%N) eqn:T6.
  { rewrite strip_prefix_sanitize by reflexivity.
    destruct (strip_prefix (js "ull") r); [|discriminate].
    injection H as <- <-. reflexivity. }
  pose proof (lex_number_sanitize (c :: r)) as Hn.
  rewrite sanitize_plain in Hn by exact Hb. rewrite Hn.
  destruct (lex_number (c :: r)) as [[lexeme r']|]; [|discriminate].
  injection H as <- <-. reflexivity.
Qed.

Lemma elements_body_follows vl el vs es :
  follows vl vs -> follows el es ->
  follows (elements_body vl el) (elements_body vs es).
Proof.
  intros Hv He s x rest H. unfold elements_body in *.
  destruct (vl s) as [[v r]|] eqn:Hval; [|discriminate].
  rewrite (Hv _ _ _ Hval), skip_ws_sanitize.
  destruct (skip_ws r) as [|c r']; [discriminate|].
  destruct (char_eqb c COMMA) eqn:T1.
  { rewrite sanitize_plain by not_backslash. rewrite T1.
    destruct (el r') as [[vs' r'']|] eqn:Hel; [|discriminate].
    injection H as <- <-. now rewrite (He _ _ _ Hel). }
  destruct (char_eqb c RBRACKET) eqn:T2; [|discriminate].
  injection H as <- <-. rewrite sanitize_plain by not_backslash.
  now rewrite T1, T2.
Qed.

Lemma members_body_follows vl ml vs ms :
  follows vl vs -> follows ml ms ->
  follows (members_body true vl ml) (members_body false vs ms).
Proof.
  intros Hv Hm s x rest H. unfold members_body in *.
  rewrite skip_ws_sanitize.
  destruct (skip_ws s) as [|c r]; [discriminate|].
  destruct (char_eqb c QUOTE) eqn:T1; [|discriminate].
  rewrite sanitize_plain by not_backslash. rewrite T1.
  destruct (parse_string_body true r) as [[key r1]|] eqn:Hs; [|discriminate].
  rewrite (string_body_follows _ _ _ Hs), skip_ws_sanitize.
  destruct (skip_ws r1) as [|c1 r2]; [discriminate|].
  destruct (char_eqb c1 COLON) eqn:T2; [|discriminate].
  rewrite sanitize_plain by not_backslash. rewrite T2.
  destruct (vl r2) as [[v r3]|] eqn:Hval; [|discriminate].
  rewrite (Hv _ _ _ Hval), skip_ws_sanitize.
  destruct (skip_ws r3) as [|c3 r4]; [discriminate|].
  destruct (char_eqb c3 COMMA) eqn:T3.
  { rewrite sanitize_plain by not_backslash. rewrite T3.
    destruct (ml r4) as [[mems r5]|] eqn:Hmem; [|discriminate].
    injection H as <- <-. now rewrite (Hm _ _ _ Hmem). }
  destruct (char_eqb c3 RBRACE) eqn:T4; [|discriminate].
  injection H as <- <-. rewrite sanitize_plain by not_backslash.
  now rewrite T3, T4.
Qed.

(** The strict readers follow the lenient ones, at every depth. *)
Lemma parse_follows fuel :
  follows (parse_value true fuel) (parse_value false fuel)
  /\ follows (parse_elements true fuel) (parse_elements false fuel)
  /\ follows (parse_members true fuel) (parse_members false fuel).
Proof.
  induction fuel as [|fuel (IHv & IHe & IHm)].
  - repeat split; intros s x r H; discriminate H.
  - repeat split.
    + apply (value_body_follows _ _ _ _ IHm IHe).
    + apply (elements_body_follows _ _ _ _ IHv IHe).
    + apply (members_body_follows _ _ _ _ IHv IHm).
Qed.

(** *** Inclusion of readers: more fuel, or leniency, only adds readings *)

Lemma within_refl {A} (p : reader A) : within p p.
Proof. intros s x H. exact H. Qed.

Lemma string_body_within_len n : forall s x,
  (List.length s <= n)%nat ->
  parse_string_body false s = Some x -> parse_string_body true s = Some x.
Proof.
  induction n as [|n IH]; intros s x Hlen H.
  { destruct s; [discriminate | simpl in Hlen; lia]. }
  destruct s as [|c r]; [discriminate|]. simpl in Hlen.
  cbn [parse_string_body] in *.
  destruct (char_eqb c QUOTE); [exact H|].
  destruct (char_eqb c BACKSLASH).
  - destruct r as [|e r']; [discriminate|]. simpl in Hlen.
    destruct (simple_escape e).
    { destruct x as [str rest]. apply prepend_inv in H as (l & H & ->).
      apply prepend_Some. apply IH; [lia | exact H]. }
    destruct (char_eqb e 117%N); [|discriminate].
    destruct r' as [|h1 [|h2 [|h3 [|h4 r'']]]]; try discriminate.
    destruct (hex4 h1 h2 h3 h4); [|discriminate].
    destruct x as [str rest]. apply prepend_inv in H as (l & H & ->).
    apply prepend_Some. apply IH; [simpl in Hlen; lia | exact H].
  - destruct (c <? 32)%N; [discriminate|].
    destruct x as [str rest]. apply prepend_inv in H as (l & H & ->).
    apply prepend_Some. apply IH; [lia | exact H].
Qed.

Lemma string_body_within :
  within (parse_string_body false) (parse_string_body true).
Proof. intros s x H. eapply string_body_within_len; [reflexivity | exact H]. Qed.

Ltac within_step H :=
  match type of H with
  | context [match ?p ?s with _ => _ end] =>
      match goal with
      | W : within p ?q |- _ =>
          let E := fresh "E" in
          destruct (p s) as [[? ?]|] eqn:E; [|discriminate H];
          rewrite (W _ _ E)
      end
  | context [match skip_ws ?s with _ => _ end] =>
      destruct (skip_ws s) as [|? ?]; [discriminate H|]
  | context [if ?b then _ else _] => destruct b; try discriminate H
  | context [match ?o with _ => _ end] =>
      destruct o as [[? ?]|]; [|discriminate H]
  | context [match ?o with _ => _ end] =>
      destruct o as [?|]; [|discriminate H]
  end.

Lemma value_body_within l l' m m' e e' :
  within (parse_string_body l) (parse_string_body l') ->
  within m m' -> within e e' ->
  within (value_body l m e) (value_body l' m' e').
Proof.
  intros Hs Hm He s x H. unfold value_body in *.
  repeat within_step H; exact H.
Qed.

Lemma elements_body_within v v' e e' :
  within v v' -> within e e' ->
  within (elements_body v e) (elements_body v' e').
Proof.
  intros Hv He s x H. unfold elements_body in *.
  repeat within_step H; exact H.
Qed.

Lemma members_body_within l l' v v' m m' :
  within (parse_string_body l) (parse_string_body l') ->
  within v v' -> within m m' ->
  within (members_body l v m) (members_body l' v' m').
Proof.
  intros Hs Hv Hm s x H. unfold members_body in *.
  repeat within_step H; exact H.
Qed.

Lemma parse_within l l' :
  within (parse_string_body l) (parse_string_body l') ->
  forall fuel fuel', (fuel <= fuel')%nat ->
    within (parse_value l fuel) (parse_value l' fuel')
    /\ within (parse_elements l fuel) (parse_elements l' fuel')
    /\ within (parse_members l fuel) (parse_members l' fuel').
Proof.
  intros Hs. induction fuel as [|fuel IH]; intros fuel' Hle.
  - repeat split; intros s x H; discriminate H.
  - destruct fuel' as [|fuel']; [lia|].
    destruct (IH fuel' ltac:(lia)) as (IHv & IHe & IHm).
    repeat split.
    + apply (value_body_within _ _ _ _ _ _ Hs IHm IHe).
    + apply (elements_body_within _ _ _ _ IHv IHe).
    + apply (members_body_within _ _ _ _ _ _ Hs IHv IHm).
Qed.

Lemma parse_text_within l l' fuel fuel' text v :
  within (parse_string_body l) (parse_string_body l') ->
  (fuel <= fuel')%nat ->
  parse_text l fuel text = Some v -> parse_text l' fuel' text = Some v.
Proof.
  intros Hs Hle H. unfold parse_text in *.
  destruct (parse_value l fuel text) as [[v' r]|] eqn:E; [|discriminate].
  destruct (parse_within l l' Hs fuel fuel' Hle) as (Hv & _ & _).
  now rewrite (Hv _ _ E).
Qed.

(** The sanitized text of a leniently readable text is valid JSON for the
    same value. *)
Lemma sanitized_text_parses text v :
  parse_lenient text = Some v ->
  JSON_parse (sanitizeJsonBackslashes text) = Some v.
Proof.
  unfold parse_lenient, JSON_parse. intros H.
  apply (parse_text_within false false (parse_fuel text)).
  { apply within_refl. }
  { unfold parse_fuel. pose proof (sanitize_length text). lia. }
  unfold parse_text in *.
  destruct (parse_value true (parse_fuel text) text) as [[v' r]|] eqn:E;
    [|discriminate].
  destruct (parse_follows (parse_fuel text)) as (Hv & _ & _).
  rewrite (Hv _ _ _ E), skip_ws_sanitize.
  destruct (skip_ws r); [exact H | discriminate].
Qed.

(** What [JSON.parse] reads, the lenient reader reads alike. *)
Lemma strict_parse_lenient text v :
  JSON_parse text = Some v -> parse_lenient text = Some v.
Proof.
  apply parse_text_within; [apply string_body_within | lia].
Qed.

(** ** The fuel of [JSON_parse] is enough

    Whatever the readers read with any fuel, they read with the fuel that
    [JSON_parse] supplies: the result of [JSON_parse] is that of the
    grammar. *)

Lemma skip_ws_length s : List.length (skip_ws s) <= List.length s.
Proof.
  induction s as [|c r IH]; [reflexivity|].
  rewrite skip_ws_cons. destruct (is_json_ws c); simpl; lia.
Qed.

Lemma skip_ws_eq_cons_length s c r :
  skip_ws s = c :: r -> List.length r < List.length s.
Proof.
  intros H. pose proof (skip_ws_length s) as Hl. rewrite H in Hl. simpl in Hl. lia.
Qed.

Lemma string_body_nonexpanding_len l n : forall s x r,
  List.length s <= n ->
  parse_string_body l s = Some (x, r) -> List.length r <= List.length s.
Proof.
  induction n as [|n IH]; intros s x r Hlen H.
  { destruct s; [discriminate | simpl in Hlen; lia]. }
  destruct s as [|c s1]; [discriminate|]. simpl in Hlen.
  cbn [parse_string_body] in H.
  destruct (char_eqb c QUOTE).
  { injection H as <- <-. simpl. lia. }
  destruct (char_eqb c BACKSLASH).
  - destruct s1 as [|e s2]; [discriminate|]. simpl in Hlen.
    destruct (simple_escape e).
    { apply prepend_inv in H as (l0 & H & _).
      apply IH in H; [simpl; lia | lia]. }
    destruct (char_eqb e 117%N).
    { destruct s2 as [|h1 [|h2 [|h3 [|h4 s3]]]]; try discriminate.
      destruct (hex4 h1 h2 h3 h4); [|discriminate].
      apply prepend_inv in H as (l0 & H & _).
      simpl in Hlen. apply IH in H; [simpl; lia | lia]. }
    destruct (l && negb (e <? 32)%N); [|discriminate].
    apply prepend_inv in H as (l0 & H & _).
    apply IH in H; [simpl; lia | lia].
  - destruct (c <? 32)%N; [discriminate|].
    apply prepend_inv in H as (l0 & H & _).
    apply IH in H; [simpl; lia | lia].
Qed.

Lemma string_body_nonexpanding l : nonexpanding (parse_string_body l).
Proof. intros s x r H. eapply string_body_nonexpanding_len; [reflexivity | exact H]. Qed.

Lemma span_digits_length s :
  List.length (snd (span_digits s)) <= List.length s.
Proof.
  induction s as [|c r IH]; [reflexivity|].
  cbn [span_digits]. destruct (is_digit c); [|reflexivity].
  destruct (span_digits r) as [d r']. cbn in *. lia.
Qed.

Lemma lex_int_nonexpanding : nonexpanding lex_int.
Proof.
  intros s x r H. unfold lex_int in H. destruct s as [|c s1]; [discriminate|].
  destruct (char_eqb c 48%N); [injection H as <- <-; simpl; lia|].
  destruct (is_digit c); [|discriminate].
  pose proof (span_digits_length s1) as Hl. destruct (span_digits s1) as [d r'].
  injection H as <- <-. cbn in *. lia.
Qed.

Lemma lex_frac_nonexpanding : nonexpanding lex_frac.
Proof.
  intros s x r H. unfold lex_frac in H. destruct s as [|c s1].
  { injection H as <- <-. reflexivity. }
  destruct (char_eqb c 46%N); [|injection H as <- <-; reflexivity].
  pose proof (span_digits_length s1) as Hl.
  destruct (span_digits s1) as [[|d ds] r']; [discriminate|].
  injection H as <- <-. cbn in *. lia.
Qed.

Lemma lex_exp_nonexpanding : nonexpanding lex_exp.
Proof.
  intros s x r H. unfold lex_exp in H. destruct s as [|c s1].
  { injection H as <- <-. reflexivity. }
  destruct (char_eqb c 101%N || char_eqb c 69%N);
    [|injection H as <- <-; reflexivity].
  destruct s1 as [|y s2].
  - cbn in H. discriminate.
  - destruct (char_eqb y 43%N || char_eqb y 45%N).
    + pose proof (span_digits_length s2) as Hl.
      destruct (span_digits s2) as [[|d ds] r']; [discriminate|].
      injection H as <- <-. cbn in *. lia.
    + pose proof (span_digits_length (y :: s2)) as Hl.
      destruct (span_digits (y :: s2)) as [[|d ds] r']; [discriminate|].
      injection H as <- <-. cbn in *. lia.
Qed.

Lemma lex_number_nonexpanding : nonexpanding lex_number.
Proof.
  intros s x r H. unfold lex_number in H.
  destruct (match s with
            | c :: r0 => if char_eqb c 45%N then ([c], r0) else ([], s)
            | [] => ([], s)
            end) as [sign s1] eqn:Hsign.
  assert (List.length s1 <= List.length s) as H1.
  { destruct s as [|c r0]; [injection Hsign as <- <-; reflexivity|].
    destruct (char_eqb c 45%N); injection Hsign as <- <-; simpl; lia. }
  destruct (lex_int s1) as [[i s2]|] eqn:Hi; [|discriminate].
  destruct (lex_frac s2) as [[f s3]|] eqn:Hf; [|discriminate].
  destruct (lex_exp s3) as [[e s4]|] eqn:He; [|discriminate].
  injection H as <- <-.
  apply lex_int_nonexpanding in Hi. apply lex_frac_nonexpanding in Hf.
  apply lex_exp_nonexpanding in He. lia.
Qed.

Lemma strip_prefix_length p : forall s r,
  strip_prefix p s = Some r -> List.length r <= List.length s.
Proof.
  induction p as [|a p IH]; intros s r H.
  - destruct s; injection H as <-; reflexivity.
  - destruct s as [|b s1]; [discriminate|]. cbn [strip_prefix] in H.
    destruct (char_eqb a b); [|discriminate]. apply IH in H. simpl. lia.
Qed.

(** One step of the analysis of a reader's body: the next reader called, or
    the next test made, is taken apart, and what is known of the lengths is
    recorded. *)
Ltac length_step H :=
  match type of H with
  | context [match skip_ws ?s with _ => _ end] =>
      let E := fresh "E" in
      destruct (skip_ws s) as [|? ?] eqn:E; [discriminate H|];
      apply skip_ws_eq_cons_length in E
  | context [match parse_string_body ?l ?s with _ => _ end] =>
      let E := fresh "E" in
      destruct (parse_string_body l s) as [[? ?]|] eqn:E; [|discriminate H];
      apply string_body_nonexpanding in E
  | context [match strip_prefix ?p ?s with _ => _ end] =>
      let E := fresh "E" in
      destruct (strip_prefix p s) as [?|] eqn:E; [|discriminate H];
      apply strip_prefix_length in E
  | context [match lex_number ?s with _ => _ end] =>
      let E := fresh "E" in
      destruct (lex_number s) as [[? ?]|] eqn:E; [|discriminate H];
      apply lex_number_nonexpanding in E
  | context [match ?p ?s with _ => _ end] =>
      match goal with
      | N : nonexpanding p |- _ =>
          let E := fresh "E" in
          destruct (p s) as [[? ?]|] eqn:E; [|discriminate H];
          apply N in E
      end
  | context [if ?b then _ else _] => destruct b; try discriminate H
  end.

Ltac length_done H := injection H as <- <-; cbn [List.length] in *; lia.

Lemma value_body_nonexpanding l m e :
  nonexpanding m -> nonexpanding e -> nonexpanding (value_body l m e).
Proof.
  intros Hm He s x r H. unfold value_body in H.
  repeat length_step H; length_done H.
Qed.

Lemma elements_body_nonexpanding v e :
  nonexpanding v -> nonexpanding e -> nonexpanding (elements_body v e).
Proof.
  intros Hv He s x r H. unfold elements_body in H.
  repeat length_step H; length_done H.
Qed.

Lemma members_body_nonexpanding l v m :
  nonexpanding v -> nonexpanding m -> nonexpanding (members_body l v m).
Proof.
  intros Hv Hm s x r H. unfold members_body in H.
  repeat length_step H; length_done H.
Qed.

Lemma parse_nonexpanding l fuel :
  nonexpanding (parse_value l fuel)
  /\ nonexpanding (parse_elements l fuel)
  /\ nonexpanding (parse_members l fuel).
Proof.
  induction fuel as [|fuel (IHv & IHe & IHm)].
  - repeat split; intros s x r H; discriminate H.
  - repeat split.
    + apply (value_body_nonexpanding _ _ _ IHm IHe).
    + apply (elements_body_nonexpanding _ _ IHv IHe).
    + apply (members_body_nonexpanding _ _ _ IHv IHm).
Qed.

Ltac upto_step H :=
  match type of H with
  | context [match skip_ws ?s with _ => _ end] =>
      let E := fresh "E" in
      destruct (skip_ws s) as [|? ?] eqn:E; [discriminate H|];
      apply skip_ws_eq_cons_length in E
  | context [match parse_string_body ?l ?s with _ => _ end] =>
      let E := fresh "E" in
      destruct (parse_string_body l s) as [[? ?]|] eqn:E; [|discriminate H];
      apply string_body_nonexpanding in E
  | context [match ?p ?s with _ => _ end] =>
      match goal with
      | W : within_upto ?n p ?q |- _ =>
          let E := fresh "E" in
          let L := fresh "L" in
          assert (List.length s <= n) as L by lia;
          destruct (p s) as [[? ?]|] eqn:E; [|discriminate H];
          rewrite (W _ _ L E);
          try match goal with
              | N : nonexpanding p |- _ => apply N in E
              end
      end
  | context [if ?b then _ else _] => destruct b; try discriminate H
  | context [match ?o with _ => _ end] =>
      destruct o as [[? ?]|]; [|discriminate H]
  | context [match ?o with _ => _ end] =>
      destruct o as [?|]; [|discriminate H]
  end.

Lemma value_body_upto l n m m' e e' :
  within_upto n m m' -> within_upto n e e' ->
  within_upto (S n) (value_body l m e) (value_body l m' e').
Proof.
  intros Hm He s x Hlen H. unfold value_body in *.
  repeat upto_step H; exact H.
Qed.

Lemma elements_body_upto n v v' e e' :
  nonexpanding v ->
  within_upto (S n) v v' -> within_upto n e e' ->
  within_upto (S n) (elements_body v e) (elements_body v' e').
Proof.
  intros Hn Hv He s x Hlen H. unfold elements_body in *.
  repeat upto_step H; exact H.
Qed.

Lemma members_body_upto l n v v' m m' :
  nonexpanding v ->
  within_upto n v v' -> within_upto n m m' ->
  within_upto (S n) (members_body l v m) (members_body l v' m').
Proof.
  intros Hn Hv Hm s x Hlen H. unfold members_body in *.
  repeat upto_step H; exact H.
Qed.

Lemma within_upto_trans {A} n (p q r : reader A) :
  within_upto n p q -> within q r -> within_upto n p r.
Proof. intros Hpq Hqr s x Hlen H. apply Hqr. now apply Hpq. Qed.

Lemma parse_more_fuel l fuel fuel' :
  fuel <= fuel' ->
  within (parse_value l fuel) (parse_value l fuel')
  /\ within (parse_elements l fuel) (parse_elements l fuel')
  /\ within (parse_members l fuel) (parse_members l fuel').
Proof. intros H. apply parse_within; [apply within_refl | exact H]. Qed.

Lemma parse_value_nil l fuel : parse_value l fuel [] = None.
Proof. destruct fuel; reflexivity. Qed.

(** Twice the length of the text, and one or two more, is fuel enough. *)
Lemma parse_enough l n :
  (forall fuel, within_upto n (parse_value l fuel) (parse_value l (2 * n + 1)))
  /\ (forall fuel, within_upto n (parse_elements l fuel) (parse_elements l (2 * n + 2)))
  /\ (forall fuel, within_upto n (parse_members l fuel) (parse_members l (2 * n + 2))).
Proof.
  induction n as [|n (IHv & IHe & IHm)].
  - repeat split; intros fuel s x Hlen H; destruct s; try (simpl in Hlen; lia);
      exfalso; destruct fuel as [|fuel]; try discriminate H.
    + cbn [parse_elements] in H. unfold elements_body in H.
      now rewrite parse_value_nil in H.
  - assert (forall fuel, within_upto (S n) (parse_value l fuel)
                           (parse_value l (2 * S n + 1))) as Hv.
    { intros [|fuel]; [intros s x _ H; discriminate H|].
      replace (2 * S n + 1) with (S (2 * n + 2)) by lia.
      apply (value_body_upto l n _ _ _ _ (IHm fuel) (IHe fuel)). }
    split; [exact Hv|]. split.
    + intros [|fuel]; [intros s x _ H; discriminate H|].
      replace (2 * S n + 2) with (S (2 * S n + 1)) by lia.
      apply (elements_body_upto n).
      * apply parse_nonexpanding.
      * apply Hv.
      * eapply within_upto_trans; [apply IHe|].
        apply (parse_more_fuel l (2 * n + 2) (2 * S n + 1)). lia.
    + intros [|fuel]; [intros s x _ H; discriminate H|].
      replace (2 * S n + 2) with (S (2 * S n + 1)) by lia.
      apply (members_body_upto l n).
      * apply parse_nonexpanding.
      * eapply within_upto_trans; [apply IHv|].
        apply (parse_more_fuel l (2 * n + 1) (2 * S n + 1)). lia.
      * eapply within_upto_trans; [apply IHm|].
        apply (parse_more_fuel l (2 * n + 2) (2 * S n + 1)). lia.
Qed.

Lemma parse_text_fuel_enough l fuel text v :
  parse_text l fuel text = Some v ->
  parse_text l (parse_fuel text) text = Some v.
Proof.
  unfold parse_text. intros H.
  destruct (parse_value l fuel text) as [[v' r]|] eqn:E; [|discriminate].
  destruct (parse_enough l (List.length text)) as (Hv & _ & _).
  pose proof (Hv fuel text _ ltac:(lia) E) as E'.
  destruct (parse_more_fuel l (2 * List.length text + 1) (parse_fuel text)
              ltac:(unfold parse_fuel; lia)) as (Hmore & _ & _).
  now rewrite (Hmore _ _ E').
Qed.

(** [JSON_parse] accepts what the grammar accepts with any fuel, and rejects
    only what the grammar rejects with every fuel. *)
Lemma JSON_parse_complete fuel text v :
  parse_text false fuel text = Some v -> JSON_parse text = Some v.
Proof. apply parse_text_fuel_enough. Qed.

Lemma JSON_parse_rejects text :
  JSON_parse text = None -> forall fuel, parse_text false fuel text = None.
Proof.
  intros H fuel. destruct (parse_text false fuel text) as [v|] eqn:E; [|reflexivity].
  apply JSON_parse_complete in E. congruence.
Qed.

(** ** The recovery parsers on examples *)

Example match_fence_ex1 :
  match_fence true (js "Here: ```JSON  [1, 2] ``` and ```x```") = Some (js "[1, 2] ").
Proof. vm_compute. reflexivity. Qed.

Example match_fence_ex2 : match_fence false (js "```JSON [1]```") = Some (js "JSON [1]").
Proof. vm_compute. reflexivity. Qed.

Example match_fence_ex3 : match_fence false (js "```json [1]") = None.
Proof. vm_compute. reflexivity. Qed.

Example parseJsonFromModelText_ex1 :
  parseJsonFromModelText exampleEngine (jsq "  Sure! {'a': 1} done ")
  = Normal (JObject [(js "a", JNumber (js "1"))]).
Proof. vm_compute. reflexivity. Qed.

Example repair_ex1 :
  repairTruncatedJson (jsq "{'a':['x','y',") = jsq "{'a':['x','y']}".
Proof. vm_compute. reflexivity. Qed.

Example repair_ex2 :
  repairTruncatedJson (jsq "{'a':'hello wo") = jsq "{'a':'}".
Proof. vm_compute. reflexivity. Qed.

Example repair_ex3 :
  repairTruncatedJson (jsq "{'a':'say \'hi") = jsq "{'a':'}".
Proof. vm_compute. reflexivity. Qed.

(** Cut after a complete string the text is repaired; cut inside a string it
    is not. *)
Example repair_ex4 :
  JSON_parse (repairTruncatedJson (jsq "{'overview':'x','keyTakeaways':['a','b'"))
  = Some (JObject [(js "overview", JString (js "x"));
                   (js "keyTakeaways", JArray [JString (js "a"); JString (js "b")])])
  /\ repairTruncatedJson (jsq "{'overview':'x','keyTakeaways':['a','b")
     = jsq "{'overview':'x','keyTakeaways':['a',']}"
  /\ JSON_parse (repairTruncatedJson (jsq "{'overview':'x','keyTakeaways':['a','b")) = None.
Proof. vm_compute. repeat split. Qed.

(** ** Order of the recovery stages *)




(** ** Escape sanitization *)

(** In the lenient reading a backslash before a character that is no escape
    stands for itself: the string holds the backslash and the character. *)
Lemma lenient_reads_stray_backslash e r :
  validEscapes_has e = false -> (e <? 32)%N = false ->
  parse_string_body true (BACKSLASH :: e :: r)
  = prepend [BACKSLASH; e] (parse_string_body true r).
Proof.
  intros Hv Hc. cbn [parse_string_body].
  change (char_eqb BACKSLASH QUOTE) with false.
  change (char_eqb BACKSLASH BACKSLASH) with true. cbn iota.
  assert (simple_escape e = None) as ->.
  { destruct (simple_escape e) eqn:He; [|reflexivity].
    apply simple_escape_valid in He. congruence. }
  assert (char_eqb e 117%N = false) as ->.
  { destruct (char_eqb e 117%N) eqn:Hu; [|reflexivity].
    apply char_eqb_eq in Hu; subst e. discriminate Hv. }
  now rewrite Hc.
Qed.

(** C7. A text that is JSON except that, inside strings, backslashes stand
    before characters that are no JSON escape denotes (leniently read) the
    value [v] in which each such backslash and its character are kept.  For
    every such text the sanitized text parses, to that value, and so does the
    direct-sanitize-repair chain of [parseJsonResponse]. *)
Theorem sanitization_rescues_stray_backslashes
    (E : Engine) (text : jsstring) (v : json) :
  parse_lenient text = Some v ->
  JSON_parse (sanitizeJsonBackslashes text) = Some v
  /\ parse_with_recovery E text = Normal v.
Proof.
  intros H. pose proof (sanitized_text_parses _ _ H) as Hs.
  split; [exact Hs|].
  unfold parse_with_recovery.
  destruct (JSON_parse text) as [v'|] eqn:Hd.
  - apply strict_parse_lenient in Hd. congruence.
  - now rewrite Hs.
Qed.

Lemma sanitization_rescues_stray_backslashes_witness :
  JSON_parse (jsq "{'a':'\sigma'}") = None
  /\ JSON_parse (sanitizeJsonBackslashes (jsq "{'a':'\sigma'}"))
     = Some (JObject [(js "a", JString (js "\sigma"))])
  /\ parse_with_recovery exampleEngine (jsq "{'a':'\sigma'}")
     = Normal (JObject [(js "a", JString (js "\sigma"))]).
Proof.
  split; [vm_compute; reflexivity|].
  apply (sanitization_rescues_stray_backslashes exampleEngine).
  vm_compute. reflexivity.
Defined.

(** ** Truncation repair *)

(** C8, at a text cut in the middle of a string: the serialization of an
    object with one string member, cut after the opening quote and a few
    characters of the string.  The last quote of the cut text opens the
    unterminated string; the repair keeps it, and the closing brace it appends
    lands inside that string.  The result is no JSON text, and one brace is
    still open outside of strings. *)
Theorem repair_of_text_cut_in_string :
  let whole := jsq "{'a':'hello world'}" in
  let cut := jsq "{'a':'hello wo" in
  JSON_parse whole = Some (JObject [(js "a", JString (js "hello world"))])
  /\ cut = firstn 14 whole
  /\ repairTruncatedJson cut = jsq "{'a':'}"
  /\ JSON_parse (repairTruncatedJson cut) = None
  /\ unclosed (repairTruncatedJson cut) = 1%Z.
Proof. vm_compute. repeat split. Qed.

(** ** The runner on examples *)

Example runner_ex1 :
  settled (mapWithConcurrency (fun t => t) 10 [10; 20; 30]%nat (Num 2) (fun x i => (x + i)%nat))
  = Some (Normal [Some 10; Some 21; Some 32]%nat).
Proof. vm_compute. reflexivity. Qed.

Example runner_ex2 :
  mapWithConcurrency_lessons (fun t => (3 * t + 1)%nat) 10 [10; 20; 30]%nat (Num (5 # 2))
     (fun x i => (x + i)%nat)
  = {| settled := Some (Normal [Some 10; Some 21; Some 32]%nat);
       handler_calls := [0; 1; 2]%nat; spawned := 2 |}.
Proof. vm_compute. reflexivity. Qed.

Example runner_ex3 :
  mapWithConcurrency_lessons (fun t => t) 10 [10; 20; 30]%nat (Num 0) (fun x i => (x + i)%nat)
  = {| settled := Some (Normal [None; None; None]); handler_calls := []; spawned := 0 |}.
Proof. vm_compute. reflexivity. Qed.

(** ** Correctness of the runner *)

Section RunnerProofs.
Context {T R : Type}.
Variable pacing : bool.
Variable items : list T.
Variable mapper : T -> nat -> R.

#[local] Abbreviation claim_ := (claim (R:=R) pacing items).
#[local] Abbreviation resume_ := (resume pacing items mapper).
#[local] Abbreviation spawn_one_ := (spawn_one (R:=R) pacing items).
#[local] Abbreviation event_loop_ := (event_loop pacing items mapper).
#[local] Abbreviation start_ := (start (R:=R) items).
#[local] Abbreviation slot_done_ := (slot_done items mapper).
#[local] Abbreviation Inv_ := (pool_invariant items mapper).
#[local] Abbreviation turns_left_ := (turns_left items).

(** [claim], case by case. *)
Lemma claim_cases p :
  (cursor p < List.length items
   /\ holds (snd (claim_ p)) (cursor p)
   /\ cursor (fst (claim_ p)) = S (cursor p)
   /\ results (fst (claim_ p)) = results p
   /\ workers (fst (claim_ p)) = workers p)
  \/ (List.length items <= cursor p /\ claim_ p = (p, Returned)).
Proof.
  unfold claim.
  destruct (cursor p <? List.length items)%nat eqn:Hlt.
  - apply Nat.ltb_lt in Hlt. left.
    destruct (pacing && (0 <? cursor p)%nat); cbn; unfold holds; auto 6.
  - apply Nat.ltb_ge in Hlt. right. auto.
Qed.

Lemma holds_weight st i : holds st i -> 1 <= weight st <= 2.
Proof. intros [-> | ->]; simpl; lia. Qed.

Lemma holds_not_returned i : ~ holds Returned i.
Proof. intros [H | H]; discriminate H. Qed.

Lemma Inv_start : Inv_ start_.
Proof.
  constructor; cbn.
  - lia.
  - apply repeat_length.
  - intros i Hi. lia.
  - intros w st i H. rewrite lookup_nil in H. discriminate.
  - intros w H. rewrite lookup_nil in H. discriminate.
Qed.

Lemma Inv_spawn_one p : Inv_ p -> Inv_ (spawn_one_ p).
Proof.
  intros [Hc Hr Hu Hh Hret]. unfold spawn_one.
  destruct (claim_cases p) as [(Hlt & Hst & Hcur & Hres & Hwk) | (Hge & Heq)].
  - destruct (claim_ p) as [p' st]. cbn in *.
    constructor; cbn.
    + lia.
    + congruence.
    + intros i Hi. rewrite Hcur in Hi.
      destruct (decide (i = cursor p)) as [-> | Hne].
      * right. exists (List.length (workers p')), st. cbn. split; [|exact Hst].
        apply list_lookup_middle. reflexivity.
      * destruct (Hu i ltac:(lia)) as [(x & Hx & Hd) | (w & st' & Hl & Hi')].
        -- left. exists x. cbn. rewrite Hres. auto.
        -- right. exists w, st'. cbn. split; [|exact Hi'].
           rewrite Hwk. now apply lookup_app_l_Some.
    + intros w st' i Hl Hi. rewrite Hcur, Hwk in *.
      apply lookup_app_Some in Hl as [Hl | [_ Hl]].
      * specialize (Hh _ _ _ Hl Hi). lia.
      * apply list_lookup_singleton_Some in Hl as [_ <-].
        destruct Hst as [-> | ->], Hi as [Hi | Hi]; inversion Hi; lia.
    + intros w Hl. rewrite Hwk in Hl.
      apply lookup_app_Some in Hl as [Hl | [_ Hl]].
      * specialize (Hret _ Hl). lia.
      * apply list_lookup_singleton_Some in Hl as [_ E]. subst st.
        exfalso. exact (holds_not_returned _ Hst).
  - rewrite Heq. constructor; cbn.
    + exact Hc.
    + exact Hr.
    + intros i Hi. destruct (Hu i Hi) as [Hd | (w & st' & Hl & Hi')].
      * left. exact Hd.
      * right. exists w, st'. cbn. split; [|exact Hi'].
        now apply lookup_app_l_Some.
    + intros w st' i Hl Hi.
      apply lookup_app_Some in Hl as [Hl | [_ Hl]].
      * exact (Hh _ _ _ Hl Hi).
      * apply list_lookup_singleton_Some in Hl as [_ E]. subst st'.
        exfalso. exact (holds_not_returned _ Hi).
    + intros w _. lia.
Qed.

Lemma weight_sum_snoc l st :
  list_sum (List.map weight (l ++ [st])) = list_sum (List.map weight l) + weight st.
Proof. rewrite List.map_app, list_sum_app. simpl. lia. Qed.

Lemma turns_left_spawn_one p : turns_left_ (spawn_one_ p) <= turns_left_ p.
Proof.
  unfold turns_left, spawn_one.
  destruct (claim_cases p) as [(Hlt & Hst & Hcur & Hres & Hwk) | (Hge & Heq)].
  - destruct (claim_ p) as [p' st]. cbn [fst snd] in *.
    cbn [cursor workers]. rewrite Hcur, Hwk.
    rewrite weight_sum_snoc.
    pose proof (holds_weight _ _ Hst). lia.
  - rewrite Heq. cbn [cursor workers].
    rewrite weight_sum_snoc. cbn [weight]. lia.
Qed.

Lemma spawn_one_workers p :
  List.length (workers (spawn_one_ p)) = S (List.length (workers p)).
Proof.
  unfold spawn_one.
  destruct (claim_cases p) as [(_ & _ & _ & _ & Hwk) | (_ & Heq)].
  - destruct (claim_ p) as [p' st]. cbn [fst snd workers] in *.
    rewrite length_app, Hwk. cbn. lia.
  - rewrite Heq. cbn [workers]. rewrite length_app. cbn. lia.
Qed.

Lemma spawn_spec n :
  Inv_ (spawn pacing items n start_)
  /\ turns_left_ (spawn pacing items n start_) <= 2 * List.length items
  /\ List.length (workers (spawn pacing items n start_)) = n.
Proof.
  induction n as [|n (HI & Ht & Hn)].
  - split; [exact Inv_start|]. cbn. split; lia.
  - unfold spawn in *. rewrite Nat.iter_succ.
    split; [now apply Inv_spawn_one|]. split.
    + etransitivity; [apply turns_left_spawn_one | exact Ht].
    + rewrite spawn_one_workers. now rewrite Hn.
Qed.

Lemma weight_sum_insert (l : list worker) w old st :
  l !! w = Some old ->
  list_sum (List.map weight (<[w := st]> l)) + weight old
  = list_sum (List.map weight l) + weight st.
Proof.
  revert w. induction l as [|a l IH]; intros [|w] H; try discriminate H.
  - injection H as ->. cbn. lia.
  - specialize (IH w H).
    change (<[S w := st]> (a :: l)) with (a :: <[w := st]> l).
    cbn [List.map]. unfold list_sum in *. cbn [fold_right]. lia.
Qed.

Lemma slot_done_store res i idx item :
  items !! idx = Some item -> idx < List.length res ->
  slot_done_ res i \/ i = idx ->
  slot_done_ (<[idx := Some (mapper item idx)]> res) i.
Proof.
  intros Hitem Hlen [(x & Hx & Hd) | ->].
  - destruct (decide (i = idx)) as [-> | Hne].
    + exists item. split; [exact Hitem|]. now apply list_lookup_insert_eq.
    + exists x. split; [exact Hx|]. now rewrite list_lookup_insert_ne.
  - exists item. split; [exact Hitem|]. now apply list_lookup_insert_eq.
Qed.

(** A unit held before the worker [w] moves on is still held, unless [w]
    itself held it. *)
Lemma slot_held_insert ws w old st i :
  ws !! w = Some old -> slot_held ws i ->
  holds old i \/ slot_held (<[w := st]> ws) i.
Proof.
  intros Hw (w' & st' & Hl & Hh).
  destruct (decide (w' = w)) as [-> | Hne].
  - left. congruence.
  - right. exists w', st'. split; [|exact Hh]. now rewrite list_lookup_insert_ne.
Qed.

Lemma slot_held_here ws w old st i :
  ws !! w = Some old -> holds st i -> slot_held (<[w := st]> ws) i.
Proof.
  intros Hw Hh. exists w, st. split; [|exact Hh].
  apply list_lookup_insert_eq. now apply lookup_lt_Some in Hw.
Qed.

Lemma lookup_insert_inv (ws : list worker) w st w' st' :
  <[w := st]> ws !! w' = Some st' ->
  (w' = w /\ st' = st) \/ (w' <> w /\ ws !! w' = Some st').
Proof.
  intros H. destruct (decide (w' = w)) as [-> | Hne].
  - left. split; [reflexivity|].
    assert (w < List.length ws) as Hlt.
    { apply lookup_lt_Some in H. now rewrite length_insert in H. }
    rewrite list_lookup_insert_eq in H by exact Hlt. congruence.
  - right. split; [exact Hne|]. now rewrite list_lookup_insert_ne in H.
Qed.

Lemma holds_inj st i j : holds st i -> holds st j -> i = j.
Proof. intros [-> | ->] [H | H]; congruence. Qed.

(** One turn of the event loop: the invariant is kept and fewer turns are
    left. *)
Lemma resume_spec p w st :
  Inv_ p -> workers p !! w = Some st -> is_pending st = true ->
  Inv_ (resume_ w p)
  /\ turns_left_ (resume_ w p) < turns_left_ p
  /\ List.length (workers (resume_ w p)) = List.length (workers p).
Proof.
  intros [Hc Hr Hu Hh Hret] Hw Hp. unfold resume. rewrite Hw.
  destruct st as [idx | idx |]; [| |discriminate Hp].
  - (* woken from the pacing sleep *)
    unfold set_worker. cbn [cursor results workers invoked].
    split; [constructor; cbn [cursor results workers invoked]|split].
    + exact Hc.
    + exact Hr.
    + intros i Hi. destruct (Hu i Hi) as [Hd | Hheld]; [now left | right].
      destruct (slot_held_insert _ _ _ (Awaiting idx) _ Hw Hheld) as [Hold | Hnew];
        [|exact Hnew].
      apply (slot_held_here _ _ _ _ _ Hw).
      rewrite (holds_inj _ _ _ Hold (or_introl eq_refl)). now right.
    + intros w' st' i Hl Hi.
      apply lookup_insert_inv in Hl as [[-> ->] | [_ Hl]].
      * apply (Hh _ _ _ Hw). destruct Hi as [Hi | Hi]; inversion Hi. now left.
      * exact (Hh _ _ _ Hl Hi).
    + intros w' Hl.
      apply lookup_insert_inv in Hl as [[_ Hl] | [_ Hl]]; [discriminate Hl|].
      exact (Hret _ Hl).
    + unfold turns_left. cbn [cursor workers].
      pose proof (weight_sum_insert _ _ _ (Awaiting idx) Hw) as Hs.
      cbn [weight] in Hs. lia.
    + apply length_insert.
  - (* the handler's promise for unit idx is fulfilled *)
    assert (idx < cursor p) as Hidx by (apply (Hh _ _ _ Hw); now right).
    destruct (lookup_lt_is_Some_2 items idx ltac:(lia)) as [item Hitem].
    rewrite Hitem.
    set (p1 := {| cursor := cursor p;
                  results := <[idx := Some (mapper item idx)]> (results p);
                  workers := workers p; invoked := invoked p |}).
    assert (forall i, i < cursor p ->
              slot_done_ (results p1) i \/ holds (Awaiting idx) i
              \/ forall st', slot_held (<[w := st']> (workers p)) i) as Hu1.
    { intros i Hi. destruct (Hu i Hi) as [Hd | Hheld].
      - left. apply slot_done_store; [exact Hitem | lia | now left].
      - destruct (decide (i = idx)) as [-> | Hne].
        + left. apply slot_done_store; [exact Hitem | lia | now right].
        + right. right. intros st'.
          destruct (slot_held_insert _ _ _ st' _ Hw Hheld) as [Hold | Hnew];
            [|exact Hnew].
          destruct Hold as [Hold | Hold]; inversion Hold. congruence. }
    assert (forall i, i < cursor p ->
              slot_done_ (results p1) i
              \/ forall st', slot_held (<[w := st']> (workers p)) i) as Hu2.
    { intros i Hi. destruct (Hu1 i Hi) as [Hd | [Hold | Hnew]]; auto.
      left. destruct Hold as [Hold | Hold]; inversion Hold. subst i.
      apply slot_done_store; [exact Hitem | lia | now right]. }
    clear Hu1.
    destruct (claim_cases p1) as [(Hlt & Hst & Hcur & Hres & Hwk) | (Hge & Heq)].
    + destruct (claim_ p1) as [p2 st']. cbn [fst snd] in *.
      unfold set_worker. cbn [cursor results workers invoked].
      rewrite Hcur, Hres, Hwk. cbn [cursor results workers invoked p1] in *.
      split; [constructor; cbn [cursor results workers invoked]|split].
      * lia.
      * now rewrite length_insert.
      * intros i Hi. destruct (decide (i = cursor p)) as [-> | Hne].
        -- right. now apply (slot_held_here _ _ _ _ _ Hw).
        -- destruct (Hu2 i ltac:(lia)) as [Hd | Hnew]; [now left | right].
           apply Hnew.
      * intros w' st'' i Hl Hi.
        apply lookup_insert_inv in Hl as [[-> ->] | [_ Hl]].
        -- rewrite (holds_inj _ _ _ Hi Hst). lia.
        -- specialize (Hh _ _ _ Hl Hi). lia.
      * intros w' Hl.
        apply lookup_insert_inv in Hl as [[_ Hl] | [_ Hl]].
        -- subst st'. exfalso. exact (holds_not_returned _ Hst).
        -- specialize (Hret _ Hl). lia.
      * unfold turns_left. cbn [cursor workers].
        pose proof (weight_sum_insert _ _ _ st' Hw) as Hs.
        pose proof (holds_weight _ _ Hst). cbn [weight] in Hs. lia.
      * apply length_insert.
    + rewrite Heq. unfold set_worker.
      cbn [cursor results workers invoked p1] in *.
      split; [constructor; cbn [cursor results workers invoked]|split].
      * exact Hc.
      * now rewrite length_insert.
      * intros i Hi. destruct (Hu2 i Hi) as [Hd | Hnew]; [now left | right].
        apply Hnew.
      * intros w' st'' i Hl Hi.
        apply lookup_insert_inv in Hl as [[-> ->] | [_ Hl]].
        -- exfalso. exact (holds_not_returned _ Hi).
        -- exact (Hh _ _ _ Hl Hi).
      * intros w' _. lia.
      * unfold turns_left. cbn [cursor workers].
        pose proof (weight_sum_insert _ _ _ Returned Hw) as Hs.
        cbn [weight] in Hs. lia.
      * apply length_insert.
Qed.

Lemma pending_spec (p : pool R) w :
  In w (pending p) <->
  exists st, workers p !! w = Some st /\ is_pending st = true.
Proof.
  unfold pending. rewrite filter_In, in_seq. split.
  - intros [_ H]. destruct (workers p !! w) as [st|]; [eauto | discriminate].
  - intros (st & Hw & Hp). rewrite Hw. split; [|exact Hp].
    apply lookup_lt_Some in Hw. lia.
Qed.

Lemma picked_is_pending (p : pool R) w0 ws k :
  pending p = w0 :: ws ->
  In (nth (k mod List.length (w0 :: ws)) (w0 :: ws) w0) (pending p).
Proof.
  intros ->. apply nth_In. apply Nat.mod_upper_bound. discriminate.
Qed.

(** With enough turns the event loop runs until every worker has
    returned, whatever the order of resumption. *)
Lemma event_loop_spec sched fuel : forall t p,
  Inv_ p -> turns_left_ p <= fuel ->
  Inv_ (event_loop_ sched fuel t p)
  /\ pending (event_loop_ sched fuel t p) = []
  /\ List.length (workers (event_loop_ sched fuel t p)) = List.length (workers p).
Proof.
  induction fuel as [|fuel IH]; intros t p HI Ht.
  - cbn [event_loop]. split; [exact HI|]. split; [|reflexivity].
    destruct (pending p) as [|w0 ws] eqn:Hp; [reflexivity|].
    pose proof (picked_is_pending p w0 ws 0 Hp) as Hin.
    apply pending_spec in Hin as (st & Hw & Hpend).
    destruct (resume_spec p _ st HI Hw Hpend) as (_ & Hlt & _). lia.
  - cbn [event_loop]. destruct (pending p) as [|w0 ws] eqn:Hp.
    + split; [exact HI|]. split; [exact Hp | reflexivity].
    + pose proof (picked_is_pending p w0 ws (sched t) Hp) as Hin.
      apply pending_spec in Hin as (st & Hw & Hpend).
      destruct (resume_spec p _ st HI Hw Hpend) as (HI' & Hlt & Hlen).
      destruct (IH (S t) _ HI' ltac:(lia)) as (H1 & H2 & H3).
      split; [exact H1|]. split; [exact H2|]. now rewrite H3.
Qed.

(** When every worker has returned, every slot holds its unit's result. *)
Lemma all_returned_done (p : pool R) :
  Inv_ p -> pending p = [] ->
  (workers p <> [] \/ List.length items = 0) ->
  forall i x, items !! i = Some x -> results p !! i = Some (Some (mapper x i)).
Proof.
  intros [Hc Hr Hu Hh Hret] Hp Hne i x Hx.
  assert (forall w st, workers p !! w = Some st -> st = Returned) as Hall.
  { intros w st Hw. destruct st; try reflexivity; exfalso;
      (assert (In w (pending p)) as Hin
         by (apply pending_spec; eexists; split; [exact Hw | reflexivity]));
      rewrite Hp in Hin; exact Hin. }
  assert (i < List.length items) as Hi by (now apply lookup_lt_Some in Hx).
  assert (cursor p = List.length items) as Hcur.
  { destruct Hne as [Hne | H0]; [|lia].
    destruct (workers p) as [|st ws] eqn:Hws; [contradiction|].
    apply (Hret 0). cbn. f_equal. now apply (Hall 0). }
  destruct (Hu i ltac:(lia)) as [(x' & Hx' & Hd) | (w & st & Hw & Hheld)].
  - congruence.
  - rewrite (Hall _ _ Hw) in Hheld. exfalso. exact (holds_not_returned _ Hheld).
Qed.

Lemma runner_settles sched fuel n :
  1 <= n \/ List.length items = 0 ->
  2 * List.length items <= fuel ->
  exists out,
    settled (await_all (event_loop_ sched fuel 0 (spawn pacing items n start_)))
    = Some (Normal out)
    /\ List.length out = List.length items
    /\ forall i x, items !! i = Some x -> out !! i = Some (Some (mapper x i)).
Proof.
  intros Hn Hfuel.
  destruct (spawn_spec n) as (HI & Ht & Hlen).
  destruct (event_loop_spec sched fuel 0 _ HI ltac:(lia)) as (HI' & Hp & Hlen').
  exists (results (event_loop_ sched fuel 0 (spawn pacing items n start_))).
  unfold await_all. cbn [settled]. rewrite Hp. split; [reflexivity|].
  split; [apply (inv_results _ _ _ HI')|].
  apply (all_returned_done _ HI' Hp).
  destruct Hn as [Hn | H0]; [left | now right].
  intros Hnil. rewrite Hnil in Hlen'. cbn in Hlen'. lia.
Qed.
End RunnerProofs.

(** The worker count for a finite concurrency of at least one. *)
Lemma Qfloor_ge_1 q : (1 <= q)%Q -> (1 <= Qfloor q)%Z.
Proof.
  intros H. change 1%Z with (Qfloor 1). now apply Qfloor_resp_le.
Qed.

Lemma ToLength_inject z : (1 <= z)%Z -> 1 <= N.to_nat (ToLength (Num (inject_Z z))).
Proof.
  intros H. unfold ToLength. rewrite Qfloor_Z.
  assert (1 <= Z.to_N z)%N by lia.
  assert (1 <= 2 ^ 53 - 1)%N by (vm_compute; discriminate).
  lia.
Qed.

Lemma ToLength_ge_1 q : (1 <= q)%Q -> 1 <= N.to_nat (ToLength (Num q)).
Proof.
  intros H. unfold ToLength. pose proof (Qfloor_ge_1 q H).
  assert (1 <= Z.to_N (Qfloor q))%N by lia.
  assert (1 <= 2 ^ 53 - 1)%N by (vm_compute; discriminate).
  lia.
Qed.

Lemma not_le_zero q : (1 <= q)%Q -> Qle_bool q 0 = false.
Proof.
  intros H. destruct (Qle_bool q 0) eqn:E; [|reflexivity].
  apply Qle_bool_iff in E. exfalso.
  assert (1 <= 0)%Q as H0 by (eapply Qle_trans; eauto).
  revert H0. unfold Qle. cbn. lia.
Qed.

(** C1. For every list of units, every finite concurrency of at least one
    and every order in which the workers are resumed, the runner fulfils its
    promise with an array as long as the input whose element at each index
    is the handler's result for the unit at that index.  Both runners: the
    exported one of utils/concurrency.ts and the local one of
    generate-lessons.ts.  [fuel] bounds the turns of the event loop; two per
    unit are enough. *)
Theorem runner_preserves_order {T R : Type}
    (items : list T) (q : Q) (mapper : T -> nat -> R)
    (sched : nat -> nat) (fuel : nat) :
  (1 <= q)%Q ->
  2 * List.length items <= fuel ->
  (exists out,
      settled (mapWithConcurrency sched fuel items (Num q) mapper) = Some (Normal out)
      /\ List.length out = List.length items
      /\ forall i x, items !! i = Some x -> out !! i = Some (Some (mapper x i)))
  /\ (exists out,
      settled (mapWithConcurrency_lessons sched fuel items (Num q) mapper)
      = Some (Normal out)
      /\ List.length out = List.length items
      /\ forall i x, items !! i = Some x -> out !! i = Some (Some (mapper x i))).
Proof.
  intros Hq Hfuel. split.
  - unfold mapWithConcurrency. cbn [Number_isFinite negb orb num_le].
    rewrite (not_le_zero q Hq).
    destruct (List.length items =? 0)%nat eqn:Hlen.
    + apply Nat.eqb_eq in Hlen. exists []. cbn [settled].
      split; [reflexivity|]. split; [now rewrite Hlen|].
      intros i x Hx. apply lookup_lt_Some in Hx. lia.
    + apply Nat.eqb_neq in Hlen.
      apply runner_settles; [left | exact Hfuel].
      unfold Math_min, Math_floor, of_nat. cbn [num_le].
      destruct (Qle_bool _ _).
      * apply ToLength_inject. now apply Qfloor_ge_1.
      * apply ToLength_inject. lia.
  - unfold mapWithConcurrency_lessons.
    apply runner_settles; [|exact Hfuel].
    unfold Math_min, of_nat. cbn [num_le].
    destruct (Qle_bool _ _).
    + left. now apply ToLength_ge_1.
    + destruct (List.length items) as [|n]; [now right | left].
      apply ToLength_inject. lia.
Qed.

Lemma runner_preserves_order_witness :
  (exists out,
      settled (mapWithConcurrency (fun t => (2 * t + 1)%nat) 6
                 [10; 20; 30]%nat (Num (5 # 2)) (fun x i => (x + i)%nat))
      = Some (Normal out)
      /\ List.length out = 3
      /\ forall i x, [10; 20; 30]%nat !! i = Some x -> out !! i = Some (Some (x + i)%nat))
  /\ (exists out,
      settled (mapWithConcurrency_lessons (fun t => (2 * t + 1)%nat) 6
                 [10; 20; 30]%nat (Num (5 # 2)) (fun x i => (x + i)%nat))
      = Some (Normal out)
      /\ List.length out = 3
      /\ forall i x, [10; 20; 30]%nat !! i = Some x -> out !! i = Some (Some (x + i)%nat)).
Proof.
  apply (runner_preserves_order [10; 20; 30]%nat (5 # 2) (fun x i => (x + i)%nat)
           (fun t => (2 * t + 1)%nat) 6).
  - unfold Qle. cbn. lia.
  - cbn. lia.
Defined.

(** ** The retry policy *)

Section RetryProofs.
Context {A : Type}.
Variable E : Engine.
Variable fn : nat -> completion A.
Variable random : nat -> Q.
Variable maxRetries : Z.
Variable baseMs : Q.

#[local] Abbreviation failed_rounds_ := (failed_rounds random baseMs).

Lemma failed_rounds_S from k :
  failed_rounds_ from (S k)
  = [Invoke; Sleep (backoff random baseMs from)] ++ failed_rounds_ (S from) k.
Proof. reflexivity. Qed.

Lemma invocations_app a b : invocations (a ++ b) = invocations a + invocations b.
Proof. unfold invocations. now rewrite List.filter_app, length_app. Qed.

Lemma invocations_failed_rounds from k : invocations (failed_rounds_ from k) = k.
Proof.
  revert from. induction k as [|k IH]; intros from; [reflexivity|].
  rewrite failed_rounds_S, invocations_app, IH. reflexivity.
Qed.

Lemma retry_from_succeeds v k : forall d attempt remaining lastErr done,
  k = attempt + d ->
  (forall i, attempt <= i < k ->
     exists e, fn i = Throw e /\ isRateLimitError E e = true) ->
  fn k = Normal v ->
  (Z.of_nat k < maxRetries)%Z ->
  d < remaining ->
  retry_from E fn random maxRetries baseMs remaining attempt lastErr done
  = {| result := Normal v;
       events := done ++ failed_rounds_ attempt d ++ [Invoke] |}.
Proof.
  induction d as [|d IH]; intros attempt remaining lastErr done Hk Hfail Hok Hlt Hrem.
  - destruct remaining as [|remaining]; [lia|].
    assert (k = attempt) as <- by lia.
    cbn [retry_from]. rewrite Hok. reflexivity.
  - destruct remaining as [|remaining]; [lia|].
    cbn [retry_from].
    destruct (Hfail attempt ltac:(lia)) as (e & He & Hrate).
    rewrite He, Hrate.
    replace (Z.of_nat attempt <? maxRetries)%Z with true
      by (symmetry; apply Z.ltb_lt; lia).
    cbn [andb]. rewrite (IH (S attempt)); try lia; try assumption.
    + rewrite failed_rounds_S. now rewrite <- !app_assoc.
    + intros i Hi. apply Hfail. lia.
Qed.
End RetryProofs.

(** C4. An operation that fails with a rate-limit error [k] times, [k]
    below the retry limit, and then succeeds: [withRetry] returns the value
    of the success after [k + 1] invocations, and its events are [k] rounds
    of an invocation followed by a sleep, then the last invocation; no sleep
    follows the success. *)
Theorem withRetry_succeeds_after_transient_failures {A : Type}
    (E : Engine) (label : jsstring) (fn : nat -> completion A)
    (random : nat -> Q) (maxRetries : Z) (baseMs : Q) (k : nat) (v : A) :
  (forall i, i < k -> exists e, fn i = Throw e /\ isRateLimitError E e = true) ->
  fn k = Normal v ->
  (Z.of_nat k < maxRetries)%Z ->
  let r := withRetry E fn random maxRetries baseMs label in
  result r = Normal v
  /\ invocations (events r) = k + 1
  /\ events r = failed_rounds random baseMs 0 k ++ [Invoke]
  /\ List.last (events r) Invoke = Invoke.
Proof.
  intros Hfail Hok Hlt r. subst r. unfold withRetry.
  rewrite (retry_from_succeeds E fn random maxRetries baseMs v k k 0); try lia;
    try assumption.
  - cbn [result events app]. split; [reflexivity|].
    split; [|split; [reflexivity|]].
    + rewrite invocations_app, invocations_failed_rounds. reflexivity.
    + apply last_last.
  - intros i Hi. apply Hfail. lia.
Qed.

(** C5. An operation whose first failure is no rate-limit error: [withRetry]
    invokes it once and throws that error; it does not sleep.  A retry limit
    that is negative would leave the loop before the first invocation. *)
Theorem withRetry_propagates_other_errors {A : Type}
    (E : Engine) (label : jsstring) (fn : nat -> completion A)
    (random : nat -> Q) (maxRetries : Z) (baseMs : Q) (e : thrown) :
  (0 <= maxRetries)%Z ->
  fn 0 = Throw e ->
  isRateLimitError E e = false ->
  withRetry E fn random maxRetries baseMs label
  = {| result := Throw e; events := [Invoke] |}.
Proof.
  intros Hmax Hfn He. unfold withRetry.
  destruct (Z.to_nat (maxRetries + 1)) as [|n] eqn:Hn; [lia|].
  cbn [retry_from]. rewrite Hfn, He, andb_false_r. reflexivity.
Qed.

Lemma withRetry_succeeds_after_transient_failures_witness :
  let r := withRetry exampleEngine flaky (fun _ => 0%Q) 6 5000 (js "unit") in
  result r = Normal 7
  /\ invocations (events r) = 3
  /\ events r = failed_rounds (fun _ => 0%Q) 5000 0 2 ++ [Invoke]
  /\ List.last (events r) Invoke = Invoke.
Proof.
  apply (withRetry_succeeds_after_transient_failures exampleEngine (js "unit")
           flaky (fun _ => 0%Q) 6 5000 2 7).
  - intros i Hi. exists (ErrorObj (js "HTTP 429: Too Many Requests")).
    destruct i as [|[|i]]; [split; reflexivity | split; reflexivity | lia].
  - reflexivity.
  - lia.
Defined.

Lemma withRetry_propagates_other_errors_witness :
  withRetry exampleEngine
    (fun _ : nat => @Throw nat (ErrorObj (js "Invalid prompt"))) (fun _ => 0%Q) 6 5000
    (js "unit")
  = {| result := Throw (ErrorObj (js "Invalid prompt")); events := [Invoke] |}.
Proof.
  apply (withRetry_propagates_other_errors exampleEngine (js "unit")
           (fun _ : nat => @Throw nat (ErrorObj (js "Invalid prompt")))
           (fun _ => 0%Q) 6 5000 (ErrorObj (js "Invalid prompt"))).
  - lia.
  - reflexivity.
  - reflexivity.
Defined.

(** ** The unit handlers never throw *)

Lemma bind_Normal_inv {A B} (c : completion A) (k : A -> completion B) b :
  bind c k = Normal b -> exists a, c = Normal a /\ k a = Normal b.
Proof. destruct c as [a|e]; [eauto | discriminate]. Qed.

(** A lesson built from a response carries the number and the title of its
    subsection; so does the fallback lesson. *)
Lemma buildLesson_identity E chapter subsection parsed lesson :
  buildLesson E chapter subsection parsed = Normal lesson ->
  sectionNumber lesson = number subsection
  /\ sectionTitle lesson = title subsection.
Proof.
  unfold buildLesson. intros H.
  repeat (apply bind_Normal_inv in H as (? & _ & H)).
  injection H as <-. split; reflexivity.
Qed.

Section RunJsonProofs.
Context {T : Type}.
Variable E : Engine.
Variable config : RuntimeConfig.
Variable request : JsonAgentRequest T.
Variable service : nat -> completion GenerateTextResult.

#[local] Abbreviation primary_ := (primary E request service).

Lemma attempt_once_primary attempt r :
  attempt_once E config request service attempt = Normal r -> primary_ r.
Proof.
  unfold attempt_once. intros H.
  apply bind_Normal_inv in H as (gen & Hgen & H).
  apply bind_Normal_inv in H as (value & Hvalue & H).
  apply bind_Normal_inv in H as (parsed & Hparsed & H).
  injection H as <-. split; [reflexivity|]. cbn [data]. eauto 6.
Qed.


End RunJsonProofs.

(** On a subsection of the declared type the handler on stored
    subsections is [generateLesson]. *)
Lemma storedFallbackDrills_strings E (ms : list jsstring) :
  mapM (storedFallbackDrill E) (List.map JString ms)
  = Normal (List.map (fallbackDrill E) ms).
Proof.
  induction ms as [|m ms IH]; [reflexivity|].
  cbn [List.map mapM storedFallbackDrill bind]. now rewrite IH.
Qed.

Lemma storedFallbackLesson_declared E chapter sub :
  storedFallbackLesson E chapter (stored sub) = Normal (fallbackLesson E chapter sub).
Proof.
  unfold storedFallbackLesson, stored. cbn [ss_memorizeables].
  now rewrite storedFallbackDrills_strings.
Qed.

Lemma generateLesson_stored_declared E MAX service random chapter sub idx total :
  generateLesson_stored E MAX service random chapter (stored sub) idx total
  = generateLesson E MAX service random chapter sub idx total.
Proof.
  unfold generateLesson_stored, generateLesson, try_catch.
  change (lessonLabel chapter (declared_part (stored sub)) idx)
    with (lessonLabel chapter sub idx).
  destruct (result (withRetry E service random MAX INITIAL_BACKOFF_MS
                      (lessonLabel chapter sub idx))) as [text|e];
    cbn [bind]; [|apply storedFallbackLesson_declared].
  destruct (parseJsonResponse E (trim text)) as [parsed|e];
    cbn [bind]; [|apply storedFallbackLesson_declared].
  change (buildLesson E chapter (declared_part (stored sub)) parsed)
    with (buildLesson E chapter sub parsed).
  destruct (buildLesson E chapter sub parsed); [reflexivity|].
  apply storedFallbackLesson_declared.
Qed.






Example generateLesson_ex1 :
  exists lesson,
    generateLesson exampleEngine 6 answering (fun _ => 0%Q) exampleChapter
      (exampleSubsection "3-2" "Shear Force") 1 3 = Normal lesson
    /\ instructionalText lesson = JString (js "Use \sigma = F/A")
    /\ sectionNumber lesson = Some (js "3-2").
Proof. eexists. split; [vm_compute; reflexivity|]. split; reflexivity. Qed.

Example fallbackLesson_ex1 :
  memorizeableDrills (fallbackLesson exampleEngine exampleChapter
                        (exampleSubsection "3-2" "Shear Force"))
  = [{| md_prompt := JString (js "What is the formula: sigma = F / A...?");
        md_answer := JString (js "sigma = F / A");
        md_category := JString (js "formula") |}].
Proof. vm_compute. reflexivity. Qed.

Example runJson_ex1 :
  runJson exampleEngine exampleConfig exampleRequest rateLimited
  = Normal {| data := 0;
              trace := {| trace_stage := js "lesson_generation";
                          trace_agentName := js "lesson-agent";
                          trace_mode := live; trace_model := js "model";
                          attemptCount := Math_max_Q 1 (2 + 1);
                          inputTokens := 0; outputTokens := 0;
                          fallbackUsed := true;
                          errorMessage := Some (js "HTTP 429: Too Many Requests") |};
              rawText := [] |}.
Proof. reflexivity. Qed.

Example runJson_ex2 :
  exists r,
    runJson exampleEngine exampleConfig exampleRequest
      (fun attempt =>
         if (attempt <? 2)%nat then rateLimited attempt
         else Normal {| text := jsq "Here you go: ```json {'ok': true} ```";
                        usageInputTokens := Some 12; usageOutputTokens := None |})
    = Normal r
    /\ data r = 1 /\ fallbackUsed (trace r) = false
    /\ attemptCount (trace r) = 2%Q /\ inputTokens (trace r) = 12.
Proof. eexists. split; [vm_compute; reflexivity|]. repeat split. Qed.

(** ** Resume and merge *)

Lemma generateLesson_identity E MAX service random chapter sub idx total r :
  generateLesson E MAX service random chapter sub idx total = Normal r ->
  lessonKey r = subsectionKey sub.
Proof.
  unfold generateLesson, try_catch. intros H.
  assert (sectionNumber r = number sub /\ sectionTitle r = title sub) as [Hn Ht].
  { destruct (bind _ _) as [l|e] eqn:Hb.
    - injection H as <-.
      apply bind_Normal_inv in Hb as (text & _ & Hb).
      apply bind_Normal_inv in Hb as (parsed & _ & Hb).
      eapply buildLesson_identity; eauto.
    - injection H as <-. split; reflexivity. }
  unfold lessonKey, subsectionKey. now rewrite Hn, Ht.
Qed.

(** The map built from the retried lessons, read at a key. *)
Lemma retried_fold_other (k : jsstring) (l : list GeneratedLesson) :
  forall m : gmap jsstring GeneratedLesson,
  (forall r, In r l -> lessonKey r <> k) ->
  fold_left (fun m rl => <[lessonKey rl := rl]> m) l m !! k = m !! k.
Proof.
  induction l as [|a l IH]; intros m Hk; [reflexivity|].
  cbn [fold_left]. rewrite IH by (intros r Hr; apply Hk; now right).
  apply lookup_insert_ne. apply Hk. now left.
Qed.

Lemma retriedMap_other k l :
  (forall r, In r l -> lessonKey r <> k) -> retriedMap l !! k = None.
Proof. intros H. unfold retriedMap. now rewrite retried_fold_other. Qed.

Lemma retriedMap_last l r : retriedMap (l ++ [r]) !! lessonKey r = Some r.
Proof.
  unfold retriedMap. rewrite fold_left_app. cbn [fold_left].
  apply lookup_insert_eq.
Qed.

Lemma subsToRetry_one chapter lf sub :
  In sub (subsToRetry chapter [lf]) <->
  In sub (subsections chapter) /\ subsectionKey sub = lessonKey lf.
Proof.
  unfold subsToRetry, failedSectionIds. rewrite filter_In, bool_decide_eq_true.
  cbn [List.map list_to_set].
  rewrite elem_of_union, elem_of_singleton, elem_of_empty. tauto.
Qed.

Lemma Forall2_right_In {A B} (P : A -> B -> Prop) l k :
  Forall2 P l k -> forall b, In b k -> exists a, In a l /\ P a b.
Proof.
  induction 1 as [|a b l k Hab _ IH]; intros b' Hb; [contradiction|].
  destruct Hb as [<- | Hb].
  - exists a. split; [now left | exact Hab].
  - destruct (IH b' Hb) as (a' & Ha' & HP). exists a'. split; [now right | exact HP].
Qed.

(** C6. A chapter of the checkpoint with three lessons of which exactly one,
    [lf] at index [j], is marked as fallback, and whose key no other of the
    three shares.  The chapter is classified for retry with exactly the
    subsections of that key; and when these have been regenerated, the merge
    keeps the two other lessons as they are and puts the new lesson in the
    place of the fallback one. *)
Theorem resume_replaces_only_the_fallback_lesson
    (E : Engine) (MAX_RETRIES : Z) (chapter : ChapterBreakdown)
    (existing : ChapterLessons) (l1 l2 l3 lf : GeneratedLesson) (j : nat)
    (retriedLessons : list GeneratedLesson) :
  lessons existing = [l1; l2; l3] ->
  [l1; l2; l3] !! j = Some lf ->
  (forall i l, [l1; l2; l3] !! i = Some l ->
     isFallbackLesson E l = Normal (bool_decide (i = j))) ->
  (forall i l, [l1; l2; l3] !! i = Some l -> i <> j -> lessonKey l <> lessonKey lf) ->
  (exists sub, In sub (subsections chapter) /\ subsectionKey sub = lessonKey lf) ->
  Forall2 (fun sub r => exists service random idx total,
             generateLesson E MAX_RETRIES service random chapter sub idx total
             = Normal r)
          (subsToRetry chapter [lf]) retriedLessons ->
  classify E chapter (Some existing) = Normal (RetryOnly (subsToRetry chapter [lf]))
  /\ (forall sub, In sub (subsToRetry chapter [lf]) <->
        In sub (subsections chapter) /\ subsectionKey sub = lessonKey lf)
  /\ exists r, last retriedLessons = Some r
       /\ mergedLessons existing retriedLessons = <[j := r]> [l1; l2; l3].
Proof.
  intros Hex Hj Hfb Hkeys (sub0 & Hsub0 & Hkey0) Hretried.
  assert (failedLessons E existing = Normal [lf]) as Hfailed.
  { unfold failedLessons. rewrite Hex. cbn [filterM].
    rewrite (Hfb 0 l1 eq_refl), (Hfb 1 l2 eq_refl), (Hfb 2 l3 eq_refl).
    destruct j as [|[|[|j]]]; try discriminate Hj;
      injection Hj as <-; reflexivity. }
  split; [|split].
  - unfold classify. rewrite Hfailed. reflexivity.
  - intros sub. apply subsToRetry_one.
  - assert (forall r, In r retriedLessons -> lessonKey r = lessonKey lf) as Hall.
    { intros r Hr.
      destruct (Forall2_right_In _ _ _ Hretried r Hr)
        as (sub & Hsub & (service & random & idx & total & Hgen)).
      apply generateLesson_identity in Hgen. apply subsToRetry_one in Hsub.
      destruct Hsub as [_ Hsub]. congruence. }
    assert (retriedLessons <> []) as Hne.
    { intros ->. apply Forall2_length in Hretried.
      assert (In sub0 (subsToRetry chapter [lf])) as Hin
        by (apply subsToRetry_one; auto).
      destruct (subsToRetry chapter [lf]); [contradiction | discriminate]. }
    destruct (exists_last Hne) as (rs & r & ->).
    exists r. split; [apply last_snoc|].
    assert (lessonKey r = lessonKey lf) as Hr
      by (apply Hall, in_or_app; right; now left).
    assert (forall i l, [l1; l2; l3] !! i = Some l -> i <> j ->
              retriedMap (rs ++ [r]) !! lessonKey l = None) as Hother.
    { intros i l Hl Hij. apply retriedMap_other. intros r' Hr'.
      rewrite (Hall r' Hr'). intros Heq. now apply (Hkeys i l Hl Hij). }
    assert (retriedMap (rs ++ [r]) !! lessonKey lf = Some r) as Hthis
      by (rewrite <- Hr; apply retriedMap_last).
    unfold mergedLessons. rewrite Hex. cbn [List.map].
    destruct j as [|[|[|j]]]; try discriminate Hj; injection Hj as <-.
    + rewrite Hthis, (Hother 1 l2 eq_refl ltac:(lia)),
        (Hother 2 l3 eq_refl ltac:(lia)). reflexivity.
    + rewrite Hthis, (Hother 0 l1 eq_refl ltac:(lia)),
        (Hother 2 l3 eq_refl ltac:(lia)). reflexivity.
    + rewrite Hthis, (Hother 0 l1 eq_refl ltac:(lia)),
        (Hother 1 l2 eq_refl ltac:(lia)). reflexivity.
Qed.

Lemma resume_replaces_only_the_fallback_lesson_witness :
  classify exampleEngine exampleChapter (Some exampleExisting)
  = Normal (RetryOnly [exampleSubsection "3-2" "Shear Force"])
  /\ mergedLessons exampleExisting [regenerated]
     = [storedLesson "3-1" "Equilibrium" "Forces balance.";
        regenerated;
        storedLesson "3-3" "Singularity Functions" "Macaulay brackets."].
Proof.
  assert (subsToRetry exampleChapter
            [storedLesson "3-2" "Shear Force" "This section covers: stress; strain."]
          = [exampleSubsection "3-2" "Shear Force"]) as Hsubs
    by (vm_compute; reflexivity).
  destruct (resume_replaces_only_the_fallback_lesson exampleEngine 6 exampleChapter
              exampleExisting
              (storedLesson "3-1" "Equilibrium" "Forces balance.")
              (storedLesson "3-2" "Shear Force" "This section covers: stress; strain.")
              (storedLesson "3-3" "Singularity Functions" "Macaulay brackets.")
              (storedLesson "3-2" "Shear Force" "This section covers: stress; strain.")
              1 [regenerated])
    as (Hclass & _ & (r & Hlast & Hmerged)).
  - reflexivity.
  - reflexivity.
  - intros i l H. destruct i as [|[|[|i]]]; try discriminate H;
      injection H as <-; vm_compute; reflexivity.
  - intros i l H Hi Heq. destruct i as [|[|[|i]]]; try discriminate H;
      try lia; injection H as <-; vm_compute in Heq; discriminate Heq.
  - exists (exampleSubsection "3-2" "Shear Force"). split.
    + cbn. auto.
    + vm_compute. reflexivity.
  - rewrite Hsubs. constructor; [|constructor].
    exists answering, (fun _ => 0%Q), 0, 1. vm_compute. reflexivity.
  - rewrite Hsubs in Hclass. split; [exact Hclass|].
    injection Hlast as <-. exact Hmerged.
Defined.

(** ** The guard on the concurrency *)

(** The exported runner rejects a concurrency that is not finite or not
    above zero before anything else, and returns at once on no units. *)
Lemma exported_runner_guard {T R : Type} (sched : nat -> nat) (fuel : nat)
    (items : list T) (concurrency : jsnumber) (mapper : T -> nat -> R) :
  (Number_isFinite concurrency = false \/ num_le concurrency (Num 0) = true ->
   mapWithConcurrency sched fuel items concurrency mapper
   = {| settled := Some (Throw (ErrorObj (js "Concurrency must be a positive number.")));
        handler_calls := []; spawned := 0 |})
  /\ (Number_isFinite concurrency = true -> num_le concurrency (Num 0) = false ->
      mapWithConcurrency sched fuel [] concurrency mapper
      = {| settled := Some (Normal []); handler_calls := []; spawned := 0 |}).
Proof.
  unfold mapWithConcurrency. split.
  - intros [H | H]; rewrite H; [reflexivity | now rewrite orb_true_r].
  - intros H1 H2. rewrite H1, H2. reflexivity.
Qed.

(** The local runner of generate-lessons.ts spawns no worker on no units. *)
Lemma lessons_runner_no_units {R : Type} (sched : nat -> nat) (fuel : nat)
    (q : Q) (mapper : nat -> nat -> R) :
  (1 <= q)%Q ->
  mapWithConcurrency_lessons sched fuel [] (Num q) mapper
  = {| settled := Some (Normal []); handler_calls := []; spawned := 0 |}.
Proof.
  intros Hq. unfold mapWithConcurrency_lessons, Math_min, of_nat.
  cbn [List.length num_le]. change (inject_Z (Z.of_nat 0)) with 0%Q.
  rewrite (not_le_zero q Hq). destruct fuel; reflexivity.
Qed.

(** C9, at a concurrency of zero, of minus one, of NaN and of the two
    infinities, on two units.  The exported runner throws before any handler
    is invoked.  The local runner of generate-lessons.ts has no such guard:
    on the first four it spawns no worker, invokes no handler, and fulfils
    its promise with an array of two holes; on plus infinity it runs the
    units. *)
Theorem lessons_runner_accepts_invalid_concurrency :
  let run_exported c :=
    mapWithConcurrency (fun t => t) 4 [10; 20]%nat c (fun x i => (x + i)%nat) in
  let run_lessons c :=
    mapWithConcurrency_lessons (fun t => t) 4 [10; 20]%nat c (fun x i => (x + i)%nat) in
  let thrown_ :=
    {| settled := Some (Throw (ErrorObj (js "Concurrency must be a positive number.")));
       handler_calls := []; spawned := 0 |} in
  let holes :=
    {| settled := Some (Normal [None; None]); handler_calls := []; spawned := 0 |} in
  (run_exported (Num 0) = thrown_ /\ run_lessons (Num 0) = holes)
  /\ (run_exported (Num (-1)) = thrown_ /\ run_lessons (Num (-1)) = holes)
  /\ (run_exported NaN = thrown_ /\ run_lessons NaN = holes)
  /\ (run_exported NegInf = thrown_ /\ run_lessons NegInf = holes)
  /\ (run_exported PosInf = thrown_
      /\ settled (run_lessons PosInf) = Some (Normal [Some 10; Some 21]%nat)).
Proof. vm_compute. repeat split. Qed.

(** * Further properties of the code *)

(** ** The retry loop in general *)

Section RetryMore.
Context {A : Type}.
Variable E : Engine.
Variable fn : nat -> completion A.
Variable random : nat -> Q.
Variable maxRetries : Z.
Variable baseMs : Q.

#[local] Abbreviation rounds_ := (failed_rounds random baseMs).
#[local] Abbreviation retry_from_ := (retry_from E fn random maxRetries baseMs).

(** From any round within the limit on, the loop ends after some further
    rounds that failed with a rate-limit error, with an invocation whose
    completion is the result. *)
Lemma retry_from_shape : forall remaining attempt lastErr done,
  remaining = Z.to_nat (maxRetries + 1 - Z.of_nat attempt) ->
  1 <= remaining ->
  exists d,
    (Z.of_nat (attempt + d) <= maxRetries)%Z
    /\ events (retry_from_ remaining attempt lastErr done)
       = done ++ rounds_ attempt d ++ [Invoke]
    /\ result (retry_from_ remaining attempt lastErr done) = fn (attempt + d)
    /\ forall i, attempt <= i < attempt + d ->
         exists e, fn i = Throw e /\ isRateLimitError E e = true.
Proof.
  induction remaining as [|remaining IH]; intros attempt lastErr done Hrem Hpos; [lia|].
  cbn [retry_from].
  destruct (fn attempt) as [v|err] eqn:Hfn.
  - exists 0. rewrite Nat.add_0_r. cbn [events result].
    split; [lia|]. split; [reflexivity|]. split; [now rewrite Hfn | lia].
  - destruct ((Z.of_nat attempt <? maxRetries)%Z && isRateLimitError E err) eqn:Hc.
    + apply andb_true_iff in Hc as [Hlt Hrate]. apply Z.ltb_lt in Hlt.
      destruct (IH (S attempt) err (done ++ [Invoke; Sleep (backoff random baseMs attempt)])
                  ltac:(lia) ltac:(lia)) as (d & Hd & Hev & Hres & Hfail).
      exists (S d). replace (attempt + S d) with (S attempt + d) by lia.
      split; [exact Hd|]. split; [|split; [exact Hres|]].
      * rewrite Hev, failed_rounds_S. now rewrite <- !app_assoc.
      * intros i Hi. destruct (decide (i = attempt)) as [-> | Hne].
        -- exists err. auto.
        -- apply Hfail. lia.
    + exists 0. rewrite Nat.add_0_r. cbn [events result].
      split; [lia|]. split; [reflexivity|]. split; [now rewrite Hfn | lia].
Qed.

Lemma retry_from_S remaining attempt lastErr done :
  retry_from_ (S remaining) attempt lastErr done
  = match fn attempt with
    | Normal v => {| result := Normal v; events := done ++ [Invoke] |}
    | Throw err =>
        if (Z.of_nat attempt <? maxRetries)%Z && isRateLimitError E err
        then retry_from_ remaining (S attempt) err
               (done ++ [Invoke; Sleep (backoff random baseMs attempt)])
        else {| result := Throw err; events := done ++ [Invoke] |}
    end.
Proof. reflexivity. Qed.

Lemma retry_from_exhausts : forall d attempt lastErr done,
  maxRetries = Z.of_nat (attempt + d) ->
  (forall i, exists e, fn i = Throw e /\ isRateLimitError E e = true) ->
  retry_from_ (S d) attempt lastErr done
  = {| result := fn (attempt + d);
       events := done ++ rounds_ attempt d ++ [Invoke] |}.
Proof.
  induction d as [|d IH]; intros attempt lastErr done Hmax Hfail;
    rewrite retry_from_S; destruct (Hfail attempt) as (e & He & Hrate); rewrite He, Hrate.
  - replace (Z.of_nat attempt <? maxRetries)%Z with false
      by (symmetry; apply Z.ltb_ge; lia).
    cbn [andb]. rewrite Nat.add_0_r, He. reflexivity.
  - replace (Z.of_nat attempt <? maxRetries)%Z with true
      by (symmetry; apply Z.ltb_lt; lia).
    cbn [andb]. rewrite (IH (S attempt)) by (lia || assumption).
    replace (S attempt + d) with (attempt + S d) by lia.
    rewrite failed_rounds_S. now rewrite <- !app_assoc.
Qed.
End RetryMore.

(** X1. An operation that fails with a rate-limit error every time: with a
    retry limit [R >= 0], [withRetry] invokes it [R + 1] times, sleeps after
    each invocation but the last, and throws what the last invocation
    threw. *)
Theorem withRetry_exhausts_retries {A : Type}
    (E : Engine) (label : jsstring) (fn : nat -> completion A)
    (random : nat -> Q) (maxRetries : Z) (baseMs : Q) :
  (0 <= maxRetries)%Z ->
  (forall i, exists e, fn i = Throw e /\ isRateLimitError E e = true) ->
  let r := withRetry E fn random maxRetries baseMs label in
  result r = fn (Z.to_nat maxRetries)
  /\ (exists e, result r = Throw e)
  /\ events r = failed_rounds random baseMs 0 (Z.to_nat maxRetries) ++ [Invoke]
  /\ invocations (events r) = Z.to_nat maxRetries + 1.
Proof.
  intros Hmax Hfail r. subst r. unfold withRetry.
  replace (Z.to_nat (maxRetries + 1)) with (S (Z.to_nat maxRetries)) by lia.
  rewrite (retry_from_exhausts E fn random maxRetries baseMs (Z.to_nat maxRetries) 0)
    by (cbn; lia || assumption).
  cbn [result events app plus]. split; [reflexivity|]. split; [|split; [reflexivity|]].
  - destruct (Hfail (Z.to_nat maxRetries)) as (e & He & _). exists e. exact He.
  - rewrite invocations_app, invocations_failed_rounds. reflexivity.
Qed.

Lemma withRetry_exhausts_retries_witness :
  let r := withRetry exampleEngine (@rateLimited nat) (fun _ => 0%Q) 2 5000 (js "unit") in
  result r = Throw (ErrorObj (js "HTTP 429: Too Many Requests"))
  /\ invocations (events r) = 3.
Proof.
  destruct (withRetry_exhausts_retries exampleEngine (js "unit") (@rateLimited nat)
              (fun _ => 0%Q) 2 5000) as (Hres & _ & _ & Hinv).
  - lia.
  - intros i. exists (ErrorObj (js "HTTP 429: Too Many Requests")).
    split; reflexivity.
  - split; [exact Hres | exact Hinv].
Defined.

(** X2. Whatever the operation does: with a negative retry limit
    [withRetry] never invokes it and throws a value that is no [Error]; with
    a limit [R >= 0] it invokes it [k + 1 <= R + 1] times, each of the first
    [k] invocations failed with a rate-limit error and was followed by a
    sleep, no sleep follows the last invocation, and the result is the
    completion of the last invocation. *)
Theorem withRetry_returns_last_invocation {A : Type}
    (E : Engine) (label : jsstring) (fn : nat -> completion A)
    (random : nat -> Q) (maxRetries : Z) (baseMs : Q) :
  let r := withRetry E fn random maxRetries baseMs label in
  ((maxRetries < 0)%Z -> r = {| result := Throw NonError; events := [] |})
  /\ ((0 <= maxRetries)%Z ->
      exists k,
        (Z.of_nat k <= maxRetries)%Z
        /\ events r = failed_rounds random baseMs 0 k ++ [Invoke]
        /\ invocations (events r) = k + 1
        /\ result r = fn k
        /\ forall i, i < k -> exists e, fn i = Throw e /\ isRateLimitError E e = true).
Proof.
  intros r. subst r. unfold withRetry. split.
  - intros Hneg. replace (Z.to_nat (maxRetries + 1)) with 0 by lia. reflexivity.
  - intros Hpos.
    destruct (retry_from_shape E fn random maxRetries baseMs
                (Z.to_nat (maxRetries + 1)) 0 NonError [] ltac:(lia) ltac:(lia))
      as (k & Hk & Hev & Hres & Hfail).
    exists k. cbn [plus app] in *. split; [exact Hk|]. split; [exact Hev|].
    split; [|split; [exact Hres|]].
    + rewrite Hev, invocations_app, invocations_failed_rounds. reflexivity.
    + intros i Hi. apply Hfail. lia.
Qed.

Lemma withRetry_returns_last_invocation_witness :
  withRetry exampleEngine flaky (fun _ => 0%Q) (-1) 5000 (js "unit")
  = {| result := Throw NonError; events := [] |}
  /\ exists k, result (withRetry exampleEngine flaky (fun _ => 0%Q) 6 5000 (js "unit"))
               = flaky k.
Proof.
  destruct (withRetry_returns_last_invocation exampleEngine (js "unit") flaky
              (fun _ => 0%Q) (-1) 5000) as [Hneg _].
  destruct (withRetry_returns_last_invocation exampleEngine (js "unit") flaky
              (fun _ => 0%Q) 6 5000) as [_ Hpos].
  split; [apply Hneg; lia|].
  destruct (Hpos ltac:(lia)) as (k & _ & _ & _ & Hres & _).
  exists k. exact Hres.
Defined.

(** ** The delays asked for *)








(** ** Resume and merge in general *)

Lemma retried_fold_key (l : list GeneratedLesson) :
  forall m : gmap jsstring GeneratedLesson,
  (forall k r, m !! k = Some r -> lessonKey r = k) ->
  forall k r, fold_left (fun m rl => <[lessonKey rl := rl]> m) l m !! k = Some r ->
              lessonKey r = k /\ (In r l \/ m !! k = Some r).
Proof.
  induction l as [|a l IH]; intros m Hm k r H.
  - split; [eapply Hm; eauto | now right].
  - cbn [fold_left] in H. apply IH in H.
    + destruct H as [Hk [Hin | Hl]]; split; auto.
      * left. now right.
      * destruct (decide (lessonKey a = k)) as [Heq | Hne].
        -- rewrite <- Heq, lookup_insert_eq in Hl. injection Hl as <-.
           left. now left.
        -- rewrite lookup_insert_ne in Hl by exact Hne. now right.
    + intros k' r' H'. destruct (decide (lessonKey a = k')) as [Heq | Hne].
      * rewrite <- Heq, lookup_insert_eq in H'. now injection H' as <-.
      * rewrite lookup_insert_ne in H' by exact Hne. eapply Hm; eauto.
Qed.

Lemma retriedMap_Some l k r :
  retriedMap l !! k = Some r -> lessonKey r = k /\ In r l.
Proof.
  intros H. apply retried_fold_key in H.
  - destruct H as [Hk [Hin | Hl]]; [auto | now rewrite lookup_empty in Hl].
  - intros k' r' H'. now rewrite lookup_empty in H'.
Qed.

Lemma retried_fold_hit (l : list GeneratedLesson) :
  forall (m : gmap jsstring GeneratedLesson) k,
  is_Some (m !! k) \/ In k (List.map lessonKey l) ->
  is_Some (fold_left (fun m rl => <[lessonKey rl := rl]> m) l m !! k).
Proof.
  induction l as [|a l IH]; intros m k H.
  - destruct H as [H | []]. exact H.
  - cbn [fold_left]. apply IH.
    destruct (decide (lessonKey a = k)) as [Heq | Hne].
    + left. rewrite <- Heq, lookup_insert_eq. eauto.
    + rewrite lookup_insert_ne by exact Hne.
      destruct H as [H | [H | H]]; [now left | contradiction | now right].
Qed.

Lemma retriedMap_hit l r :
  In r l -> is_Some (retriedMap l !! lessonKey r).
Proof.
  intros Hin. apply retried_fold_hit. right. now apply in_map.
Qed.

Lemma map_lookup {A B} (f : A -> B) (l : list A) (i : nat) :
  List.map f l !! i = option_map f (l !! i).
Proof.
  revert i. induction l as [|a l IH]; intros [|i]; cbn; auto.
Qed.

Lemma lookup_In {A} (l : list A) i (x : A) : l !! i = Some x -> In x l.
Proof.
  revert i. induction l as [|a l IH]; intros [|i] H; try discriminate H.
  - injection H as <-. now left.
  - right. exact (IH i H).
Qed.

(** X4. The merge keeps the layout of the stored chapter: it returns as
    many lessons, with the same keys at the same places; a stored lesson
    whose key no retried lesson has is kept as it is, one whose key some
    retried lesson has is replaced by a retried lesson of that key; and a
    retried lesson whose key no stored lesson has is dropped. *)
Theorem mergedLessons_keeps_layout
    (existing : ChapterLessons) (retriedLessons : list GeneratedLesson) :
  let merged := mergedLessons existing retriedLessons in
  List.length merged = List.length (lessons existing)
  /\ List.map lessonKey merged = List.map lessonKey (lessons existing)
  /\ (forall i e, lessons existing !! i = Some e ->
        (forall r, In r retriedLessons -> lessonKey r <> lessonKey e) ->
        merged !! i = Some e)
  /\ (forall i e, lessons existing !! i = Some e ->
        (exists r, In r retriedLessons /\ lessonKey r = lessonKey e) ->
        exists r, In r retriedLessons /\ lessonKey r = lessonKey e
                  /\ merged !! i = Some r)
  /\ (forall r, In r retriedLessons ->
        (forall e, In e (lessons existing) -> lessonKey e <> lessonKey r) ->
        ~ In r merged).
Proof.
  intros merged. subst merged. unfold mergedLessons.
  split; [apply length_map|]. split; [|split; [|split]].
  - rewrite List.map_map. apply map_ext. intros e.
    destruct (retriedMap retriedLessons !! lessonKey e) as [r|] eqn:Hl; [|reflexivity].
    now apply retriedMap_Some in Hl as [Hk _].
  - intros i e He Hnone. rewrite map_lookup, He. cbn [option_map].
    now rewrite retriedMap_other.
  - intros i e He (r0 & Hr0 & Hk0). rewrite map_lookup, He. cbn [option_map].
    destruct (retriedMap_hit retriedLessons r0 Hr0) as [r Hr].
    rewrite Hk0 in Hr. rewrite Hr. apply retriedMap_Some in Hr as [Hk Hin].
    exists r. auto.
  - intros r Hr Hnew Hin. apply in_map_iff in Hin as (e & He & Hin).
    destruct (retriedMap retriedLessons !! lessonKey e) as [r'|] eqn:Hl.
    + subst r'. apply retriedMap_Some in Hl as [Hk _].
      now apply (Hnew e Hin).
    + subst e. now apply (Hnew r Hin).
Qed.

Lemma mergedLessons_keeps_layout_witness :
  List.length (mergedLessons exampleExisting [regenerated]) = 3
  /\ mergedLessons exampleExisting [regenerated] !! 0
     = Some (storedLesson "3-1" "Equilibrium" "Forces balance.").
Proof.
  destruct (mergedLessons_keeps_layout exampleExisting [regenerated])
    as (Hlen & _ & Hkeep & _).
  split; [rewrite Hlen; reflexivity|].
  apply Hkeep; [reflexivity|].
  intros r [<- | []]. vm_compute. discriminate.
Defined.

(** ** Classification of a stored chapter *)

Lemma isFallbackLesson_string E l s :
  instructionalText l = JString s ->
  isFallbackLesson E l = Normal (startsWith s (js "This section covers:")).
Proof. unfold isFallbackLesson. now intros ->. Qed.

Lemma isFallbackLesson_other E l :
  (forall s, instructionalText l <> JString s) ->
  exists e, isFallbackLesson E l = Throw e.
Proof.
  unfold isFallbackLesson. intros H.
  destruct (instructionalText l); try (eexists; reflexivity).
  now destruct (H s).
Qed.

Lemma filterM_total {A} (f : A -> completion bool) (l : list A) :
  (forall a, In a l -> exists b, f a = Normal b) ->
  filterM f l
  = Normal (List.filter (fun a => match f a with Normal b => b | Throw _ => false end) l).
Proof.
  induction l as [|a l IH]; intros H; [reflexivity|].
  cbn [filterM List.filter]. destruct (H a ltac:(now left)) as [b Hb].
  rewrite Hb, IH by (intros a' Ha'; apply H; now right).
  cbn [bind]. reflexivity.
Qed.

Lemma filterM_throws {A} (f : A -> completion bool) (l : list A) a :
  In a l -> (exists e, f a = Throw e) -> exists e, filterM f l = Throw e.
Proof.
  induction l as [|a' l IH]; intros Hin Hth; [contradiction|].
  cbn [filterM]. destruct (f a') as [b|e] eqn:Hf.
  - destruct Hin as [-> | Hin].
    + destruct Hth as [e He]. congruence.
    + destruct (IH Hin Hth) as [e He]. rewrite He. exists e. reflexivity.
  - exists e. reflexivity.
Qed.

Lemma failedLessons_total E existing :
  (forall l, In l (lessons existing) -> exists s, instructionalText l = JString s) ->
  failedLessons E existing = Normal (List.filter (flagged E) (lessons existing)).
Proof.
  intros H. unfold failedLessons. rewrite filterM_total; [reflexivity|].
  intros l Hl. destruct (H l Hl) as [s Hs]. rewrite (isFallbackLesson_string E l s Hs).
  eauto.
Qed.

Lemma flagged_true E l : flagged E l = true <-> isFallbackLesson E l = Normal true.
Proof.
  unfold flagged. destruct (isFallbackLesson E l) as [[|]|e]; split; congruence.
Qed.

Lemma subsToRetry_In chapter failed sub :
  In sub (subsToRetry chapter failed) <->
  In sub (subsections chapter)
  /\ exists l, In l failed /\ lessonKey l = subsectionKey sub.
Proof.
  unfold subsToRetry, failedSectionIds.
  rewrite filter_In, bool_decide_eq_true, elem_of_list_to_set, list_elem_of_In, in_map_iff.
  split; intros [Hsub (l & H1 & H2)]; eauto.
Qed.

(** A stored chapter all of whose lessons have a string as instructional
    text is classified without an error. *)
Lemma classify_stored E chapter existing :
  (forall l, In l (lessons existing) -> exists s, instructionalText l = JString s) ->
  exists plan,
    classify E chapter (Some existing) = Normal plan
    /\ match plan with
       | Skip =>
           forall l, In l (lessons existing) -> isFallbackLesson E l = Normal false
       | RetryOnly subs =>
           (exists l, In l (lessons existing) /\ isFallbackLesson E l = Normal true)
           /\ forall sub, In sub subs <->
                In sub (subsections chapter)
                /\ exists l, In l (lessons existing)
                             /\ isFallbackLesson E l = Normal true
                             /\ lessonKey l = subsectionKey sub
       | RunAll => False
       end.
Proof.
  intros Hstr. unfold classify. rewrite (failedLessons_total E existing Hstr).
  cbn [bind]. destruct (List.filter (flagged E) (lessons existing)) as [|f fs] eqn:Hf.
  - exists Skip. split; [reflexivity|]. intros l Hl.
    destruct (Hstr l Hl) as [s Hs]. rewrite (isFallbackLesson_string E l s Hs).
    destruct (startsWith s _) eqn:Hsw; [|reflexivity].
    assert (In l (List.filter (flagged E) (lessons existing))) as Hin.
    { apply filter_In. split; [exact Hl|]. apply flagged_true.
      now rewrite (isFallbackLesson_string E l s Hs), Hsw. }
    rewrite Hf in Hin. contradiction.
  - exists (RetryOnly (subsToRetry chapter (f :: fs))). split; [reflexivity|]. split.
    + exists f. rewrite <- flagged_true, <- filter_In, Hf. now left.
    + intros sub. rewrite subsToRetry_In, <- Hf. split.
      * intros [Hsub (l & Hl & Hk)]. apply filter_In in Hl as [Hl Hfl].
        apply flagged_true in Hfl. eauto 6.
      * intros [Hsub (l & Hl & Hfl & Hk)]. split; [exact Hsub|].
        exists l. split; [|exact Hk]. apply filter_In. split; [exact Hl|].
        now apply flagged_true.
Qed.

(** What [loadExistingLessons] keeps. *)
Lemma loaded_fold_spec (chapters : list ChapterLessons) :
  forall (m : gmap jsstring ChapterLessons) k ch,
  fold_left (fun existing ch =>
               if (0 <? List.length (lessons ch))%nat
               then <[storedChapterKey ch := ch]> existing
               else existing) chapters m !! k = Some ch ->
  (In ch chapters /\ lessons ch <> [] /\ storedChapterKey ch = k) \/ m !! k = Some ch.
Proof.
  induction chapters as [|c chapters IH]; intros m k ch H; [now right|].
  cbn [fold_left] in H. apply IH in H as [(Hin & Hne & Hk) | H].
  - left. split; [now right | auto].
  - destruct (0 <? List.length (lessons c))%nat eqn:Hlen; [|now right].
    destruct (decide (storedChapterKey c = k)) as [Heq | Hneq].
    + rewrite <- Heq, lookup_insert_eq in H. injection H as <-.
      left. split; [now left|]. split; [|exact Heq].
      intros Hnil. rewrite Hnil in Hlen. discriminate Hlen.
    + rewrite lookup_insert_ne in H by exact Hneq. now right.
Qed.

Lemma loaded_has_lessons data k ch :
  loadExistingLessons data !! k = Some ch ->
  lessons ch <> [] /\ storedChapterKey ch = k
  /\ exists chapters, data = Some chapters /\ In ch chapters.
Proof.
  unfold loadExistingLessons. destruct data as [chapters|].
  - intros H. apply loaded_fold_spec in H as [(Hin & Hne & Hk) | H].
    + split; [exact Hne|]. split; [exact Hk|]. eauto.
    + now rewrite lookup_empty in H.
  - intros H. now rewrite lookup_empty in H.
Qed.

(** X5. Of the checkpoint, a chapter is loaded only when it has a lesson.
    For a chapter with subsections: when the checkpoint holds no chapter of
    its key with a lesson (a chapter stored without lessons included), every
    subsection is run; when a stored chapter was loaded for it, all of whose
    lessons have a string as instructional text, the chapter is classified
    without an error, it is skipped exactly when no lesson is flagged as
    fallback, and otherwise the subsections to retry are those subsections
    whose key is the key of some flagged lesson. *)
Theorem classify_selects_flagged_keys
    (E : Engine) (chapter : ChapterBreakdown) (data : option (list ChapterLessons)) :
  subsections chapter <> [] ->
  ((forall chapters ch, data = Some chapters -> In ch chapters ->
      storedChapterKey ch = chapterKey chapter -> lessons ch = []) ->
   planFor E data chapter = Normal RunAll)
  /\ forall existing,
       loadExistingLessons data !! chapterKey chapter = Some existing ->
       lessons existing <> []
       /\ ((forall l, In l (lessons existing) ->
              exists s, instructionalText l = JString s) ->
           exists plan,
             planFor E data chapter = Normal plan
             /\ match plan with
                | Skip =>
                    forall l, In l (lessons existing) ->
                              isFallbackLesson E l = Normal false
                | RetryOnly subs =>
                    (exists l, In l (lessons existing)
                               /\ isFallbackLesson E l = Normal true)
                    /\ forall sub, In sub subs <->
                         In sub (subsections chapter)
                         /\ exists l, In l (lessons existing)
                                      /\ isFallbackLesson E l = Normal true
                                      /\ lessonKey l = subsectionKey sub
                | RunAll => False
                end).
Proof.
  intros _. unfold planFor. split.
  - intros Hnone.
    destruct (loadExistingLessons data !! chapterKey chapter) as [ch|] eqn:Hl;
      [|reflexivity].
    apply loaded_has_lessons in Hl as (Hne & Hk & chapters & Hd & Hin).
    now destruct (Hne (Hnone chapters ch Hd Hin Hk)).
  - intros existing Hl. rewrite Hl.
    split; [now apply loaded_has_lessons in Hl|].
    apply classify_stored.
Qed.

Lemma classify_selects_flagged_keys_witness :
  (exists plan,
      planFor exampleEngine (Some [exampleExisting]) exampleChapter = Normal plan
      /\ plan <> RunAll)
  /\ planFor exampleEngine
       (Some [{| cl_chapterNumber := Some (js "3");
                 cl_chapterTitle := js "Load and Stress";
                 cl_summary := js "Stress analysis."; lessons := [] |}])
       exampleChapter
     = Normal RunAll.
Proof.
  split.
  - destruct (classify_selects_flagged_keys exampleEngine exampleChapter
                (Some [exampleExisting])) as [_ Hloaded]; [discriminate|].
    destruct (Hloaded exampleExisting) as [_ Hplan]; [vm_compute; reflexivity|].
    destruct Hplan as (plan & Hplan & Hspec).
    + intros l Hl. cbn in Hl. destruct Hl as [<- | [<- | [<- | []]]]; eexists; reflexivity.
    + exists plan. split; [exact Hplan|]. intros ->. exact Hspec.
  - apply (classify_selects_flagged_keys exampleEngine exampleChapter); [discriminate|].
    intros chapters ch Hd Hin _. injection Hd as <-.
    destruct Hin as [<- | []]. reflexivity.
Defined.

Lemma startsWith_app p s : startsWith (p ++ s) p = true.
Proof.
  unfold startsWith. induction p as [|c p IH]; [reflexivity|].
  cbn [app strip_prefix]. unfold char_eqb. rewrite N.eqb_refl. exact IH.
Qed.

Lemma fallbackLesson_flagged E chapter sub :
  isFallbackLesson E (fallbackLesson E chapter sub) = Normal true.
Proof.
  unfold isFallbackLesson, fallbackLesson. cbn [instructionalText].
  apply (f_equal Normal).
  exact (startsWith_app (js "This section covers:")
           (js " " ++ join (js "; ") (keyConcepts sub) ++ js ".")).
Qed.

Lemma isFallbackLesson_Normal_inv E l b :
  isFallbackLesson E l = Normal b -> exists s, instructionalText l = JString s.
Proof.
  unfold isFallbackLesson. destruct (instructionalText l); try discriminate. eauto.
Qed.

Lemma isFallbackLesson_Throw_inv E l e :
  isFallbackLesson E l = Throw e -> forall s, instructionalText l <> JString s.
Proof.
  unfold isFallbackLesson. intros H s Hs. rewrite Hs in H. discriminate H.
Qed.

Lemma filterM_Normal_inv {A} (f : A -> completion bool) (l : list A) r :
  filterM f l = Normal r -> forall a, In a l -> exists b, f a = Normal b.
Proof.
  revert r. induction l as [|x l IH]; intros r H a Ha; [contradiction|].
  cbn [filterM] in H. destruct (f x) as [b|e] eqn:Hx; [|discriminate H].
  cbn [bind] in H. destruct (filterM f l) as [r'|e]; [|discriminate H].
  destruct Ha as [<- | Ha]; [eauto | exact (IH r' eq_refl a Ha)].
Qed.

Lemma filterM_Throw_inv {A} (f : A -> completion bool) (l : list A) e :
  filterM f l = Throw e -> exists a, In a l /\ f a = Throw e.
Proof.
  induction l as [|x l IH]; intros H; [discriminate H|].
  cbn [filterM] in H. destruct (f x) as [b|e'] eqn:Hx.
  - cbn [bind] in H. destruct (filterM f l) as [r'|e'] eqn:Hl; [discriminate H|].
    injection H as ->. destruct (IH eq_refl) as (a & Ha & Hf).
    exists a. split; [now right | exact Hf].
  - injection H as ->. exists x. split; [now left | exact Hx].
Qed.

(** With strings as instructional texts, a stored chapter that holds the
    fallback lesson of a subsection is classified for retry, that
    subsection included. *)
Lemma classify_with_fallback E chapter sub existing :
  In sub (subsections chapter) ->
  In (fallbackLesson E chapter sub) (lessons existing) ->
  (forall l, In l (lessons existing) -> exists s, instructionalText l = JString s) ->
  exists subs, classify E chapter (Some existing) = Normal (RetryOnly subs)
               /\ In sub subs.
Proof.
  intros Hsub Hin Hstr.
  unfold classify. rewrite (failedLessons_total E existing Hstr). cbn [bind].
  assert (In (fallbackLesson E chapter sub)
             (List.filter (flagged E) (lessons existing))) as Hf
    by (apply filter_In; split;
        [exact Hin | apply flagged_true, fallbackLesson_flagged]).
  destruct (List.filter (flagged E) (lessons existing)) as [|f fs] eqn:Hfs;
    [contradiction|].
  exists (subsToRetry chapter (f :: fs)). split; [reflexivity|].
  apply subsToRetry_In. split; [exact Hsub|].
  exists (fallbackLesson E chapter sub). split; [exact Hf | reflexivity].
Qed.

(** X6. The fallback lesson of a subsection is always flagged as fallback,
    and it has the key of its subsection.  So a stored chapter that holds it
    is never skipped: whenever classifying the chapter returns, the chapter
    is to be retried, with that subsection among those to retry; and
    classifying it throws only when some lesson of the chapter has an
    instructional text that is no string, and returns otherwise. *)
Theorem fallback_lesson_is_retried_on_resume
    (E : Engine) (chapter : ChapterBreakdown) (sub : Subsection)
    (existing : ChapterLessons) :
  In sub (subsections chapter) ->
  In (fallbackLesson E chapter sub) (lessons existing) ->
  isFallbackLesson E (fallbackLesson E chapter sub) = Normal true
  /\ lessonKey (fallbackLesson E chapter sub) = subsectionKey sub
  /\ (forall plan, classify E chapter (Some existing) = Normal plan ->
        exists subs, plan = RetryOnly subs /\ In sub subs)
  /\ (forall e, classify E chapter (Some existing) = Throw e ->
        exists l, In l (lessons existing)
                  /\ forall s, instructionalText l <> JString s)
  /\ ((forall l, In l (lessons existing) ->
         exists s, instructionalText l = JString s) ->
      exists subs, classify E chapter (Some existing) = Normal (RetryOnly subs)
                   /\ In sub subs).
Proof.
  intros Hsub Hin.
  split; [apply fallbackLesson_flagged|]. split; [reflexivity|].
  split; [|split].
  - intros plan Hplan.
    assert (forall l, In l (lessons existing) ->
              exists s, instructionalText l = JString s) as Hstr.
    { intros l Hl. unfold classify, failedLessons in Hplan.
      destruct (filterM (isFallbackLesson E) (lessons existing)) as [r|e] eqn:Hf;
        [|discriminate Hplan].
      destruct (filterM_Normal_inv _ _ _ Hf l Hl) as [b Hb].
      eapply isFallbackLesson_Normal_inv; eauto. }
    destruct (classify_with_fallback E chapter sub existing Hsub Hin Hstr)
      as (subs & Hc & Hs).
    exists subs. split; [congruence | exact Hs].
  - intros e He. unfold classify, failedLessons in He.
    destruct (filterM (isFallbackLesson E) (lessons existing)) as [r|e'] eqn:Hf.
    + cbn [bind] in He. destruct (List.length r =? 0)%nat; discriminate He.
    + apply filterM_Throw_inv in Hf as (l & Hl & Hthrow).
      exists l. split; [exact Hl|]. eapply isFallbackLesson_Throw_inv; eauto.
  - now apply classify_with_fallback.
Qed.

Lemma fallback_lesson_is_retried_on_resume_witness :
  exists subs,
    classify exampleEngine exampleChapter
      (Some {| cl_chapterNumber := Some (js "3"); cl_chapterTitle := js "Load and Stress";
               cl_summary := js "Stress analysis.";
               lessons := [fallbackLesson exampleEngine exampleChapter
                             (exampleSubsection "3-2" "Shear Force")] |})
    = Normal (RetryOnly subs)
    /\ In (exampleSubsection "3-2" "Shear Force") subs.
Proof.
  destruct (fallback_lesson_is_retried_on_resume exampleEngine exampleChapter
              (exampleSubsection "3-2" "Shear Force")
              {| cl_chapterNumber := Some (js "3"); cl_chapterTitle := js "Load and Stress";
                 cl_summary := js "Stress analysis.";
                 lessons := [fallbackLesson exampleEngine exampleChapter
                               (exampleSubsection "3-2" "Shear Force")] |})
    as (_ & _ & _ & _ & Hsubs).
  - cbn. auto.
  - cbn. auto.
  - apply Hsubs. intros l Hl. cbn in Hl. destruct Hl as [<- | []].
    eexists. reflexivity.
Defined.

(** X7. A lesson is built from a response without a check of the type of
    its instructional text: when the response gives a truthy value that is
    no string, the lesson stores that value; and classifying a stored
    chapter that holds such a lesson throws. *)
Theorem non_string_text_breaks_resume
    (E : Engine) (chapter : ChapterBreakdown) (sub : Subsection)
    (parsed v : json) (lesson : GeneratedLesson) (existing : ChapterLessons) :
  buildLesson E chapter sub parsed = Normal lesson ->
  get_field E parsed (js "instructionalText") = Normal (Some v) ->
  truthy_value v = true ->
  (forall s, v <> JString s) ->
  In lesson (lessons existing) ->
  instructionalText lesson = v
  /\ exists e, classify E chapter (Some existing) = Throw e.
Proof.
  intros Hbuild Hfield Htruthy Hns Hin.
  assert (instructionalText lesson = v) as Hv.
  { unfold buildLesson in Hbuild.
    apply bind_Normal_inv in Hbuild as (x1 & _ & Hbuild).
    apply bind_Normal_inv in Hbuild as (x2 & H2 & Hbuild).
    repeat (apply bind_Normal_inv in Hbuild as (? & _ & Hbuild)).
    injection Hbuild as <-. cbn [instructionalText].
    rewrite Hfield in H2. injection H2 as <-.
    unfold or_else. now rewrite Htruthy. }
  split; [exact Hv|].
  destruct (filterM_throws (isFallbackLesson E) (lessons existing) lesson Hin)
    as [e He].
  - apply isFallbackLesson_other. now rewrite Hv.
  - exists e. unfold classify, failedLessons. now rewrite He.
Qed.

Lemma non_string_text_breaks_resume_witness :
  exists lesson,
    generateLesson exampleEngine 6 (fun _ => Normal (jsq "{'instructionalText':42}"))
      (fun _ => 0%Q) exampleChapter (exampleSubsection "3-2" "Shear Force") 0 1
    = Normal lesson
    /\ exists e,
         classify exampleEngine exampleChapter
           (Some {| cl_chapterNumber := Some (js "3");
                    cl_chapterTitle := js "Load and Stress";
                    cl_summary := js "Stress analysis.";
                    lessons := [lesson] |})
         = Throw e.
Proof.
  destruct (buildLesson exampleEngine exampleChapter (exampleSubsection "3-2" "Shear Force")
              (JObject [(js "instructionalText", JNumber (js "42"))]))
    as [lesson|e] eqn:Hbuild; [|vm_compute in Hbuild; discriminate Hbuild].
  exists lesson. split.
  - rewrite <- Hbuild. vm_compute. reflexivity.
  - eapply (non_string_text_breaks_resume exampleEngine exampleChapter
              (exampleSubsection "3-2" "Shear Force")
              (JObject [(js "instructionalText", JNumber (js "42"))])
              (JNumber (js "42")) lesson).
    + exact Hbuild.
    + vm_compute. reflexivity.
    + vm_compute. reflexivity.
    + intros s H. discriminate H.
    + cbn. auto.
Defined.

(** ** When a lesson can be built from a response *)





(** ** The invocations of the handler *)

Section RunnerCalls.
Context {T R : Type}.
Variable pacing : bool.
Variable items : list T.
Variable mapper : T -> nat -> R.

#[local] Abbreviation claim_ := (claim (R:=R) pacing items).
#[local] Abbreviation resume_ := (resume pacing items mapper).
#[local] Abbreviation spawn_one_ := (spawn_one (R:=R) pacing items).
#[local] Abbreviation event_loop_ := (event_loop pacing items mapper).
#[local] Abbreviation start_ := (start (R:=R) items).
#[local] Abbreviation Inv_ := (pool_invariant items mapper).

Lemma sleeping_app a b : sleeping (a ++ b) = sleeping a ++ sleeping b.
Proof. apply flat_map_app. Qed.

Lemma sleeping_insert (ws : list worker) w old new :
  ws !! w = Some old ->
  Permutation (sleeping_of old ++ sleeping (<[w := new]> ws))
              (sleeping_of new ++ sleeping ws).
Proof.
  revert w. induction ws as [|a ws IH]; intros [|w] H; try discriminate H.
  - injection H as ->.
    change (<[0 := new]> (old :: ws)) with (new :: ws).
    change (sleeping (new :: ws)) with (sleeping_of new ++ sleeping ws).
    change (sleeping (old :: ws)) with (sleeping_of old ++ sleeping ws).
    apply Permutation_app_swap_app.
  - change (<[S w := new]> (a :: ws)) with (a :: <[w := new]> ws).
    change (sleeping (a :: <[w := new]> ws))
      with (sleeping_of a ++ sleeping (<[w := new]> ws)).
    change (sleeping (a :: ws)) with (sleeping_of a ++ sleeping ws).
    rewrite Permutation_app_swap_app, (IH w H).
    apply Permutation_app_swap_app.
Qed.

(** [claim], case by case, with the invocations. *)
Lemma claim_calls p :
  (cursor p < List.length items
   /\ cursor (fst (claim_ p)) = S (cursor p)
   /\ workers (fst (claim_ p)) = workers p
   /\ Permutation (invoked (fst (claim_ p)) ++ sleeping_of (snd (claim_ p)))
                  (invoked p ++ [cursor p])
   /\ (pacing = false ->
       invoked (fst (claim_ p)) = invoked p ++ [cursor p]
       /\ sleeping_of (snd (claim_ p)) = []))
  \/ (List.length items <= cursor p /\ claim_ p = (p, Returned)).
Proof.
  unfold claim.
  destruct (cursor p <? List.length items)%nat eqn:Hlt.
  - apply Nat.ltb_lt in Hlt. left.
    destruct (pacing && (0 <? cursor p)%nat) eqn:Hp;
      cbn [fst snd cursor workers invoked sleeping_of].
    + split; [exact Hlt|]. split; [reflexivity|]. split; [reflexivity|].
      split; [reflexivity|]. intros ->. discriminate Hp.
    + rewrite app_nil_r. split; [exact Hlt|]. split; [reflexivity|].
      split; [reflexivity|]. split; [reflexivity|]. intros _. split; reflexivity.
  - apply Nat.ltb_ge in Hlt. right. auto.
Qed.

Lemma calls_start : calls_invariant start_.
Proof. unfold calls_invariant. cbn. constructor. Qed.

Lemma calls_spawn_one p : calls_invariant p -> calls_invariant (spawn_one_ p).
Proof.
  unfold calls_invariant, spawn_one. intros H.
  destruct (claim_calls p) as [(Hlt & Hcur & Hwk & Hperm & _) | (Hge & Heq)].
  - destruct (claim_ p) as [p' st]. cbn [fst snd cursor workers invoked] in *.
    rewrite Hcur, Hwk, sleeping_app, seq_S. cbn [plus sleeping flat_map].
    rewrite app_nil_r, <- H.
    rewrite (Permutation_app_comm (sleeping (workers p))), app_assoc, Hperm.
    rewrite <- !app_assoc. apply Permutation_app_head, Permutation_app_comm.
  - rewrite Heq. cbn [cursor workers invoked]. rewrite sleeping_app.
    cbn [sleeping flat_map sleeping_of app]. now rewrite app_nil_r.
Qed.

Lemma calls_spawn n : calls_invariant (spawn pacing items n start_).
Proof.
  induction n as [|n IH]; [exact calls_start|].
  unfold spawn in *. rewrite Nat.iter_succ. now apply calls_spawn_one.
Qed.

Lemma calls_resume p w : calls_invariant p -> calls_invariant (resume_ w p).
Proof.
  unfold calls_invariant, resume. intros H.
  destruct (workers p !! w) as [[idx | idx |]|] eqn:Hw; try exact H.
  - unfold set_worker. cbn [cursor workers invoked].
    rewrite <- app_assoc.
    pose proof (sleeping_insert _ _ _ (Awaiting idx) Hw) as Hs.
    cbn [sleeping_of app] in Hs. cbn [app]. rewrite Hs. exact H.
  - destruct (items !! idx) as [item|]; [|exact H].
    set (p1 := {| cursor := cursor p;
                  results := <[idx := Some (mapper item idx)]> (results p);
                  workers := workers p; invoked := invoked p |}).
    destruct (claim_calls p1) as [(Hlt & Hcur & Hwk & Hperm & _) | (Hge & Heq)].
    + destruct (claim_ p1) as [p2 st]. cbn [fst snd] in *.
      unfold set_worker. cbn [cursor workers invoked]. rewrite Hcur, Hwk.
      cbn [p1 cursor workers invoked] in *.
      pose proof (sleeping_insert _ _ _ st Hw) as Hs.
      cbn [sleeping_of app] in Hs. rewrite Hs, app_assoc, Hperm, seq_S.
      cbn [plus]. rewrite <- H, <- !app_assoc.
      apply Permutation_app_head, Permutation_app_comm.
    + rewrite Heq. unfold set_worker. cbn [p1 cursor workers invoked].
      pose proof (sleeping_insert _ _ _ Returned Hw) as Hs.
      cbn [sleeping_of app] in Hs. rewrite Hs. exact H.
Qed.

Lemma calls_event_loop sched fuel : forall t p,
  calls_invariant p -> calls_invariant (event_loop_ sched fuel t p).
Proof.
  induction fuel as [|fuel IH]; intros t p H; [exact H|].
  cbn [event_loop]. destruct (pending p) as [|w0 ws]; [exact H|].
  apply IH. now apply calls_resume.
Qed.

(** The pool invariant holds after any number of turns. *)
Lemma Inv_event_loop sched fuel : forall t p,
  Inv_ p -> Inv_ (event_loop_ sched fuel t p).
Proof.
  induction fuel as [|fuel IH]; intros t p HI; [exact HI|].
  cbn [event_loop]. destruct (pending p) as [|w0 ws] eqn:Hp; [exact HI|].
  pose proof (picked_is_pending p w0 ws (sched t) Hp) as Hin.
  apply pending_spec in Hin as (st & Hw & Hpend).
  destruct (resume_spec pacing items mapper p _ st HI Hw Hpend) as (HI' & _ & _).
  apply IH. exact HI'.
Qed.

Lemma calls_safe (p : pool R) :
  Inv_ p -> calls_invariant p ->
  List.NoDup (invoked p) /\ forall i, In i (invoked p) -> i < List.length items.
Proof.
  intros HI H. unfold calls_invariant in H. split.
  - apply (NoDup_app_remove_r _ (sleeping (workers p))).
    eapply Permutation_NoDup; [symmetry; exact H | apply seq_NoDup].
  - intros i Hi. pose proof (inv_cursor _ _ _ HI).
    assert (In i (seq 0 (cursor p))) as Hs.
    { eapply Permutation_in; [exact H|]. apply in_or_app. now left. }
    apply in_seq in Hs. lia.
Qed.

Lemma run_calls_safe sched fuel n :
  let r := await_all (event_loop_ sched fuel 0 (spawn pacing items n start_)) in
  List.NoDup (handler_calls r)
  /\ forall i, In i (handler_calls r) -> i < List.length items.
Proof.
  cbn [await_all handler_calls]. apply calls_safe.
  - apply Inv_event_loop. apply (spawn_spec pacing items mapper n).
  - apply calls_event_loop, calls_spawn.
Qed.

Lemma sleeping_all_returned (ws : list worker) :
  (forall w st, ws !! w = Some st -> st = Returned) -> sleeping ws = [].
Proof.
  induction ws as [|a ws IH]; intros H; [reflexivity|].
  change (sleeping (a :: ws)) with (sleeping_of a ++ sleeping ws).
  rewrite (H 0 a eq_refl), IH; [reflexivity|].
  intros w st Hw. exact (H (S w) st Hw).
Qed.

Lemma all_returned (p : pool R) :
  pending p = [] -> forall w st, workers p !! w = Some st -> st = Returned.
Proof.
  intros Hp w st Hw. destruct st; try reflexivity; exfalso;
    (assert (In w (pending p)) as Hin
       by (apply pending_spec; eexists; split; [exact Hw | reflexivity]));
    rewrite Hp in Hin; exact Hin.
Qed.

Lemma all_returned_cursor (p : pool R) :
  Inv_ p -> pending p = [] -> 1 <= List.length (workers p) ->
  cursor p = List.length items.
Proof.
  intros HI Hp Hlen. pose proof (all_returned p Hp) as Hall.
  destruct (lookup_lt_is_Some_2 (workers p) 0 ltac:(lia)) as [st Hst].
  apply (inv_returned _ _ _ HI 0). rewrite Hst. f_equal. exact (Hall 0 st Hst).
Qed.

Lemma run_calls_complete sched fuel n :
  1 <= n ->
  2 * List.length items <= fuel ->
  Permutation
    (handler_calls (await_all (event_loop_ sched fuel 0 (spawn pacing items n start_))))
    (seq 0 (List.length items)).
Proof.
  intros Hn Hfuel. cbn [await_all handler_calls].
  destruct (spawn_spec pacing items mapper n) as (HI & Ht & Hlen).
  destruct (event_loop_spec pacing items mapper sched fuel 0 _ HI ltac:(lia))
    as (HI' & Hp & Hlen').
  pose proof (calls_event_loop sched fuel 0 _ (calls_spawn n)) as Hc.
  unfold calls_invariant in Hc.
  rewrite (sleeping_all_returned _ (all_returned _ Hp)), app_nil_r in Hc.
  rewrite (all_returned_cursor _ HI' Hp ltac:(lia)) in Hc. exact Hc.
Qed.

(** Without pacing, the handlers are invoked in the order of the indices. *)
Lemma ordered_start : ordered_calls start_.
Proof. split; reflexivity. Qed.

Lemma ordered_spawn_one p :
  pacing = false -> ordered_calls p -> ordered_calls (spawn_one_ p).
Proof.
  unfold ordered_calls, spawn_one. intros Hpace [Hi Hs].
  destruct (claim_calls p) as [(Hlt & Hcur & Hwk & _ & Hord) | (Hge & Heq)].
  - destruct (Hord Hpace) as [Hinv Hst].
    destruct (claim_ p) as [p' st]. cbn [fst snd cursor workers invoked] in *.
    rewrite Hcur, Hwk, Hinv, Hi, sleeping_app, Hs, seq_S.
    cbn [plus sleeping flat_map app]. rewrite Hst. split; reflexivity.
  - rewrite Heq. cbn [cursor workers invoked]. rewrite sleeping_app, Hs.
    split; [exact Hi | reflexivity].
Qed.

Lemma ordered_spawn n :
  pacing = false -> ordered_calls (spawn pacing items n start_).
Proof.
  intros Hpace. induction n as [|n IH]; [exact ordered_start|].
  unfold spawn in *. rewrite Nat.iter_succ. now apply ordered_spawn_one.
Qed.

Lemma sleeping_nil_lookup (ws : list worker) w idx :
  sleeping ws = [] -> ws !! w <> Some (Sleeping idx).
Proof.
  revert w. induction ws as [|a ws IH]; intros w Hs Hw; [destruct w; discriminate Hw|].
  change (sleeping (a :: ws)) with (sleeping_of a ++ sleeping ws) in Hs.
  apply app_eq_nil in Hs as [Ha Hs]. destruct w as [|w].
  - injection Hw as ->. discriminate Ha.
  - exact (IH w Hs Hw).
Qed.

Lemma sleeping_nil_insert (ws : list worker) w st :
  sleeping ws = [] -> sleeping_of st = [] -> sleeping (<[w := st]> ws) = [].
Proof.
  revert w. induction ws as [|a ws IH]; intros w Hs Hst; [reflexivity|].
  change (sleeping (a :: ws)) with (sleeping_of a ++ sleeping ws) in Hs.
  apply app_eq_nil in Hs as [Ha Hs]. destruct w as [|w].
  - change (<[0 := st]> (a :: ws)) with (st :: ws).
    change (sleeping (st :: ws)) with (sleeping_of st ++ sleeping ws).
    now rewrite Hst, Hs.
  - change (<[S w := st]> (a :: ws)) with (a :: <[w := st]> ws).
    change (sleeping (a :: <[w := st]> ws))
      with (sleeping_of a ++ sleeping (<[w := st]> ws)).
    now rewrite Ha, IH.
Qed.

Lemma ordered_resume p w :
  pacing = false -> ordered_calls p -> ordered_calls (resume_ w p).
Proof.
  unfold ordered_calls, resume. intros Hpace [Hi Hs].
  destruct (workers p !! w) as [[idx | idx |]|] eqn:Hw; try (split; assumption).
  - now destruct (sleeping_nil_lookup _ _ _ Hs Hw).
  - destruct (items !! idx) as [item|]; [|split; assumption].
    set (p1 := {| cursor := cursor p;
                  results := <[idx := Some (mapper item idx)]> (results p);
                  workers := workers p; invoked := invoked p |}).
    destruct (claim_calls p1) as [(Hlt & Hcur & Hwk & _ & Hord) | (Hge & Heq)].
    + destruct (Hord Hpace) as [Hinv Hst].
      destruct (claim_ p1) as [p2 st]. cbn [fst snd] in *.
      unfold set_worker. cbn [cursor workers invoked]. rewrite Hcur, Hwk, Hinv.
      cbn [p1 cursor workers invoked]. rewrite Hi, seq_S. split; [reflexivity|].
      now apply sleeping_nil_insert.
    + rewrite Heq. unfold set_worker. cbn [p1 cursor workers invoked].
      split; [exact Hi|]. now apply sleeping_nil_insert.
Qed.

Lemma ordered_event_loop sched fuel : forall t p,
  pacing = false -> ordered_calls p -> ordered_calls (event_loop_ sched fuel t p).
Proof.
  induction fuel as [|fuel IH]; intros t p Hpace H; [exact H|].
  cbn [event_loop]. destruct (pending p) as [|w0 ws]; [exact H|].
  apply IH; [exact Hpace|]. now apply ordered_resume.
Qed.
(** The number of workers never changes once they are spawned. *)
Lemma resume_workers p w :
  List.length (workers (resume_ w p)) = List.length (workers p).
Proof.
  unfold resume. destruct (workers p !! w) as [[idx | idx |]|]; try reflexivity.
  - unfold set_worker. cbn [workers]. apply length_insert.
  - destruct (items !! idx) as [item|]; [|reflexivity].
    set (p1 := {| cursor := cursor p;
                  results := <[idx := Some (mapper item idx)]> (results p);
                  workers := workers p; invoked := invoked p |}).
    destruct (claim_calls p1) as [(_ & _ & Hwk & _) | (_ & Heq)].
    + destruct (claim_ p1) as [p2 st]. cbn [fst snd] in *.
      unfold set_worker. cbn [workers]. now rewrite length_insert, Hwk.
    + rewrite Heq. unfold set_worker. cbn [workers]. now rewrite length_insert.
Qed.

Lemma event_loop_workers sched fuel : forall t p,
  List.length (workers (event_loop_ sched fuel t p)) = List.length (workers p).
Proof.
  induction fuel as [|fuel IH]; intros t p; [reflexivity|].
  cbn [event_loop]. destruct (pending p) as [|w0 ws]; [reflexivity|].
  now rewrite IH, resume_workers.
Qed.

Lemma run_spawned sched fuel n :
  spawned (await_all (event_loop_ sched fuel 0 (spawn pacing items n start_))) = n.
Proof.
  cbn [await_all spawned]. rewrite event_loop_workers.
  apply (spawn_spec pacing items mapper n).
Qed.
End RunnerCalls.

(** X9. At any point of a run, for any concurrency and any order of
    resumption, no unit has had its handler invoked twice, and the handler
    has only been invoked on indices of units; this holds for the exported
    runner and for the local one.  The exported runner, which has no pacing
    sleep, has moreover invoked the handlers in the order of the indices. *)
Theorem handler_invoked_at_most_once {T R : Type}
    (items : list T) (concurrency : jsnumber) (mapper : T -> nat -> R)
    (sched : nat -> nat) (fuel : nat) :
  let r1 := mapWithConcurrency sched fuel items concurrency mapper in
  let r2 := mapWithConcurrency_lessons sched fuel items concurrency mapper in
  (List.NoDup (handler_calls r1)
   /\ forall i, In i (handler_calls r1) -> i < List.length items)
  /\ (List.NoDup (handler_calls r2)
      /\ forall i, In i (handler_calls r2) -> i < List.length items)
  /\ exists k, k <= List.length items /\ handler_calls r1 = seq 0 k.
Proof.
  intros r1 r2. subst r1 r2. unfold mapWithConcurrency, mapWithConcurrency_lessons.
  split; [|split].
  - destruct (negb _ || _); [cbn; split; [constructor | contradiction]|].
    destruct (_ =? _)%nat; [cbn; split; [constructor | contradiction]|].
    apply run_calls_safe.
  - apply run_calls_safe.
  - destruct (negb _ || _); [exists 0; cbn; split; [lia | reflexivity]|].
    destruct (_ =? _)%nat; [exists 0; cbn; split; [lia | reflexivity]|].
    cbn [await_all handler_calls].
    match goal with
    | |- context [invoked ?p] =>
        assert (ordered_calls p) as [Ho _]
          by (apply ordered_event_loop; [reflexivity | now apply ordered_spawn]);
        assert (pool_invariant items mapper p) as HI
          by (apply Inv_event_loop, spawn_spec)
    end.
    eexists. split; [|exact Ho]. exact (inv_cursor _ _ _ HI).
Qed.

(** X10. With a finite concurrency of at least one and enough turns, when
    the run is over the handler has been invoked exactly once on every unit:
    by the exported runner in the order of the indices, by the local runner
    of generate-lessons.ts in some order. *)
Theorem every_unit_invoked_once {T R : Type}
    (items : list T) (q : Q) (mapper : T -> nat -> R)
    (sched : nat -> nat) (fuel : nat) :
  (1 <= q)%Q ->
  2 * List.length items <= fuel ->
  handler_calls (mapWithConcurrency sched fuel items (Num q) mapper)
  = seq 0 (List.length items)
  /\ Permutation
       (handler_calls (mapWithConcurrency_lessons sched fuel items (Num q) mapper))
       (seq 0 (List.length items)).
Proof.
  intros Hq Hfuel. split.
  - unfold mapWithConcurrency. cbn [Number_isFinite negb orb num_le].
    rewrite (not_le_zero q Hq).
    destruct (List.length items =? 0)%nat eqn:Hlen.
    + apply Nat.eqb_eq in Hlen. now rewrite Hlen.
    + apply Nat.eqb_neq in Hlen. cbn [await_all handler_calls].
      assert (1 <= N.to_nat (ToLength (Math_min (Math_floor (Num q))
                                         (of_nat (List.length items))))) as Hn.
      { unfold Math_min, Math_floor, of_nat. cbn [num_le].
        destruct (Qle_bool _ _).
        - apply ToLength_inject. now apply Qfloor_ge_1.
        - apply ToLength_inject. lia. }
      set (n := N.to_nat _) in *.
      destruct (spawn_spec false items mapper n) as (HI & Ht & Hl).
      destruct (event_loop_spec false items mapper sched fuel 0 _ HI ltac:(lia))
        as (HI' & Hp & Hl').
      destruct (ordered_event_loop false items mapper sched fuel 0 _ eq_refl
                  (ordered_spawn false items n eq_refl)) as [Ho _].
      rewrite Ho. f_equal.
      apply (all_returned_cursor items mapper _ HI' Hp). lia.
  - unfold mapWithConcurrency_lessons.
    destruct (Nat.eq_dec (List.length items) 0) as [Hlen | Hlen].
    + apply length_zero_iff_nil in Hlen. subst items.
      unfold Math_min, of_nat. cbn [List.length num_le].
      change (inject_Z (Z.of_nat 0)) with 0%Q.
      rewrite (not_le_zero q Hq). destruct fuel; reflexivity.
    + apply run_calls_complete; [|exact Hfuel].
      unfold Math_min, of_nat. cbn [num_le].
      destruct (Qle_bool _ _).
      * now apply ToLength_ge_1.
      * apply ToLength_inject. lia.
Qed.

Lemma every_unit_invoked_once_witness :
  handler_calls (mapWithConcurrency (fun t => (2 * t + 1)%nat) 6
                   [10; 20; 30]%nat (Num (5 # 2)) (fun x i => (x + i)%nat))
  = [0; 1; 2]
  /\ Permutation
       (handler_calls (mapWithConcurrency_lessons (fun t => (2 * t + 1)%nat) 6
                         [10; 20; 30]%nat (Num (5 # 2)) (fun x i => (x + i)%nat)))
       [0; 1; 2].
Proof.
  apply (every_unit_invoked_once [10; 20; 30]%nat (5 # 2) (fun x i => (x + i)%nat)
           (fun t => (2 * t + 1)%nat) 6).
  - unfold Qle. cbn. lia.
  - cbn. lia.
Defined.

(** ** The number of workers *)

Lemma ToLength_Z z :
  (0 <= z)%Z ->
  Z.of_nat (N.to_nat (ToLength (Num (inject_Z z)))) = Z.min z (2 ^ 53 - 1).
Proof.
  intros Hz. unfold ToLength. rewrite Qfloor_Z, N_nat_Z, N2Z.inj_min, Z2N.id by lia.
  reflexivity.
Qed.

Lemma ToLength_Q q :
  (0 <= Qfloor q)%Z ->
  Z.of_nat (N.to_nat (ToLength (Num q))) = Z.min (Qfloor q) (2 ^ 53 - 1).
Proof.
  intros Hz. unfold ToLength. rewrite N_nat_Z, N2Z.inj_min, Z2N.id by lia.
  reflexivity.
Qed.

Lemma Qle_bool_floor q (n : nat) :
  (if Qle_bool q (inject_Z (Z.of_nat n))
   then Qfloor q <= Z.of_nat n else Z.of_nat n <= Qfloor q)%Z.
Proof.
  destruct (Qle_bool _ _) eqn:Hle.
  - apply Qle_bool_iff in Hle. rewrite <- (Qfloor_Z (Z.of_nat n)).
    now apply Qfloor_resp_le.
  - rewrite <- (Qfloor_Z (Z.of_nat n)). apply Qfloor_resp_le.
    apply Qlt_le_weak, Qnot_le_lt. intros H. apply Qle_bool_iff in H. congruence.
Qed.

(** X11. With a finite concurrency [q >= 1] both runners spawn the same
    number of workers, the smaller of [floor q] and the number of units: the
    local runner does not floor the concurrency, [Array.from] does.  The
    number of units is below 2^32, as the length of every array is. *)
Theorem workers_spawned {T R : Type}
    (items : list T) (q : Q) (mapper : T -> nat -> R)
    (sched : nat -> nat) (fuel : nat) :
  (1 <= q)%Q ->
  (Z.of_nat (List.length items) < 2 ^ 32)%Z ->
  let r1 := mapWithConcurrency sched fuel items (Num q) mapper in
  let r2 := mapWithConcurrency_lessons sched fuel items (Num q) mapper in
  Z.of_nat (spawned r1) = Z.min (Qfloor q) (Z.of_nat (List.length items))
  /\ spawned r2 = spawned r1.
Proof.
  intros Hq Hlen32 r1 r2. pose proof (Qfloor_ge_1 q Hq) as Hfl.
  assert (2 ^ 32 < 2 ^ 53 - 1)%Z as Hcap by (vm_compute; reflexivity).
  assert (Z.of_nat (spawned r1)
          = Z.min (Qfloor q) (Z.of_nat (List.length items))) as H1.
  { subst r1. unfold mapWithConcurrency. cbn [Number_isFinite negb orb num_le].
    rewrite (not_le_zero q Hq).
    destruct (List.length items =? 0)%nat eqn:Hlen.
    - apply Nat.eqb_eq in Hlen. rewrite Hlen. cbn [spawned]. lia.
    - rewrite (run_spawned false items mapper).
      unfold Math_min, Math_floor, of_nat. cbn [num_le].
      pose proof (Qle_bool_floor (inject_Z (Qfloor q)) (List.length items)) as Hc.
      rewrite Qfloor_Z in Hc.
      destruct (Qle_bool _ _); rewrite ToLength_Z by lia; lia. }
  split; [exact H1|]. apply Nat2Z.inj. rewrite H1. subst r2.
  unfold mapWithConcurrency_lessons. rewrite (run_spawned true items mapper).
  unfold Math_min, of_nat. cbn [num_le].
  pose proof (Qle_bool_floor q (List.length items)) as Hc.
  destruct (Qle_bool _ _).
  - rewrite ToLength_Q by lia. lia.
  - rewrite ToLength_Z by lia. lia.
Qed.

Lemma workers_spawned_witness :
  spawned (mapWithConcurrency (fun t => t) 6 [10; 20; 30]%nat (Num (5 # 2))
             (fun x i => (x + i)%nat)) = 2
  /\ spawned (mapWithConcurrency_lessons (fun t => t) 6 [10; 20; 30]%nat (Num (5 # 2))
                (fun x i => (x + i)%nat)) = 2.
Proof.
  destruct (workers_spawned [10; 20; 30]%nat (5 # 2) (fun x i => (x + i)%nat)
              (fun t => t) 6) as [H1 H2].
  - unfold Qle. cbn. lia.
  - vm_compute. reflexivity.
  - rewrite H2. split; apply Nat2Z.inj; rewrite H1; reflexivity.
Defined.

(** X12. A concurrency strictly between zero and one passes the guard of
    the exported runner; with at least one unit both runners then spawn no
    worker, invoke no handler, and fulfil their promise with an array of
    holes as long as the input. *)
Theorem fractional_concurrency_runs_nothing {T R : Type}
    (items : list T) (q : Q) (mapper : T -> nat -> R)
    (sched : nat -> nat) (fuel : nat) :
  (0 < q)%Q -> (q < 1)%Q -> items <> [] ->
  let holes :=
    {| settled := Some (Normal (repeat None (List.length items)));
       handler_calls := []; spawned := 0 |} in
  mapWithConcurrency sched fuel items (Num q) mapper = holes
  /\ mapWithConcurrency_lessons sched fuel items (Num q) mapper = holes.
Proof.
  intros H0 H1 Hne holes. subst holes.
  assert (Qfloor q = 0%Z) as Hfl.
  { assert (0 <= Qfloor q)%Z
      by (change 0%Z with (Qfloor 0); apply Qfloor_resp_le; now apply Qlt_le_weak).
    assert (Qfloor q < 1)%Z.
    { rewrite Zlt_Qlt. eapply Qle_lt_trans; [apply Qfloor_le | exact H1]. }
    lia. }
  assert (Qle_bool q 0 = false) as Hg.
  { destruct (Qle_bool q 0) eqn:E; [|reflexivity]. apply Qle_bool_iff in E.
    exfalso. exact (Qlt_not_le _ _ H0 E). }
  assert (1 <= List.length items) as Hlen
    by (destruct items; [contradiction | cbn; lia]).
  assert (Qle_bool q (inject_Z (Z.of_nat (List.length items))) = true) as Hqn.
  { apply Qle_bool_iff. apply Qlt_le_weak. eapply Qlt_le_trans; [exact H1|].
    change 1%Q with (inject_Z 1). rewrite <- Zle_Qle. lia. }
  split.
  - unfold mapWithConcurrency. cbn [Number_isFinite negb orb num_le]. rewrite Hg.
    replace (List.length items =? 0)%nat with false by (symmetry; apply Nat.eqb_neq; lia).
    unfold Math_min, Math_floor, of_nat. cbn [num_le]. rewrite Hfl.
    replace (Qle_bool (inject_Z 0) (inject_Z (Z.of_nat (List.length items)))) with true
      by (symmetry; apply Qle_bool_iff; rewrite <- Zle_Qle; lia).
    destruct fuel; reflexivity.
  - unfold mapWithConcurrency_lessons, Math_min, of_nat. cbn [num_le]. rewrite Hqn.
    unfold ToLength. rewrite Hfl. destruct fuel; reflexivity.
Qed.

Lemma fractional_concurrency_runs_nothing_witness :
  mapWithConcurrency (fun t => t) 6 [10; 20; 30]%nat (Num (1 # 2))
    (fun x i => (x + i)%nat)
  = {| settled := Some (Normal [None; None; None]); handler_calls := []; spawned := 0 |}.
Proof.
  apply (fractional_concurrency_runs_nothing [10; 20; 30]%nat (1 # 2)
           (fun x i => (x + i)%nat) (fun t => t) 6).
  - reflexivity.
  - reflexivity.
  - discriminate.
Defined.

(** ** The attempts of [runJson] *)

Section RunJsonMore.
Context {T : Type}.
Variable E : Engine.
Variable config : RuntimeConfig.
Variable request : JsonAgentRequest T.
Variable service : nat -> completion GenerateTextResult.

#[local] Abbreviation attempt_once_ := (attempt_once E config request service).
#[local] Abbreviation attempts_from_ := (attempts_from E config request service).

Lemma attempts_from_S remaining attempt lastError :
  attempts_from_ (S remaining) attempt lastError
  = match attempt_once_ attempt with
    | Normal r => Normal r
    | Throw error => attempts_from_ remaining (S attempt) error
    end.
Proof. reflexivity. Qed.

Lemma attempts_from_first_success r k : forall d attempt remaining lastError,
  k = attempt + d ->
  (forall j, attempt <= j < k -> exists e, attempt_once_ j = Throw e) ->
  attempt_once_ k = Normal r ->
  d < remaining ->
  attempts_from_ remaining attempt lastError = Normal r.
Proof.
  induction d as [|d IH]; intros attempt remaining lastError Hk Hfail Hok Hrem;
    (destruct remaining as [|remaining]; [lia|]); rewrite attempts_from_S.
  - assert (k = attempt) as <- by lia. now rewrite Hok.
  - destruct (Hfail attempt ltac:(lia)) as [e He]. rewrite He.
    apply (IH (S attempt)); try lia; try assumption.
    intros j Hj. apply Hfail. lia.
Qed.


End RunJsonMore.

(** X13. In live mode, when the attempts before attempt [k] fail (the
    service call, the recovery parser or the request's parser throws, for
    whatever reason) and attempt [k] succeeds, [k] within the number of
    attempts, [runJson] returns the result of attempt [k]: a primary result
    whose trace counts [k] attempts and records no error. *)
Theorem runJson_returns_first_success {T : Type}
    (E : Engine) (config : RuntimeConfig) (request : JsonAgentRequest T)
    (service : nat -> completion GenerateTextResult)
    (k : nat) (r : AgentRunResult T) :
  mode config = live ->
  1 <= k <= Z.to_nat (Qfloor (maxAttempts config request)) ->
  (forall j, 1 <= j < k -> exists e, attempt_once E config request service j = Throw e) ->
  attempt_once E config request service k = Normal r ->
  runJson E config request service = Normal r
  /\ attemptCount (trace r) = inject_Z (Z.of_nat k)
  /\ fallbackUsed (trace r) = false
  /\ errorMessage (trace r) = None
  /\ primary E request service r.
Proof.
  intros Hmode Hk Hfail Hok. split.
  - unfold runJson. rewrite Hmode.
    apply (attempts_from_first_success E config request service r k (k - 1) 1
             _ NonError); try lia; assumption.
  - pose proof (attempt_once_primary E config request service k r Hok) as Hprim.
    unfold attempt_once in Hok.
    apply bind_Normal_inv in Hok as (gen & _ & Hok).
    apply bind_Normal_inv in Hok as (value & _ & Hok).
    apply bind_Normal_inv in Hok as (parsed & _ & Hok).
    injection Hok as <-. cbn [trace attemptCount fallbackUsed errorMessage buildTrace].
    auto.
Qed.

Lemma runJson_returns_first_success_witness :
  exists r,
    runJson exampleEngine exampleConfig exampleRequest recovering = Normal r
    /\ attemptCount (trace r) = inject_Z 3.
Proof.
  destruct (attempt_once exampleEngine exampleConfig exampleRequest recovering 3)
    as [r|e] eqn:Hthird; [|vm_compute in Hthird; discriminate Hthird].
  exists r.
  destruct (runJson_returns_first_success exampleEngine exampleConfig exampleRequest
              recovering 3 r eq_refl) as (Hrun & Hcount & _).
  - vm_compute. split; lia.
  - intros j Hj. exists NonError.
    destruct j as [|[|[|j]]]; try lia; reflexivity.
  - exact Hthird.
  - split; [exact Hrun | exact Hcount].
Defined.



(** ** What the sanitizer changes *)

Lemma sanitize_cases (P : jsstring -> Prop) :
  P [] ->
  (forall c rest, char_eqb c BACKSLASH = false ->
     sanitizeJsonBackslashes (c :: rest) = c :: sanitizeJsonBackslashes rest ->
     P rest -> P (c :: rest)) ->
  P [BACKSLASH] ->
  (forall next rest, validEscapes_has next = true ->
     sanitizeJsonBackslashes (BACKSLASH :: next :: rest)
     = BACKSLASH :: next :: sanitizeJsonBackslashes rest ->
     P rest -> P (BACKSLASH :: next :: rest)) ->
  (forall next rest, validEscapes_has next = false ->
     char_eqb next BACKSLASH = false ->
     sanitizeJsonBackslashes (BACKSLASH :: next :: rest)
     = BACKSLASH :: BACKSLASH :: sanitizeJsonBackslashes (next :: rest) ->
     P (next :: rest) -> P (BACKSLASH :: next :: rest)) ->
  forall s, P s.
Proof.
  intros Hnil Hplain Hlast Hvalid Hinvalid s.
  remember (List.length s) as n eqn:Hn.
  revert s Hn. induction n as [n IH] using lt_wf_ind. intros s ->.
  destruct s as [|c r]; [exact Hnil|].
  destruct (char_eqb c BACKSLASH) eqn:Hc.
  - apply char_eqb_eq in Hc; subst. destruct r as [|e r']; [exact Hlast|].
    destruct (validEscapes_has e) eqn:He.
    + apply Hvalid; [exact He | now apply sanitize_valid|].
      apply (IH (List.length r')); [cbn; lia | reflexivity].
    + apply Hinvalid; [exact He | now apply invalid_not_backslash
                       | now apply sanitize_invalid|].
      apply (IH (List.length (e :: r'))); [cbn; lia | reflexivity].
  - apply Hplain; [exact Hc | now apply sanitize_plain|].
    apply (IH (List.length r)); [cbn; lia | reflexivity].
Qed.

(** X15. The sanitizer only inserts backslashes: the input is a
    subsequence of the output, the characters of the output other than
    backslashes are those of the input in the same order, and the output is
    at most twice as long as the input. *)
Theorem sanitizer_only_inserts_backslashes (s : jsstring) :
  sublist s (sanitizeJsonBackslashes s)
  /\ List.filter is_plain (sanitizeJsonBackslashes s) = List.filter is_plain s
  /\ List.length (sanitizeJsonBackslashes s) <= 2 * List.length s.
Proof.
  induction s as [| c rest Hc Heq IH | | next rest Hv Heq IH | next rest Hv Hn Heq IH]
    using sanitize_cases.
  - split; [constructor|]. split; [reflexivity | cbn; lia].
  - rewrite Heq. destruct IH as (Hsub & Hfil & Hlen). split; [|split].
    + now constructor.
    + cbn [List.filter]. now rewrite Hfil.
    + cbn [List.length]. lia.
  - split; [reflexivity|]. split; [reflexivity | cbn; lia].
  - rewrite Heq. destruct IH as (Hsub & Hfil & Hlen). split; [|split].
    + now do 2 constructor.
    + cbn [List.filter]. now rewrite Hfil.
    + cbn [List.length]. lia.
  - rewrite Heq. destruct IH as (Hsub & Hfil & Hlen). split; [|split].
    + apply sublist_skip. now apply sublist_cons.
    + change (List.filter is_plain (sanitizeJsonBackslashes (next :: rest))
              = List.filter is_plain (next :: rest)).
      exact Hfil.
    + cbn [List.length] in *. lia.
Qed.

Lemma well_escaped_plain c rest :
  char_eqb c BACKSLASH = false -> well_escaped (c :: rest) = well_escaped rest.
Proof. unfold well_escaped. cbn [well_escaped_from]. now intros ->. Qed.

Lemma well_escaped_pair next rest :
  well_escaped (BACKSLASH :: next :: rest) = validEscapes_has next && well_escaped rest.
Proof. reflexivity. Qed.

(** X16. The texts that the sanitizer leaves unchanged are exactly the well
    escaped ones, in which every backslash is followed by a valid escape
    character or is the last character; and every output of the sanitizer
    is well escaped. *)
Theorem sanitizer_fixpoints_are_well_escaped (s : jsstring) :
  (sanitizeJsonBackslashes s = s <-> well_escaped s = true)
  /\ well_escaped (sanitizeJsonBackslashes s) = true.
Proof.
  induction s as [| c rest Hc Heq IH | | next rest Hv Heq IH | next rest Hv Hn Heq IH]
    using sanitize_cases.
  - split; [split|]; reflexivity.
  - rewrite Heq, !(well_escaped_plain _ _ Hc). destruct IH as [[IH1 IH2] IH3].
    split; [split|exact IH3].
    + intros H. injection H as H. auto.
    + intros H. f_equal. auto.
  - split; [split|]; reflexivity.
  - rewrite Heq, !well_escaped_pair, Hv. cbn [andb]. destruct IH as [[IH1 IH2] IH3].
    split; [split|exact IH3].
    + intros H. injection H as H. auto.
    + intros H. do 2 f_equal. auto.
  - rewrite Heq, !well_escaped_pair, Hv. cbn [andb]. destruct IH as [_ IH3].
    split; [split|exact IH3].
    + intros H. injection H as H _. subst next. discriminate Hn.
    + discriminate.
Qed.

(** ** What the truncation repair changes *)

Lemma slice_prefix (s : jsstring) k : slice s 0 k `prefix_of` s.
Proof.
  unfold slice. cbn [skipn]. rewrite Nat.sub_0_r.
  exists (skipn k s). symmetry. apply firstn_skipn.
Qed.

Lemma trim_to_last_quote_prefix attempts : forall s,
  trim_to_last_quote attempts s `prefix_of` s.
Proof.
  induction attempts as [|attempts IH]; intros s; cbn [trim_to_last_quote];
    [reflexivity|].
  destruct (lastIndexOf QUOTE s) as [lastQuote|]; [|reflexivity].
  destruct (Nat.odd _).
  - etransitivity; [apply IH | apply slice_prefix].
  - apply slice_prefix.
Qed.

Lemma drop_while_suffix (f : char -> bool) (s : jsstring) :
  exists dropped, s = dropped ++ drop_while f s.
Proof.
  induction s as [|c r [d Hd]]; [exists []; reflexivity|].
  cbn [drop_while]. destruct (f c).
  - exists (c :: d). cbn. now f_equal.
  - exists []. reflexivity.
Qed.

Lemma strip_trailing_comma_prefix (s : jsstring) :
  strip_trailing_comma s `prefix_of` s.
Proof.
  unfold strip_trailing_comma.
  destruct (drop_while_suffix is_js_space (rev s)) as [d Hd].
  destruct (drop_while is_js_space (rev s)) as [|c r]; [reflexivity|].
  destruct (char_eqb c COMMA); [|reflexivity].
  exists (c :: rev d). rewrite <- (rev_involutive s), Hd, rev_app_distr.
  cbn [rev]. now rewrite <- app_assoc.
Qed.

Lemma kept_text_prefix raw : kept_text raw `prefix_of` raw.
Proof.
  unfold kept_text. etransitivity;
    [apply strip_trailing_comma_prefix | apply trim_to_last_quote_prefix].
Qed.

(** X17. The repair never rewrites the text: its result is a prefix of the
    input followed by closing brackets and then closing braces, as many of
    each as the scan of the prefix counts open (none for a count that is
    negative). *)
Theorem repair_keeps_a_prefix_and_appends_closers (raw : jsstring) :
  exists kept brackets braces,
    repairTruncatedJson raw
    = kept ++ repeat RBRACKET brackets ++ repeat RBRACE braces
    /\ kept `prefix_of` raw
    /\ Z.of_nat brackets = Z.max 0 (openBrackets (scan kept))
    /\ Z.of_nat braces = Z.max 0 (openBraces (scan kept)).
Proof.
  exists (kept_text raw), (Z.to_nat (openBrackets (scan (kept_text raw)))),
    (Z.to_nat (openBraces (scan (kept_text raw)))).
  split; [reflexivity|]. split; [apply kept_text_prefix|]. split; lia.
Qed.

Lemma scan_app a b : scan (a ++ b) = fold_left scan_char b (scan a).
Proof. unfold scan. apply fold_left_app. Qed.

Lemma scan_brackets n : forall st,
  inString st = false -> escaped st = false ->
  fold_left scan_char (repeat RBRACKET n) st
  = {| openBraces := openBraces st; openBrackets := openBrackets st - Z.of_nat n;
       inString := false; escaped := false |}.
Proof.
  induction n as [|n IH]; intros [a b i e] Hi He; cbn in Hi, He; subst.
  - cbn. f_equal. lia.
  - cbn [repeat fold_left]. unfold scan_char at 2. cbn.
    rewrite IH by reflexivity. cbn. f_equal. lia.
Qed.

Lemma scan_braces n : forall st,
  inString st = false -> escaped st = false ->
  fold_left scan_char (repeat RBRACE n) st
  = {| openBraces := openBraces st - Z.of_nat n; openBrackets := openBrackets st;
       inString := false; escaped := false |}.
Proof.
  induction n as [|n IH]; intros [a b i e] Hi He; cbn in Hi, He; subst.
  - cbn. f_equal. lia.
  - cbn [repeat fold_left]. unfold scan_char at 2. cbn.
    rewrite IH by reflexivity. cbn. f_equal. lia.
Qed.

Lemma scan_char_escaped st c :
  escaped st = true ->
  scan_char st c
  = {| openBraces := openBraces st; openBrackets := openBrackets st;
       inString := inString st; escaped := false |}.
Proof. unfold scan_char. now intros ->. Qed.

Lemma scan_char_closer_in_string st c :
  inString st = true -> escaped st = false -> c = RBRACKET \/ c = RBRACE ->
  scan_char st c = st.
Proof.
  destruct st as [a b i e]. cbn. intros -> -> [-> | ->]; reflexivity.
Qed.

Lemma scan_in_string (closers : jsstring) : forall st,
  inString st = true -> escaped st = false ->
  Forall (fun c => c = RBRACKET \/ c = RBRACE) closers ->
  fold_left scan_char closers st = st.
Proof.
  induction closers as [|c r IH]; intros st Hi He Hall; [reflexivity|].
  inversion Hall as [|? ? Hc Hr]; subst. cbn [fold_left].
  rewrite (scan_char_closer_in_string st c Hi He Hc). now apply IH.
Qed.

(** Inside a string the closers change no count, whether or not the first
    of them is taken for an escaped character. *)
Lemma scan_in_string_counts (closers : jsstring) : forall st,
  inString st = true ->
  Forall (fun c => c = RBRACKET \/ c = RBRACE) closers ->
  openBraces (fold_left scan_char closers st) = openBraces st
  /\ openBrackets (fold_left scan_char closers st) = openBrackets st.
Proof.
  destruct closers as [|c r]; intros st Hi Hall; [split; reflexivity|].
  inversion Hall as [|? ? Hc Hr]; subst. cbn [fold_left].
  destruct (escaped st) eqn:He.
  - rewrite (scan_char_escaped st c He), scan_in_string by (assumption || reflexivity).
    split; reflexivity.
  - rewrite (scan_char_closer_in_string st c Hi He Hc), scan_in_string by assumption.
    split; reflexivity.
Qed.

Lemma closers_are_closers brackets braces :
  Forall (fun c => c = RBRACKET \/ c = RBRACE)
         (repeat RBRACKET brackets ++ repeat RBRACE braces).
Proof.
  apply Forall_app. split; apply Forall_forall; intros c Hc;
    apply list_elem_of_In, repeat_spec in Hc; auto.
Qed.

(** Outside a string, after a backslash: the first closer is taken for an
    escaped character, and one brace or bracket stays open. *)
Lemma scan_closers_after_backslash brackets braces st :
  inString st = false -> escaped st = true ->
  openBrackets st = Z.of_nat brackets -> openBraces st = Z.of_nat braces ->
  let st' := fold_left scan_char (repeat RBRACKET brackets ++ repeat RBRACE braces) st in
  (openBraces st' + openBrackets st' = if (0 <? brackets + braces)%nat then 1 else 0)%Z.
Proof.
  intros Hi He Hb Ha.
  destruct brackets as [|brackets].
  - destruct braces as [|braces].
    + cbn. lia.
    + cbn [repeat app fold_left]. rewrite (scan_char_escaped st RBRACE He).
      rewrite scan_braces by (cbn; auto). cbn [openBraces openBrackets].
      replace (0 <? 0 + S braces)%nat with true by reflexivity. lia.
  - cbn [repeat app fold_left]. rewrite (scan_char_escaped st RBRACKET He).
    rewrite fold_left_app, scan_brackets by (cbn; auto).
    rewrite scan_braces by reflexivity. cbn [openBraces openBrackets].
    replace (0 <? S brackets + braces)%nat with true by reflexivity. lia.
Qed.

(** X18. When the text kept by the repair ends outside a string, with no
    surplus of closers, the repaired text has no brace or bracket left open,
    with one exception: when the kept text ends with a backslash that
    escapes nothing yet and some closer is due, the first closer is taken
    for the escaped character and one brace or bracket stays open.  When
    the kept text ends inside a string, the closers are appended inside that
    string and close nothing: the repaired text has as many braces and
    brackets open as the kept text. *)
Theorem repair_balances_outside_strings_only (raw : jsstring) :
  let st := scan (kept_text raw) in
  (inString st = false ->
   (0 <= openBraces st)%Z ->
   (0 <= openBrackets st)%Z ->
   unclosed (repairTruncatedJson raw)
   = (if escaped st && (0 <? openBraces st + openBrackets st)%Z then 1 else 0)%Z
   /\ (escaped st = false -> scan (repairTruncatedJson raw) = scan_start))
  /\ (inString st = true ->
      unclosed (repairTruncatedJson raw) = unclosed (kept_text raw)
      /\ (escaped st = false -> scan (repairTruncatedJson raw) = st)).
Proof.
  intros st.
  change (repairTruncatedJson raw)
    with (kept_text raw
          ++ repeat RBRACKET (Z.to_nat (openBrackets st))
          ++ repeat RBRACE (Z.to_nat (openBraces st))).
  split.
  - intros Hi Ha Hb.
    assert (escaped st = false ->
            scan (kept_text raw ++ repeat RBRACKET (Z.to_nat (openBrackets st))
                    ++ repeat RBRACE (Z.to_nat (openBraces st))) = scan_start) as Hs.
    { intros He. rewrite scan_app, fold_left_app. fold st.
      rewrite scan_brackets by assumption. rewrite scan_braces by reflexivity.
      cbn [openBraces openBrackets]. unfold scan_start. f_equal; lia. }
    split; [|exact Hs].
    destruct (escaped st) eqn:He; cbn [andb].
    + unfold unclosed. rewrite scan_app. fold st.
      rewrite (scan_closers_after_backslash _ _ st Hi He) by lia.
      destruct (0 <? openBraces st + openBrackets st)%Z eqn:Hpos.
      * apply Z.ltb_lt in Hpos.
        replace (0 <? Z.to_nat (openBrackets st) + Z.to_nat (openBraces st))%nat
          with true by (symmetry; apply Nat.ltb_lt; lia).
        reflexivity.
      * apply Z.ltb_ge in Hpos.
        replace (0 <? Z.to_nat (openBrackets st) + Z.to_nat (openBraces st))%nat
          with false by (symmetry; apply Nat.ltb_ge; lia).
        reflexivity.
    + unfold unclosed. rewrite (Hs eq_refl). reflexivity.
  - intros Hi. split.
    + unfold unclosed. rewrite scan_app. fold st.
      destruct (scan_in_string_counts _ st Hi
                  (closers_are_closers (Z.to_nat (openBrackets st))
                     (Z.to_nat (openBraces st)))) as [-> ->].
      reflexivity.
    + intros He. rewrite scan_app. fold st.
      apply scan_in_string; [assumption | assumption | apply closers_are_closers].
Qed.

Lemma repair_balances_outside_strings_only_witness :
  unclosed (repairTruncatedJson (jsq "{'a':[{'b':'c', 1")) = 0%Z
  /\ unclosed (repairTruncatedJson [LBRACE; BACKSLASH]) = 1%Z
  /\ unclosed (repairTruncatedJson (jsq "{'a':[{'b':'c"))
     = unclosed (kept_text (jsq "{'a':[{'b':'c")).
Proof.
  destruct (repair_balances_outside_strings_only (jsq "{'a':[{'b':'c', 1"))
    as [Hout _].
  destruct (repair_balances_outside_strings_only [LBRACE; BACKSLASH]) as [Hback _].
  destruct (repair_balances_outside_strings_only (jsq "{'a':[{'b':'c"))
    as [_ Hin].
  split; [|split].
  - destruct Hout as [Hout _];
      [reflexivity | vm_compute; discriminate | vm_compute; discriminate|].
    rewrite Hout. reflexivity.
  - destruct Hback as [Hback _];
      [reflexivity | vm_compute; discriminate | vm_compute; discriminate|].
    rewrite Hback. reflexivity.
  - apply Hin. reflexivity.
Defined.

(** ** Where the parsed text comes from *)

Lemma piece_refl s : piece_of s s.
Proof. exists [], []. now rewrite app_nil_r. Qed.

Lemma piece_trans a b c : piece_of a b -> piece_of b c -> piece_of a c.
Proof.
  intros (x & y & ->) (u & v & ->). exists (u ++ x), (y ++ v).
  now rewrite <- !app_assoc.
Qed.

Lemma trim_piece s : piece_of (trim s) s.
Proof.
  unfold trim. destruct (drop_while_suffix is_js_space s) as [d1 H1].
  destruct (drop_while_suffix is_js_space (rev (drop_while is_js_space s))) as [d2 H2].
  exists d1, (rev d2). rewrite H1 at 1. f_equal.
  rewrite <- (rev_involutive (drop_while is_js_space s)) at 1.
  rewrite H2 at 1. now rewrite rev_app_distr.
Qed.

Lemma slice_piece s a b : piece_of (slice s a b) s.
Proof.
  unfold slice. exists (firstn a s), (skipn (b - a) (skipn a s)).
  now rewrite firstn_skipn, firstn_skipn.
Qed.

Lemma strip_prefix_spec p : forall s r, strip_prefix p s = Some r -> s = p ++ r.
Proof.
  induction p as [|a p IH]; intros s r H.
  - cbn in H. now injection H as ->.
  - destruct s as [|b s]; [discriminate H|]. cbn [strip_prefix] in H.
    destruct (char_eqb a b) eqn:Hab; [|discriminate H].
    apply char_eqb_eq in Hab. subst b. cbn. f_equal. now apply IH.
Qed.

Lemma split_at_fence_spec s : forall before after,
  split_at_fence s = Some (before, after) -> s = before ++ FENCE ++ after.
Proof.
  induction s as [|c r IH]; intros before after H.
  - cbn in H. discriminate H.
  - cbn [split_at_fence] in H.
    destruct (strip_prefix FENCE (c :: r)) as [a|] eqn:Hp.
    + injection H as <- <-. now apply strip_prefix_spec in Hp.
    + destruct (split_at_fence r) as [[b a]|]; [|discriminate H].
      injection H as <- <-. cbn. f_equal. now apply IH.
Qed.

Lemma strip_json_word_suffix ignoreCase s :
  exists word, s = word ++ strip_json_word ignoreCase s.
Proof.
  unfold strip_json_word. destruct s as [|a [|b [|c [|d r]]]]; try (now exists []).
  destruct (letter_matches ignoreCase 106 a && letter_matches ignoreCase 115 b
            && letter_matches ignoreCase 111 c && letter_matches ignoreCase 110 d)%N;
    [exists [a; b; c; d] | exists []]; reflexivity.
Qed.

Lemma match_fence_piece ignoreCase text group :
  match_fence ignoreCase text = Some group -> piece_of group text.
Proof.
  unfold match_fence.
  destruct (split_at_fence text) as [[before after]|] eqn:H1; [|discriminate].
  destruct (split_at_fence (drop_while _ _)) as [[g rest]|] eqn:H2; [|discriminate].
  intros H. injection H as <-.
  apply split_at_fence_spec in H1, H2.
  destruct (strip_json_word_suffix ignoreCase after) as [word Hw].
  destruct (drop_while_suffix is_js_space (strip_json_word ignoreCase after))
    as [ws Hws].
  exists (before ++ FENCE ++ word ++ ws), (FENCE ++ rest).
  rewrite H1. rewrite Hw at 1. rewrite Hws at 1. rewrite H2.
  now rewrite <- !app_assoc.
Qed.

Lemma extractFencedJson_piece text c :
  extractFencedJson text = Some c -> piece_of c text.
Proof.
  unfold extractFencedJson. intros H.
  destruct (match_fence true text) as [g|] eqn:Hm; [|discriminate H].
  injection H as <-. eapply piece_trans; [apply trim_piece|].
  eapply match_fence_piece; eauto.
Qed.

Lemma extractDelimitedJson_piece text start end_ c :
  extractDelimitedJson text start end_ = Some c -> piece_of c text.
Proof.
  unfold extractDelimitedJson.
  destruct (indexOf start text); [|discriminate].
  destruct (lastIndexOf end_ text); [|discriminate].
  destruct (_ <=? _)%nat; [discriminate|]. intros H. injection H as <-.
  eapply piece_trans; [apply trim_piece | apply slice_piece].
Qed.

Lemma truthy_Some o s : truthy o = Some s -> o = Some s /\ s <> [].
Proof.
  unfold truthy. destruct o as [x|]; [|discriminate].
  destruct x; cbn; [discriminate|]. intros H. injection H as <-. split; [reflexivity|].
  discriminate.
Qed.

Lemma JSON_parse_c_Normal E c v : JSON_parse_c E c = Normal v -> JSON_parse c = Some v.
Proof.
  unfold JSON_parse_c. destruct (JSON_parse c); [|discriminate].
  intros H. now injection H as ->.
Qed.

(** X19. Whatever [parseJsonFromModelText] returns is what [JSON.parse]
    makes of a non-empty contiguous piece of the raw text: the trimmed text,
    the content of its first fenced block, or its span from the first
    opening to the last closing brace or bracket.  Nothing is parsed that
    the model did not write. *)
Theorem parseJsonFromModelText_parses_a_piece
    (E : Engine) (raw : jsstring) (v : json) :
  parseJsonFromModelText E raw = Normal v ->
  exists candidate,
    piece_of candidate raw
    /\ candidate <> []
    /\ JSON_parse candidate = Some v.
Proof.
  unfold parseJsonFromModelText. intros H.
  destruct (is_empty (trim raw)) eqn:Hempty; [discriminate H|].
  pose proof (trim_piece raw) as Htrim.
  destruct (truthy (extractFencedJson (trim raw))) as [fenced|] eqn:Hf.
  - apply truthy_Some in Hf as [Hf Hne].
    destruct (JSON_parse fenced) as [v'|] eqn:Hp.
    + injection H as <-. exists fenced. split; [|split; assumption].
      eapply piece_trans; [eapply extractFencedJson_piece; eauto | exact Htrim].
    + revert H. clear Hp. revert Htrim Hempty. generalize (trim raw). intros t Ht He H.
      destruct (JSON_parse t) as [v'|] eqn:Hp.
      * injection H as <-. exists t. split; [exact Ht|]. split; [|exact Hp].
        intros ->. discriminate He.
      * destruct (truthy (extractDelimitedJson t LBRACE RBRACE)) as [c|] eqn:Hc.
        -- apply truthy_Some in Hc as [Hc Hn]. apply JSON_parse_c_Normal in H.
           exists c. split; [|split; assumption].
           eapply piece_trans; [eapply extractDelimitedJson_piece; eauto | exact Ht].
        -- destruct (truthy (extractDelimitedJson t LBRACKET RBRACKET)) as [c|] eqn:Hc';
             [|discriminate H].
           apply truthy_Some in Hc' as [Hc' Hn]. apply JSON_parse_c_Normal in H.
           exists c. split; [|split; assumption].
           eapply piece_trans; [eapply extractDelimitedJson_piece; eauto | exact Ht].
  - revert H. revert Htrim Hempty. generalize (trim raw). intros t Ht He H.
    destruct (JSON_parse t) as [v'|] eqn:Hp.
    + injection H as <-. exists t. split; [exact Ht|]. split; [|exact Hp].
      intros ->. discriminate He.
    + destruct (truthy (extractDelimitedJson t LBRACE RBRACE)) as [c|] eqn:Hc.
      * apply truthy_Some in Hc as [Hc Hn]. apply JSON_parse_c_Normal in H.
        exists c. split; [|split; assumption].
        eapply piece_trans; [eapply extractDelimitedJson_piece; eauto | exact Ht].
      * destruct (truthy (extractDelimitedJson t LBRACKET RBRACKET)) as [c|] eqn:Hc';
          [|discriminate H].
        apply truthy_Some in Hc' as [Hc' Hn]. apply JSON_parse_c_Normal in H.
        exists c. split; [|split; assumption].
        eapply piece_trans; [eapply extractDelimitedJson_piece; eauto | exact Ht].
Qed.

Lemma parseJsonFromModelText_parses_a_piece_witness :
  exists candidate,
    piece_of candidate (jsq "Here you go: {'a': [1, 2]} Enjoy!")
    /\ candidate <> []
    /\ JSON_parse candidate = Some (JObject [(js "a", JArray [JNumber (js "1");
                                                               JNumber (js "2")])]).
Proof.
  apply (parseJsonFromModelText_parses_a_piece exampleEngine).
  vm_compute. reflexivity.
Defined.

Lemma extract_payload_piece raw : piece_of (extract_payload raw) raw.
Proof.
  unfold extract_payload.
  destruct (match_fence false raw) as [g|] eqn:Hm.
  - eapply piece_trans; [apply trim_piece | eapply match_fence_piece; eauto].
  - destruct (indexOf LBRACE raw); [|apply piece_refl].
    destruct (lastIndexOf RBRACE raw); [|apply piece_refl].
    destruct (_ <? _)%nat; [apply slice_piece | apply piece_refl].
Qed.

(** X20. Whatever [parseJsonResponse] returns is what [JSON.parse] makes of
    a contiguous piece of the raw text, the payload, taken as it is, or
    sanitized, or sanitized and repaired, in this order of preference; and
    when it throws, none of the three parses and the error is an [Error]
    whose message starts with the text of line 536. *)
Theorem parseJsonResponse_parses_the_payload (E : Engine) (raw : jsstring) :
  exists payload,
    piece_of payload raw
    /\ let sanitized := sanitizeJsonBackslashes payload in
       let repaired := repairTruncatedJson sanitized in
       match parseJsonResponse E raw with
       | Normal v =>
           JSON_parse payload = Some v
           \/ (JSON_parse payload = None /\ JSON_parse sanitized = Some v)
           \/ (JSON_parse payload = None /\ JSON_parse sanitized = None
               /\ JSON_parse repaired = Some v)
       | Throw e =>
           JSON_parse payload = None /\ JSON_parse sanitized = None
           /\ JSON_parse repaired = None
           /\ exists detail,
                e = ErrorObj (js "Could not parse JSON from response: " ++ detail)
       end.
Proof.
  exists (extract_payload raw). split; [apply extract_payload_piece|].
  unfold parseJsonResponse, parse_with_recovery. cbn zeta.
  destruct (JSON_parse (extract_payload raw)); [now left|].
  destruct (JSON_parse (sanitizeJsonBackslashes (extract_payload raw)));
    [right; left; auto|].
  destruct (JSON_parse (repairTruncatedJson _)); [right; right; auto|].
  repeat split. eexists. reflexivity.
Qed.

(** ** The runtime configuration *)

Lemma readNumber_ok toNumber env name fallback min x :
  (inject_Z min <= match fallback with Num q => q | _ => inject_Z min - 1 end)%Q ->
  readNumber toNumber env name fallback min = Normal x ->
  exists q, x = Num q /\ (inject_Z min <= q)%Q.
Proof.
  unfold readNumber. intros Hfb H.
  destruct (truthy (env_trim env name)) as [raw|].
  - destruct (toNumber raw) as [q| | |]; cbn in H; try discriminate H.
    destruct (Qle_bool (inject_Z min) q) eqn:Hle; cbn in H; [|discriminate H].
    injection H as <-. exists q. split; [reflexivity|]. now apply Qle_bool_iff.
  - injection H as <-. destruct fallback as [q| | |]; try (exfalso; lra).
    exists q. auto.
Qed.

Lemma readNumber_unset toNumber env name fallback min :
  truthy (env_trim env name) = None ->
  readNumber toNumber env name fallback min = Normal fallback.
Proof. unfold readNumber. now intros ->. Qed.

(** X21. A configuration that [loadRuntimeConfig] returns is validated:
    every numeric setting is a finite number at or above its minimum (256
    output tokens, temperature 0, 0 retries, a timeout of 1000 ms, a
    concurrency of 1), the model name is not empty, and in live mode the
    API key is present and not empty. *)
Theorem loadRuntimeConfig_validates
    (E : Engine) (toNumber : jsstring -> jsnumber) (env : Env) (cfg : LoadedConfig) :
  loadRuntimeConfig E toNumber env = Normal cfg ->
  (exists q, cfg_maxOutputTokens cfg = Num q /\ (256 <= q)%Q)
  /\ (exists q, cfg_temperature cfg = Num q /\ (0 <= q)%Q)
  /\ (exists q, cfg_retryCount cfg = Num q /\ (0 <= q)%Q)
  /\ (exists q, cfg_requestTimeoutMs cfg = Num q /\ (1000 <= q)%Q)
  /\ (exists q, cfg_lessonAgentConcurrency cfg = Num q /\ (1 <= q)%Q)
  /\ cfg_gatewayModel cfg <> []
  /\ (cfg_mode cfg = live ->
      exists key, cfg_gatewayApiKey cfg = Some key /\ key <> []).
Proof.
  unfold loadRuntimeConfig. intros H.
  destruct (match resolveMode E env _ with live => _ | mock => _ end) eqn:Hkey;
    [discriminate H|].
  apply bind_Normal_inv in H as (x1 & H1 & H).
  apply bind_Normal_inv in H as (x2 & H2 & H).
  apply bind_Normal_inv in H as (x3 & H3 & H).
  apply bind_Normal_inv in H as (x4 & H4 & H).
  apply bind_Normal_inv in H as (x5 & H5 & H).
  apply bind_Normal_inv in H as (x6 & H6 & H).
  injection H as <-.
  cbn [cfg_mode cfg_gatewayApiKey cfg_gatewayModel cfg_maxOutputTokens cfg_temperature
       cfg_retryCount cfg_requestTimeoutMs cfg_lessonAgentConcurrency].
  apply readNumber_ok in H1; [|vm_compute; discriminate].
  apply readNumber_ok in H2; [|vm_compute; discriminate].
  apply readNumber_ok in H3; [|vm_compute; discriminate].
  apply readNumber_ok in H4; [|vm_compute; discriminate].
  apply readNumber_ok in H5; [|vm_compute; discriminate].
  repeat (split; [assumption|]). split.
  - unfold readString.
    destruct (truthy (env_trim env (js "AI_GATEWAY_MODEL"))) as [m|] eqn:Hm.
    + now apply truthy_Some in Hm as [_ Hm].
    + discriminate.
  - intros Hlive. rewrite Hlive in Hkey.
    destruct (env_trim env (js "AI_GATEWAY_API_KEY")) as [key|]; [|discriminate Hkey].
    exists key. split; [reflexivity|]. intros ->. discriminate Hkey.
Qed.

Lemma loadRuntimeConfig_validates_witness :
  exists cfg,
    loadRuntimeConfig exampleEngine exampleNumber exampleEnv = Normal cfg
    /\ exists q, cfg_lessonAgentConcurrency cfg = Num q /\ (1 <= q)%Q.
Proof.
  destruct (loadRuntimeConfig exampleEngine exampleNumber exampleEnv) as [cfg|e] eqn:H;
    [|vm_compute in H; discriminate H].
  exists cfg. split; [reflexivity|].
  destruct (loadRuntimeConfig_validates exampleEngine exampleNumber exampleEnv cfg H)
    as (_ & _ & _ & _ & Hc & _).
  exact Hc.
Defined.




Lemma readBoolean_unset E env name fallback :
  toLowerCase E [] = [] ->
  truthy (env_trim env name) = None ->
  readBoolean E env name fallback = Normal fallback.
Proof.
  unfold readBoolean, truthy. intros Hl Hn.
  destruct (env_trim env name) as [[|c r]|]; cbn [option_map]; try discriminate Hn.
  - now rewrite Hl.
  - reflexivity.
Qed.

(** X23. A setting that is absent, empty or blank counts as unset: when
    every variable that [loadRuntimeConfig] reads is so, it returns the
    defaults, in mock mode (for an engine whose [toLowerCase] leaves the
    empty string and the word auto as they are). *)
Theorem blank_settings_give_the_defaults
    (E : Engine) (toNumber : jsstring -> jsnumber) (env : Env) :
  toLowerCase E [] = [] ->
  toLowerCase E (js "auto") = js "auto" ->
  (forall name,
     In name [js "AI_GATEWAY_API_KEY"; js "MENTAT_AGENT_MODE"; js "AI_GATEWAY_MODEL";
              js "MENTAT_MAX_OUTPUT_TOKENS"; js "MENTAT_TEMPERATURE";
              js "MENTAT_RETRY_COUNT"; js "MENTAT_REQUEST_TIMEOUT_MS";
              js "MENTAT_LESSON_CONCURRENCY"; js "MENTAT_VERBOSE_AGENT_LOGS"] ->
     truthy (env_trim env name) = None) ->
  loadRuntimeConfig E toNumber env
  = Normal {| cfg_mode := mock;
              cfg_gatewayApiKey := env_trim env (js "AI_GATEWAY_API_KEY");
              cfg_gatewayModel := DEFAULT_MODEL;
              cfg_maxOutputTokens := Num 4096;
              cfg_temperature := Num (2 # 10);
              cfg_retryCount := Num 2;
              cfg_requestTimeoutMs := Num 90000;
              cfg_lessonAgentConcurrency := Num 4;
              cfg_verboseAgentLogs := true |}.
Proof.
  intros Hempty Hauto Hunset. unfold loadRuntimeConfig.
  assert (resolveMode E env (env_trim env (js "AI_GATEWAY_API_KEY")) = mock) as ->.
  { unfold resolveMode, readString.
    rewrite (Hunset (js "MENTAT_AGENT_MODE")) by (cbn; auto).
    rewrite Hauto, (Hunset (js "AI_GATEWAY_API_KEY")) by (cbn; auto 10).
    reflexivity. }
  unfold readString. rewrite (Hunset (js "AI_GATEWAY_MODEL")) by (cbn; auto 10).
  rewrite !readNumber_unset by (apply Hunset; cbn; auto 10).
  rewrite readBoolean_unset by (try apply Hunset; cbn; auto 10).
  reflexivity.
Qed.

Lemma blank_settings_give_the_defaults_witness :
  exists cfg,
    loadRuntimeConfig exampleEngine exampleNumber
      (<[js "MENTAT_RETRY_COUNT" := js "   "]> ∅) = Normal cfg
    /\ cfg_retryCount cfg = Num 2 /\ cfg_mode cfg = mock.
Proof.
  eexists. split.
  - apply (blank_settings_give_the_defaults exampleEngine exampleNumber).
    + reflexivity.
    + reflexivity.
    + intros name Hin. cbn [In] in Hin.
      repeat (destruct Hin as [<- | Hin]; [vm_compute; reflexivity|]).
      contradiction.
  - split; reflexivity.
Defined.

Lemma string_eqb_eq a : forall b, string_eqb a b = true <-> a = b.
Proof.
  induction a as [|x a IH]; intros [|y b]; cbn [string_eqb]; split;
    try discriminate; try reflexivity.
  - intros H. apply andb_true_iff in H as [Hx Ha].
    apply char_eqb_eq in Hx. apply IH in Ha. congruence.
  - intros H. injection H as -> ->. apply andb_true_iff. split.
    + now apply char_eqb_eq.
    + now apply IH.
Qed.

(** X24. The mode that is set wins over the presence of a key: with the
    mode set to live (in any case of the letters that the engine lowers to
    live) and no key, loading throws the error that asks for the key, before
    any other setting is read; with the mode set to mock a configuration
    that is returned is in mock mode, key or no key; and with any other
    mode text the configuration is in live mode exactly when a key is
    set. *)
Theorem mode_setting_wins_over_key
    (E : Engine) (toNumber : jsstring -> jsnumber) (env : Env) :
  let modeText := toLowerCase E (readString env (js "MENTAT_AGENT_MODE") (js "auto")) in
  let key := truthy (env_trim env (js "AI_GATEWAY_API_KEY")) in
  (modeText = js "live" -> key = None ->
   loadRuntimeConfig E toNumber env = Throw (ErrorObj API_KEY_REQUIRED))
  /\ (modeText = js "mock" ->
      forall cfg, loadRuntimeConfig E toNumber env = Normal cfg -> cfg_mode cfg = mock)
  /\ (modeText <> js "live" -> modeText <> js "mock" ->
      forall cfg, loadRuntimeConfig E toNumber env = Normal cfg ->
                  (cfg_mode cfg = live <-> key <> None)).
Proof.
  intros modeText key.
  assert (forall cfg, loadRuntimeConfig E toNumber env = Normal cfg ->
            cfg_mode cfg = resolveMode E env (env_trim env (js "AI_GATEWAY_API_KEY")))
    as Hmode.
  { intros cfg H. unfold loadRuntimeConfig in H.
    destruct (match resolveMode E env _ with live => _ | mock => _ end);
      [discriminate H|].
    repeat (apply bind_Normal_inv in H as (? & _ & H)).
    now injection H as <-. }
  pose proof string_eqb_eq as Heqb.
  split; [|split].
  - intros Hlive Hkey. unfold loadRuntimeConfig, resolveMode. fold modeText.
    rewrite Hlive. cbn [string_eqb]. unfold key, truthy in Hkey.
    destruct (env_trim env (js "AI_GATEWAY_API_KEY")) as [[|c r]|];
      try discriminate Hkey; reflexivity.
  - intros Hmock cfg H. rewrite (Hmode cfg H). unfold resolveMode. fold modeText.
    rewrite Hmock. reflexivity.
  - intros Hnl Hnm cfg H. rewrite (Hmode cfg H). unfold resolveMode. fold modeText.
    destruct (string_eqb modeText (js "live")) eqn:H1;
      [apply Heqb in H1; contradiction|].
    destruct (string_eqb modeText (js "mock")) eqn:H2;
      [apply Heqb in H2; contradiction|].
    fold key. destruct key; split; congruence.
Qed.

Lemma mode_setting_wins_over_key_witness :
  loadRuntimeConfig exampleEngine exampleNumber (<[js "MENTAT_AGENT_MODE" := js "LIVE"]> ∅)
  = Throw (ErrorObj API_KEY_REQUIRED)
  /\ forall cfg,
       loadRuntimeConfig exampleEngine exampleNumber exampleEnv = Normal cfg ->
       cfg_mode cfg = mock.
Proof.
  destruct (mode_setting_wins_over_key exampleEngine exampleNumber
              (<[js "MENTAT_AGENT_MODE" := js "LIVE"]> ∅)) as [Hlive _].
  destruct (mode_setting_wins_over_key exampleEngine exampleNumber exampleEnv)
    as (_ & Hmock & _).
  split.
  - apply Hlive; vm_compute; reflexivity.
  - apply Hmock. vm_compute. reflexivity.
Defined.

(** ** Stripping at both ends *)

Lemma drop_while_head (f : char -> bool) s :
  match drop_while f s with [] => True | c :: _ => f c = false end.
Proof.
  induction s as [|c r IH]; [exact I|]. cbn [drop_while].
  destruct (f c) eqn:Hc; [exact IH | exact Hc].
Qed.

Lemma drop_while_fix (f : char -> bool) s :
  match s with [] => True | c :: _ => f c = false end -> drop_while f s = s.
Proof. destruct s as [|c r]; [reflexivity|]. cbn [drop_while]. now intros ->. Qed.

Lemma drop_while_idem (f : char -> bool) s :
  drop_while f (drop_while f s) = drop_while f s.
Proof. apply drop_while_fix, drop_while_head. Qed.

Lemma drop_while_length (f : char -> bool) s :
  List.length (drop_while f s) <= List.length s.
Proof.
  induction s as [|c r IH]; [reflexivity|]. cbn [drop_while].
  destruct (f c); cbn [List.length]; lia.
Qed.

Lemma drop_while_fix_head (f : char -> bool) c r :
  drop_while f (c :: r) = c :: r -> f c = false.
Proof.
  cbn [drop_while]. destruct (f c); [|reflexivity]. intros H.
  pose proof (drop_while_length f r) as Hl. rewrite H in Hl. cbn in Hl. lia.
Qed.

(** What is left after stripping at both ends is stripped at both ends. *)
Lemma strip_fix_left (f : char -> bool) s :
  drop_while f (rev (drop_while f (rev (drop_while f s))))
  = rev (drop_while f (rev (drop_while f s))).
Proof.
  destruct (drop_while_suffix f (rev (drop_while f s))) as [d Hd].
  destruct (rev (drop_while f (rev (drop_while f s)))) as [|z t] eqn:Hr;
    [reflexivity|].
  apply drop_while_fix.
  assert (drop_while f (rev (drop_while f s)) = rev t ++ [z]) as Hu
    by (rewrite <- (rev_involutive (drop_while f (rev _))), Hr; reflexivity).
  assert (drop_while f s = z :: t ++ rev d) as Hs.
  { rewrite <- (rev_involutive (drop_while f s)), Hd, Hu, !rev_app_distr.
    cbn [rev app]. now rewrite rev_involutive. }
  pose proof (drop_while_head f s) as Hh. now rewrite Hs in Hh.
Qed.

Lemma strip_fix_right (f : char -> bool) s :
  drop_while f (rev (rev (drop_while f (rev (drop_while f s)))))
  = rev (rev (drop_while f (rev (drop_while f s)))).
Proof. rewrite rev_involutive. apply drop_while_idem. Qed.

Lemma trim_idempotent s : trim (trim s) = trim s.
Proof.
  unfold trim. rewrite strip_fix_left, rev_involutive. apply strip_fix_left.
Qed.

(** ** Reading a parsed value *)

(** X25. What the readers of utils/json.ts return is clean: every string
    of [asStringArray] is trimmed and not empty; [asString] returns a
    trimmed string when its fallback is one; every entry of [asObjectArray]
    is an object, which [asObject] accepts; [asObject] returns exactly on
    objects and throws on anything else, arrays and null included; and on a
    value that is no array the two array readers return the empty array. *)
Theorem json_readers_return_clean_values (value : option json) (fallback : jsstring) :
  (forall s, In s (asStringArray value) -> s <> [] /\ trim s = s)
  /\ (trim fallback = fallback ->
      trim (asString value fallback) = asString value fallback)
  /\ (forall x, In x (asObjectArray value) ->
        exists members, x = JObject members /\ asObject (Some x) = Normal members)
  /\ (forall members, asObject value = Normal members <-> value = Some (JObject members))
  /\ ((forall items, value <> Some (JArray items)) ->
      asStringArray value = [] /\ asObjectArray value = []).
Proof.
  split; [|split; [|split; [|split]]].
  - intros s Hs. unfold asStringArray in Hs.
    destruct value as [[| | | |items|]|]; try contradiction.
    apply filter_In in Hs as [Hin Hne]. split.
    + intros ->. discriminate Hne.
    + apply in_map_iff in Hin as (item & <- & _).
      destruct item; try reflexivity. apply trim_idempotent.
  - intros Hfb. unfold asString.
    destruct value as [[| | |s| |]|]; try exact Hfb. apply trim_idempotent.
  - intros x Hx. unfold asObjectArray in Hx.
    destruct value as [[| | | |items|]|]; try contradiction.
    apply filter_In in Hx as [_ Hobj]. destruct x; try discriminate Hobj.
    eexists. split; reflexivity.
  - intros members. unfold asObject.
    destruct value as [[| | | | |m]|]; split; intros H; try discriminate H.
    + now injection H as ->.
    + now injection H as ->.
  - intros Hna. unfold asStringArray, asObjectArray.
    destruct value as [[| | | |items|]|]; try (split; reflexivity).
    now destruct (Hna items).
Qed.

(** ** Chunks *)

Lemma chunks_from_spec {A} (size : nat) : forall fuel (rest : list A),
  1 <= size -> List.length rest <= fuel ->
  concat (chunks_from fuel size rest) = rest
  /\ List.length (chunks_from fuel size rest) = (List.length rest + size - 1) / size
  /\ forall i c, chunks_from fuel size rest !! i = Some c ->
       1 <= List.length c <= size
       /\ (S i < List.length (chunks_from fuel size rest) -> List.length c = size).
Proof.
  induction fuel as [|fuel IH]; intros rest Hsize Hfuel.
  - destruct rest; [|cbn in Hfuel; lia]. cbn [chunks_from concat List.length].
    split; [reflexivity|]. split.
    + symmetry. apply Nat.div_small. lia.
    + intros i c H. rewrite lookup_nil in H. discriminate H.
  - cbn [chunks_from]. destruct rest as [|x rest'] eqn:Hrest.
    + cbn [concat List.length]. split; [reflexivity|]. split.
      * symmetry. apply Nat.div_small. lia.
      * intros i c H. rewrite lookup_nil in H. discriminate H.
    + rewrite <- Hrest in *.
      assert (1 <= List.length rest) as Hne by (rewrite Hrest; cbn; lia).
      destruct (IH (skipn size rest) Hsize) as (Hcat & Hlen & Hall).
      { rewrite length_skipn. lia. }
      split; [|split].
      * cbn [concat]. rewrite Hcat. apply firstn_skipn.
      * cbn [List.length]. rewrite Hlen, length_skipn.
        destruct (le_lt_dec (List.length rest) size) as [Hle | Hgt].
        -- replace (List.length rest - size) with 0 by lia.
           rewrite (Nat.div_small (0 + size - 1)) by lia.
           apply (Nat.div_unique _ _ 1 (List.length rest - 1)); lia.
        -- replace (List.length rest + size - 1)
             with ((List.length rest - size + size - 1) + 1 * size) by lia.
           rewrite Nat.div_add by lia. lia.
      * intros [|i] c Hc.
        -- injection Hc as <-. rewrite length_firstn. split; [lia|].
           cbn [List.length]. rewrite Hlen, length_skipn. intros Hmore.
           destruct (le_lt_dec (List.length rest) size) as [Hle | Hgt]; [|lia].
           replace (List.length rest - size) with 0 in Hmore by lia.
           rewrite (Nat.div_small (0 + size - 1)) in Hmore by lia. lia.
        -- destruct (Hall i c Hc) as [Hb Hfull]. split; [exact Hb|].
           cbn [List.length]. intros Hmore. apply Hfull. lia.
Qed.

(** X26. [chunkArray] throws on a size that is not positive and returns
    otherwise; the chunks, put together in order, are the items; there are
    [ceil (n / size)] of them; none is empty or longer than [size], and
    every chunk but the last has exactly [size] items. *)
Theorem chunkArray_partitions_the_items {A : Type} (items : list A) (size : Z) :
  ((size <= 0)%Z ->
   chunkArray items size = Throw (ErrorObj (js "Chunk size must be positive.")))
  /\ ((0 < size)%Z ->
      exists chunks,
        chunkArray items size = Normal chunks
        /\ concat chunks = items
        /\ List.length chunks
           = (List.length items + Z.to_nat size - 1) / Z.to_nat size
        /\ forall i c, chunks !! i = Some c ->
             1 <= List.length c <= Z.to_nat size
             /\ (S i < List.length chunks -> List.length c = Z.to_nat size)).
Proof.
  unfold chunkArray. split; intros Hsize.
  - now replace (size <=? 0)%Z with true by (symmetry; apply Z.leb_le; lia).
  - replace (size <=? 0)%Z with false by (symmetry; apply Z.leb_gt; lia).
    eexists. split; [reflexivity|].
    apply chunks_from_spec; lia.
Qed.

Lemma chunkArray_partitions_the_items_witness :
  exists chunks,
    chunkArray [1; 2; 3; 4; 5; 6; 7]%nat 3 = Normal chunks
    /\ concat chunks = [1; 2; 3; 4; 5; 6; 7]%nat
    /\ List.length chunks = 3.
Proof.
  destruct (chunkArray_partitions_the_items [1; 2; 3; 4; 5; 6; 7]%nat 3) as [_ H].
  destruct (H ltac:(lia)) as (chunks & Hc & Hcat & Hlen & _).
  exists chunks. split; [exact Hc|]. split; [exact Hcat|]. rewrite Hlen. reflexivity.
Defined.

(** ** Slugs and identifiers *)

Lemma slug_char_not_hyphen c : is_slug_char c = true -> is_hyphen c = false.
Proof.
  unfold is_slug_char, is_hyphen, char_eqb, HYPHEN. intros H.
  apply N.eqb_neq. intros ->. discriminate H.
Qed.

Lemma replace_runs_chars s : forall in_run,
  Forall (fun c => is_slug_char c = true \/ c = HYPHEN) (replace_runs in_run s).
Proof.
  induction s as [|c r IH]; intros in_run; cbn [replace_runs]; [constructor|].
  destruct (is_slug_char c) eqn:Hc; [constructor; auto|].
  destruct in_run; [apply IH | constructor; auto].
Qed.

Lemma no_double_cons a r :
  no_double (a :: r)
  = match r with
    | b :: _ => negb (is_hyphen a && is_hyphen b) && no_double r
    | [] => true
    end.
Proof. reflexivity. Qed.

Lemma replace_runs_no_double s : forall in_run,
  no_double (replace_runs in_run s) = true
  /\ (in_run = true ->
      match replace_runs true s with c :: _ => is_hyphen c = false | [] => True end).
Proof.
  induction s as [|c r IH]; intros in_run; cbn [replace_runs]; [split; auto|].
  destruct (is_slug_char c) eqn:Hc.
  - pose proof (slug_char_not_hyphen c Hc) as Hh.
    destruct (IH false) as [Hd _]. split; [|intros _; exact Hh].
    rewrite no_double_cons. destruct (replace_runs false r); [reflexivity|].
    now rewrite Hh, Hd.
  - destruct (IH true) as [Hd Hhead]. specialize (Hhead eq_refl).
    destruct in_run; [split; [exact Hd | intros _; exact Hhead]|].
    split; [|discriminate]. rewrite no_double_cons.
    destruct (replace_runs true r); [reflexivity|].
    now rewrite Hhead, andb_false_r, Hd.
Qed.

Lemma no_double_suffix a : forall b, no_double (a ++ b) = true -> no_double b = true.
Proof.
  induction a as [|x a IH]; intros b H; [exact H|].
  apply IH. cbn [app] in H. rewrite no_double_cons in H.
  destruct (a ++ b); [reflexivity|]. now apply andb_true_iff in H as [_ H].
Qed.

Lemma no_double_prefix a : forall b, no_double (a ++ b) = true -> no_double a = true.
Proof.
  induction a as [|x a IH]; intros b H; [reflexivity|].
  cbn [app] in H. rewrite no_double_cons in *.
  destruct a as [|y a]; [reflexivity|]. cbn [app] in *.
  apply andb_true_iff in H as [H1 H2]. rewrite H1. cbn [andb].
  now apply (IH b).
Qed.

Lemma no_double_piece t s : piece_of t s -> no_double s = true -> no_double t = true.
Proof.
  intros (p & q & ->) H. apply no_double_suffix in H. now apply no_double_prefix in H.
Qed.

Lemma no_double_spec s :
  no_double s = true -> forall a b, s <> a ++ HYPHEN :: HYPHEN :: b.
Proof.
  intros H a b ->. apply no_double_suffix in H. discriminate H.
Qed.

Lemma collapse_fix s : no_double s = true -> collapse_hyphens s = s.
Proof.
  induction s as [|a r IH]; [reflexivity|]. rewrite no_double_cons.
  cbn [collapse_hyphens]. destruct r as [|b r']; [reflexivity|].
  intros H. apply andb_true_iff in H as [H1 H2].
  apply negb_true_iff in H1. rewrite H1. f_equal. now apply IH.
Qed.

Lemma strip_hyphens_piece s : piece_of (strip_hyphens s) s.
Proof.
  unfold strip_hyphens. destruct (drop_while_suffix is_hyphen s) as [d1 H1].
  destruct (drop_while_suffix is_hyphen (rev (drop_while is_hyphen s))) as [d2 H2].
  exists d1, (rev d2). rewrite H1 at 1. f_equal.
  rewrite <- (rev_involutive (drop_while is_hyphen s)) at 1.
  rewrite H2 at 1. now rewrite rev_app_distr.
Qed.

Lemma Forall_piece (P : char -> Prop) t s : piece_of t s -> Forall P s -> Forall P t.
Proof.
  intros (p & q & ->) H. apply Forall_app in H as [_ H]. now apply Forall_app in H as [H _].
Qed.

(** X27. A slug consists of lower-case ASCII letters, digits and hyphens
    only: it holds no separator of a path, no dot and no space.  It neither
    begins nor ends with a hyphen and has no two hyphens in a row, so the
    last of the three replacements of [slugify] never changes anything.  An
    identifier of [createId] is its prefix, a hyphen, and a tail of such
    characters that is never empty. *)
Theorem slugify_yields_clean_slugs (E : Engine) (value : jsstring) :
  let slug := slugify E value in
  Forall (fun c => is_slug_char c = true \/ c = HYPHEN) slug
  /\ (forall r, slug <> HYPHEN :: r)
  /\ (forall r, slug <> r ++ [HYPHEN])
  /\ (forall a b, slug <> a ++ HYPHEN :: HYPHEN :: b)
  /\ slug = strip_hyphens (replace_runs false (toLowerCase E value))
  /\ forall prefix, exists tail,
       createId E prefix value = prefix ++ HYPHEN :: tail
       /\ tail <> []
       /\ Forall (fun c => is_slug_char c = true \/ c = HYPHEN) tail.
Proof.
  intros slug.
  pose proof (strip_hyphens_piece (replace_runs false (toLowerCase E value))) as Hpiece.
  destruct (replace_runs_no_double (toLowerCase E value) false) as [Hnd _].
  pose proof (no_double_piece _ _ Hpiece Hnd) as Hnd'.
  assert (slug = strip_hyphens (replace_runs false (toLowerCase E value))) as Hslug
    by (apply collapse_fix; exact Hnd').
  assert (Forall (fun c => is_slug_char c = true \/ c = HYPHEN) slug) as Hchars.
  { rewrite Hslug. eapply Forall_piece; [exact Hpiece | apply replace_runs_chars]. }
  split; [exact Hchars|]. split; [|split; [|split; [|split; [exact Hslug|]]]].
  - intros r Hr. rewrite Hslug in Hr.
    pose proof (strip_fix_left is_hyphen (replace_runs false (toLowerCase E value)))
      as Hfix.
    fold (strip_hyphens (replace_runs false (toLowerCase E value))) in Hfix.
    rewrite Hr in Hfix. apply drop_while_fix_head in Hfix. discriminate Hfix.
  - intros r Hr. rewrite Hslug in Hr.
    pose proof (strip_fix_right is_hyphen (replace_runs false (toLowerCase E value)))
      as Hfix.
    fold (strip_hyphens (replace_runs false (toLowerCase E value))) in Hfix.
    rewrite Hr, rev_app_distr in Hfix. cbn [rev app] in Hfix.
    apply drop_while_fix_head in Hfix. discriminate Hfix.
  - apply no_double_spec. now rewrite Hslug.
  - intros prefix. unfold createId. fold slug.
    destruct slug as [|c r] eqn:Hs; cbn [is_empty].
    + eexists. split; [reflexivity|]. split; [discriminate|].
      repeat constructor; left; reflexivity.
    + eexists. split; [reflexivity|]. split; [discriminate | exact Hchars].
Qed.

(** ** An object inside prose is recovered *)

Lemma indexOf_first c pre rest :
  ~ In c pre -> indexOf c (pre ++ c :: rest) = Some (List.length pre).
Proof.
  induction pre as [|x pre IH]; intros Hn; cbn [app indexOf List.length].
  - unfold char_eqb. now rewrite N.eqb_refl.
  - replace (char_eqb x c) with false.
    + rewrite IH; [reflexivity|]. intros H. apply Hn. now right.
    + symmetry. apply N.eqb_neq. intros ->. apply Hn. now left.
Qed.

Lemma lastIndexOf_none c s : ~ In c s -> lastIndexOf c s = None.
Proof.
  induction s as [|x s IH]; intros Hn; [reflexivity|]. cbn [lastIndexOf].
  rewrite IH by (intros H; apply Hn; now right).
  replace (char_eqb x c) with false; [reflexivity|].
  symmetry. apply N.eqb_neq. intros ->. apply Hn. now left.
Qed.

Lemma lastIndexOf_last c a post :
  ~ In c post -> lastIndexOf c (a ++ c :: post) = Some (List.length a).
Proof.
  intros Hn. induction a as [|x a IH]; cbn [app lastIndexOf List.length].
  - rewrite (lastIndexOf_none c post Hn). unfold char_eqb. now rewrite N.eqb_refl.
  - now rewrite IH.
Qed.

Lemma slice_middle (pre obj post : jsstring) :
  slice (pre ++ obj ++ post) (List.length pre) (List.length pre + List.length obj) = obj.
Proof.
  unfold slice. rewrite skipn_app, skipn_all, Nat.sub_diag.
  replace (List.length pre + List.length obj - List.length pre) with (List.length obj)
    by lia.
  change (skipn 0 (obj ++ post)) with (obj ++ post). cbn [app].
  rewrite firstn_app, firstn_all, Nat.sub_diag. cbn [firstn]. apply app_nil_r.
Qed.

Lemma split_at_fence_none s : ~ In BACKTICK s -> split_at_fence s = None.
Proof.
  induction s as [|c r IH]; intros Hn; [reflexivity|]. cbn [split_at_fence].
  destruct (strip_prefix FENCE (c :: r)) as [a|] eqn:Hp.
  - apply strip_prefix_spec in Hp. exfalso. apply Hn. rewrite Hp. now left.
  - rewrite IH; [reflexivity|]. intros H. apply Hn. now right.
Qed.

Lemma trim_braced mid : trim (LBRACE :: mid ++ [RBRACE]) = LBRACE :: mid ++ [RBRACE].
Proof.
  unfold trim. cbn [drop_while]. replace (is_js_space LBRACE) with false by reflexivity.
  change (LBRACE :: mid ++ [RBRACE]) with ((LBRACE :: mid) ++ [RBRACE]).
  rewrite rev_app_distr. cbn [rev app drop_while].
  replace (is_js_space RBRACE) with false by reflexivity.
  change (RBRACE :: rev mid ++ [LBRACE]) with ([RBRACE] ++ rev (LBRACE :: mid)).
  now rewrite rev_app_distr, rev_involutive.
Qed.

(** X28. A response in which one JSON object is surrounded by prose is
    recovered: when the text holds no backtick, the prose before the object
    no opening brace and the prose after it no closing brace, and the object
    is valid JSON, [parseJsonResponse] returns the value of the object; so
    does [parseJsonFromModelText] on such a text that is trimmed and is not
    valid JSON as a whole. *)
Theorem object_in_prose_is_recovered
    (E : Engine) (pre mid post : jsstring) (v : json) :
  let obj := LBRACE :: mid ++ [RBRACE] in
  let raw := pre ++ obj ++ post in
  ~ In BACKTICK raw ->
  ~ In LBRACE pre ->
  ~ In RBRACE post ->
  JSON_parse obj = Some v ->
  parseJsonResponse E raw = Normal v
  /\ (trim raw = raw -> JSON_parse raw = None ->
      parseJsonFromModelText E raw = Normal v).
Proof.
  intros obj raw Htick Hpre Hpost Hv.
  assert (indexOf LBRACE raw = Some (List.length pre)) as Hi
    by (apply indexOf_first; exact Hpre).
  assert (lastIndexOf RBRACE raw = Some (List.length pre + S (List.length mid))) as Hj.
  { subst raw obj.
    replace (pre ++ (LBRACE :: mid ++ [RBRACE]) ++ post)
      with ((pre ++ LBRACE :: mid) ++ RBRACE :: post)
      by (cbn [app]; rewrite <- !app_assoc; reflexivity).
    rewrite lastIndexOf_last by exact Hpost.
    rewrite length_app. reflexivity. }
  assert (slice raw (List.length pre) (List.length pre + S (List.length mid) + 1) = obj)
    as Hslice.
  { replace (List.length pre + S (List.length mid) + 1)
      with (List.length pre + List.length obj)
      by (subst obj; cbn [List.length]; rewrite length_app; cbn; lia).
    apply slice_middle. }
  split.
  - unfold parseJsonResponse, extract_payload, match_fence.
    rewrite (split_at_fence_none raw Htick), Hi, Hj.
    replace (List.length pre <? List.length pre + S (List.length mid))%nat with true
      by (symmetry; apply Nat.ltb_lt; lia).
    rewrite Hslice. unfold parse_with_recovery. now rewrite Hv.
  - intros Htrim Hnone. unfold parseJsonFromModelText. rewrite Htrim.
    replace (is_empty raw) with false
      by (subst raw obj; destruct pre; reflexivity).
    unfold extractFencedJson, match_fence.
    rewrite (split_at_fence_none raw Htick). cbn [option_map truthy].
    rewrite Hnone. unfold extractDelimitedJson. rewrite Hi, Hj.
    replace (List.length pre + S (List.length mid) <=? List.length pre)%nat with false
      by (symmetry; apply Nat.leb_gt; lia).
    rewrite Hslice. subst obj. rewrite trim_braced. cbn [truthy is_empty].
    unfold JSON_parse_c. now rewrite Hv.
Qed.

Lemma object_in_prose_is_recovered_witness :
  parseJsonResponse exampleEngine (jsq "Sure! {'a': 1} Hope this helps.")
  = Normal (JObject [(js "a", JNumber (js "1"))])
  /\ parseJsonFromModelText exampleEngine (jsq "Sure! {'a': 1} Hope this helps.")
     = Normal (JObject [(js "a", JNumber (js "1"))]).
Proof.
  destruct (object_in_prose_is_recovered exampleEngine (js "Sure! ") (jsq "'a': 1")
              (js " Hope this helps.") (JObject [(js "a", JNumber (js "1"))]))
    as [H1 H2].
  - vm_compute. intuition discriminate.
  - vm_compute. intuition discriminate.
  - vm_compute. intuition discriminate.
  - vm_compute. reflexivity.
  - split; [exact H1|]. apply H2; vm_compute; reflexivity.
Defined.

(** ** The fallback lesson *)

Lemma existsb_string_eqb_In cat l :
  existsb (string_eqb cat) l = true -> In cat l.
Proof.
  induction l as [|x l IH]; [discriminate|]. cbn [existsb]. intros H.
  apply orb_true_iff in H as [H | H]; [left | right; now apply IH].
  symmetry. now apply string_eqb_eq.
Qed.

(** X29. The fallback lesson is built from its subsection alone and has a
    fixed shape: no worked example and no practice question, the first
    three key concepts at most as takeaways, and one drill for each
    memorizeable of the subsection, in order, whose category is always one
    of formula, definition and fact. *)
Theorem fallback_lesson_has_fixed_shape
    (E : Engine) (chapter : ChapterBreakdown) (sub : Subsection) :
  let lesson := fallbackLesson E chapter sub in
  workedExamples lesson = []
  /\ practiceQuestions lesson = []
  /\ keyTakeaways lesson = List.map JString (firstn 3 (keyConcepts sub))
  /\ List.length (keyTakeaways lesson) <= 3
  /\ List.length (memorizeableDrills lesson) = List.length (memorizeables sub)
  /\ forall i drill,
       memorizeableDrills lesson !! i = Some drill ->
       exists m cat,
         memorizeables sub !! i = Some m
         /\ drill = fallbackDrill E m
         /\ md_category drill = JString cat
         /\ In cat [js "formula"; js "definition"; js "fact"].
Proof.
  intros lesson. subst lesson. unfold fallbackLesson.
  cbn [workedExamples practiceQuestions keyTakeaways memorizeableDrills].
  split; [reflexivity|]. split; [reflexivity|]. split; [reflexivity|].
  split; [rewrite length_map, length_firstn; lia|].
  split; [apply length_map|].
  intros i drill Hd. rewrite map_lookup in Hd.
  destruct (memorizeables sub !! i) as [m|]; [|discriminate Hd].
  injection Hd as <-. eexists m, _. split; [reflexivity|]. split; [reflexivity|].
  unfold fallbackDrill. cbn [md_category]. split; [reflexivity|].
  destruct (existsb _ _) eqn:Hex.
  - now apply existsb_string_eqb_In in Hex.
  - cbn. auto.
Qed.

(** ** The sanitizer on valid JSON *)

Lemma well_escaped_fix s : well_escaped s = true -> sanitizeJsonBackslashes s = s.
Proof.
  induction s as [| c rest Hc Heq IH | | next rest Hv Heq IH | next rest Hv Hn Heq IH]
    using sanitize_cases.
  - reflexivity.
  - rewrite Heq, (well_escaped_plain _ _ Hc). intros H. f_equal. auto.
  - reflexivity.
  - rewrite Heq, well_escaped_pair, Hv. cbn [andb]. intros H. do 2 f_equal. auto.
  - rewrite well_escaped_pair, Hv. discriminate.
Qed.

Lemma skip_ws_neutral s : well_escaped s = well_escaped (skip_ws s).
Proof.
  induction s as [|c r IH]; [reflexivity|]. rewrite skip_ws_cons.
  destruct (is_json_ws c) eqn:Hc; [|reflexivity].
  now rewrite (well_escaped_plain _ _ (ws_not_backslash c Hc)).
Qed.

Lemma string_body_neutral_len n : forall s x r,
  List.length s <= n ->
  parse_string_body false s = Some (x, r) -> well_escaped s = well_escaped r.
Proof.
  induction n as [|n IH]; intros s x r Hlen H.
  { destruct s; [discriminate | simpl in Hlen; lia]. }
  destruct s as [|c s1]; [discriminate|]. simpl in Hlen.
  cbn [parse_string_body] in H.
  destruct (char_eqb c QUOTE) eqn:Hq.
  { injection H as <- <-. apply char_eqb_eq in Hq. subst c.
    now apply well_escaped_plain. }
  destruct (char_eqb c BACKSLASH) eqn:Hb.
  - apply char_eqb_eq in Hb. subst c.
    destruct s1 as [|e s2]; [discriminate|]. simpl in Hlen.
    rewrite well_escaped_pair.
    destruct (simple_escape e) eqn:He.
    { rewrite (simple_escape_valid _ _ He). cbn [andb].
      apply prepend_inv in H as (l0 & H & _). apply IH in H; [exact H | lia]. }
    destruct (char_eqb e 117%N) eqn:Hu.
    { apply char_eqb_eq in Hu. subst e.
      destruct s2 as [|h1 [|h2 [|h3 [|h4 s3]]]]; try discriminate.
      destruct (hex4 h1 h2 h3 h4) eqn:Hh; [|discriminate].
      apply prepend_inv in H as (l0 & H & _).
      simpl in Hlen. apply IH in H; [|lia]. rewrite <- H.
      change (validEscapes_has 117%N) with true. cbn [andb].
      unfold hex4 in Hh.
      destruct (hex_value h1) eqn:H1; [|discriminate].
      destruct (hex_value h2) eqn:H2; [|discriminate].
      destruct (hex_value h3) eqn:H3; [|discriminate].
      destruct (hex_value h4) eqn:H4; [|discriminate].
      rewrite (well_escaped_plain h1) by (eapply hex_not_backslash; eauto).
      rewrite (well_escaped_plain h2) by (eapply hex_not_backslash; eauto).
      rewrite (well_escaped_plain h3) by (eapply hex_not_backslash; eauto).
      now rewrite (well_escaped_plain h4) by (eapply hex_not_backslash; eauto). }
    discriminate H.
  - destruct (c <? 32)%N; [discriminate|].
    apply prepend_inv in H as (l0 & H & _).
    rewrite (well_escaped_plain _ _ Hb). apply IH in H; [exact H | lia].
Qed.

Lemma string_body_neutral : neutral (parse_string_body false).
Proof. intros s x r H. eapply string_body_neutral_len; [reflexivity | exact H]. Qed.

Lemma span_digits_neutral s : well_escaped s = well_escaped (snd (span_digits s)).
Proof.
  induction s as [|c r IH]; [reflexivity|].
  cbn [span_digits]. destruct (is_digit c) eqn:Hd; [|reflexivity].
  rewrite (well_escaped_plain _ _ (digit_not_backslash c Hd)).
  destruct (span_digits r) as [d r']. exact IH.
Qed.

Lemma lex_int_neutral : neutral lex_int.
Proof.
  intros s x r H. unfold lex_int in H. destruct s as [|c s1]; [discriminate|].
  destruct (char_eqb c 48%N) eqn:H0.
  { injection H as <- <-. apply char_eqb_eq in H0. subst c.
    now apply well_escaped_plain. }
  destruct (is_digit c) eqn:Hd; [|discriminate].
  rewrite (well_escaped_plain _ _ (digit_not_backslash c Hd)).
  pose proof (span_digits_neutral s1) as Hs. destruct (span_digits s1) as [d r'].
  injection H as <- <-. exact Hs.
Qed.

Lemma lex_frac_neutral : neutral lex_frac.
Proof.
  intros s x r H. unfold lex_frac in H. destruct s as [|c s1].
  { injection H as <- <-. reflexivity. }
  destruct (char_eqb c 46%N) eqn:Hp; [|injection H as <- <-; reflexivity].
  apply char_eqb_eq in Hp. subst c.
  rewrite well_escaped_plain by reflexivity.
  pose proof (span_digits_neutral s1) as Hs.
  destruct (span_digits s1) as [[|d ds] r']; [discriminate|].
  injection H as <- <-. exact Hs.
Qed.

Lemma lex_exp_neutral : neutral lex_exp.
Proof.
  intros s x r H. unfold lex_exp in H. destruct s as [|c s1].
  { injection H as <- <-. reflexivity. }
  destruct (char_eqb c 101%N || char_eqb c 69%N) eqn:He;
    [|injection H as <- <-; reflexivity].
  assert (char_eqb c BACKSLASH = false) as Hc.
  { apply orb_true_iff in He as [He | He]; apply char_eqb_eq in He; subst c;
      reflexivity. }
  rewrite (well_escaped_plain _ _ Hc).
  destruct s1 as [|y s2].
  - cbn in H. discriminate.
  - destruct (char_eqb y 43%N || char_eqb y 45%N) eqn:Hy.
    + assert (char_eqb y BACKSLASH = false) as Hyb.
      { apply orb_true_iff in Hy as [Hy | Hy]; apply char_eqb_eq in Hy; subst y;
          reflexivity. }
      rewrite (well_escaped_plain _ _ Hyb).
      pose proof (span_digits_neutral s2) as Hs.
      destruct (span_digits s2) as [[|d ds] r']; [discriminate|].
      injection H as <- <-. exact Hs.
    + pose proof (span_digits_neutral (y :: s2)) as Hs.
      destruct (span_digits (y :: s2)) as [[|d ds] r']; [discriminate|].
      injection H as <- <-. exact Hs.
Qed.

Lemma lex_number_neutral : neutral lex_number.
Proof.
  intros s x r H. unfold lex_number in H.
  destruct (match s with
            | c :: r0 => if char_eqb c 45%N then ([c], r0) else ([], s)
            | [] => ([], s)
            end) as [sign s1] eqn:Hsign.
  assert (well_escaped s = well_escaped s1) as H1.
  { destruct s as [|c r0]; [injection Hsign as <- <-; reflexivity|].
    destruct (char_eqb c 45%N) eqn:Hm; injection Hsign as <- <-; [|reflexivity].
    apply char_eqb_eq in Hm. subst c. now apply well_escaped_plain. }
  destruct (lex_int s1) as [[i s2]|] eqn:Hi; [|discriminate].
  destruct (lex_frac s2) as [[f s3]|] eqn:Hf; [|discriminate].
  destruct (lex_exp s3) as [[e s4]|] eqn:He; [|discriminate].
  injection H as <- <-.
  apply lex_int_neutral in Hi. apply lex_frac_neutral in Hf.
  apply lex_exp_neutral in He. congruence.
Qed.

Lemma strip_prefix_neutral p : forall s r,
  forallb is_plain p = true ->
  strip_prefix p s = Some r -> well_escaped s = well_escaped r.
Proof.
  induction p as [|a p IH]; intros s r Hp H.
  - destruct s; injection H as <-; reflexivity.
  - destruct s as [|b s1]; [discriminate|]. cbn [strip_prefix] in H.
    cbn [forallb] in Hp. apply andb_true_iff in Hp as [Ha Hp].
    destruct (char_eqb a b) eqn:Hab; [|discriminate].
    apply char_eqb_eq in Hab. subst b. apply negb_true_iff in Ha.
    rewrite (well_escaped_plain _ _ Ha). now apply IH.
Qed.

(** One step of the analysis of a reader's body, recording what is known
    of the escapes. *)
Ltac neutral_step H :=
  match type of H with
  | context [match skip_ws ?s with _ => _ end] =>
      let E := fresh "E" in
      pose proof (skip_ws_neutral s) as E;
      destruct (skip_ws s) as [|? ?]; [discriminate H|]
  | context [match parse_string_body false ?s with _ => _ end] =>
      let E := fresh "E" in
      destruct (parse_string_body false s) as [[? ?]|] eqn:E; [|discriminate H];
      apply string_body_neutral in E
  | context [match strip_prefix ?p ?s with _ => _ end] =>
      let E := fresh "E" in
      destruct (strip_prefix p s) as [?|] eqn:E; [|discriminate H];
      apply strip_prefix_neutral in E; [|reflexivity]
  | context [match lex_number ?s with _ => _ end] =>
      let E := fresh "E" in
      destruct (lex_number s) as [[? ?]|] eqn:E; [|discriminate H];
      apply lex_number_neutral in E
  | context [match ?p ?s with _ => _ end] =>
      match goal with
      | N : neutral p |- _ =>
          let E := fresh "E" in
          destruct (p s) as [[? ?]|] eqn:E; [|discriminate H];
          apply N in E
      end
  | context [if char_eqb ?c ?k then _ else _] =>
      let T := fresh "T" in
      destruct (char_eqb c k) eqn:T;
      [apply char_eqb_eq in T; subst c;
       rewrite (well_escaped_plain k) in * by reflexivity
      | try discriminate H]
  end.

Ltac neutral_done H := injection H as <- <-; congruence.

Lemma value_body_neutral m e :
  neutral m -> neutral e -> neutral (value_body false m e).
Proof.
  intros Hm He s x r H. unfold value_body in H.
  repeat neutral_step H; neutral_done H.
Qed.

Lemma elements_body_neutral v e :
  neutral v -> neutral e -> neutral (elements_body v e).
Proof.
  intros Hv He s x r H. unfold elements_body in H.
  repeat neutral_step H; neutral_done H.
Qed.

Lemma members_body_neutral v m :
  neutral v -> neutral m -> neutral (members_body false v m).
Proof.
  intros Hv Hm s x r H. unfold members_body in H.
  repeat neutral_step H; neutral_done H.
Qed.

Lemma parse_neutral fuel :
  neutral (parse_value false fuel)
  /\ neutral (parse_elements false fuel)
  /\ neutral (parse_members false fuel).
Proof.
  induction fuel as [|fuel (IHv & IHe & IHm)].
  - repeat split; intros s x r H; discriminate H.
  - repeat split.
    + apply (value_body_neutral _ _ IHm IHe).
    + apply (elements_body_neutral _ _ IHv IHe).
    + apply (members_body_neutral _ _ IHv IHm).
Qed.

(** X30. The sanitizer changes no text that is valid JSON: what
    [JSON.parse] accepts is returned as it is, and so parses to the same
    value after sanitization. *)
Theorem sanitizer_keeps_valid_json (text : jsstring) (v : json) :
  JSON_parse text = Some v ->
  sanitizeJsonBackslashes text = text
  /\ JSON_parse (sanitizeJsonBackslashes text) = Some v.
Proof.
  intros H.
  assert (sanitizeJsonBackslashes text = text) as Hfix.
  { apply well_escaped_fix. unfold JSON_parse, parse_text in H.
    destruct (parse_value false (parse_fuel text) text) as [[v' r]|] eqn:Hp;
      [|discriminate H].
    destruct (parse_neutral (parse_fuel text)) as (Hn & _ & _).
    rewrite (Hn _ _ _ Hp), (skip_ws_neutral r).
    destruct (skip_ws r); [reflexivity | discriminate H]. }
  split; [exact Hfix|]. now rewrite Hfix.
Qed.

Lemma sanitizer_keeps_valid_json_witness :
  sanitizeJsonBackslashes (jsq "{'path': 'C:\\dir\\new', 'tab': '\t', 'u': '\u00e9'}")
  = jsq "{'path': 'C:\\dir\\new', 'tab': '\t', 'u': '\u00e9'}".
Proof.
  eapply sanitizer_keeps_valid_json. vm_compute. reflexivity.
Defined.
